(** * CMAC (RFC 4493 / NIST SP800-38B) over an injected block cipher

    A shallow embedding of the Go package [cmac]: subkey derivation
    ([shifted], [gensubkey], [gensubkeys]), the append-based engine of
    [cmac.go] ([block], [Write], [Sum], [Reset], [newcmac],
    [NewWithCipher], [New]) and the cursor-based engine of another
    revision of the same file.  Two more revisions are embedded for
    comparison: the one whose [Sum] finalizes in the scratch block, and an
    early one written for AES (with [padded]); so is the loop of the test
    that writes chunks of growing size.

    Go code runs in a small monad [M]: a computation either returns, panics
    (index out of range, bad [make], division by zero, explicit [panic]) or
    runs out of loop fuel, and it records every call of the cipher's
    [Encrypt] method.  Bytes are [Byte.byte]; byte arithmetic goes through
    [Z] with the wrap-around of [uint8] written out. *)

From Stdlib Require Import ZArith Lia.
From Stdlib Require Import Strings.Byte.
From stdpp Require Import base list strings.

Local Open Scope Z_scope.

(** ** Bytes: Go's [uint8] *)

Abbreviation byte := Byte.byte.

Definition byte_to_Z (b : byte) : Z := Z.of_N (Byte.to_N b).

(** Conversion [byte(v)] of an integer: the low eight bits. *)
Definition byte_of_Z (z : Z) : byte :=
  match Byte.of_N (Z.to_N (z mod 256)) with
  | Some b => b
  | None => Byte.x00
  end.

(** [a ^ b], [a | b], [a >> k] and [a << k] on [uint8]. *)
Definition bxor (a b : byte) : byte := byte_of_Z (Z.lxor (byte_to_Z a) (byte_to_Z b)).
Definition bor (a b : byte) : byte := byte_of_Z (Z.lor (byte_to_Z a) (byte_to_Z b)).
Definition bshr (a : byte) (k : Z) : byte := byte_of_Z (Z.shiftr (byte_to_Z a) k).
Definition bshl (a : byte) (k : Z) : byte := byte_of_Z (Z.shiftl (byte_to_Z a) k).

(** [subtle.ConstantTimeSelect(v, x, y)]: [^(v-1)&x | (v-1)&y] on [int]. *)
Definition ConstantTimeSelect (v x y : Z) : Z :=
  Z.lor (Z.land (Z.lnot (v - 1)) x) (Z.land (v - 1) y).

Definition _Rb128 : byte := Byte.x87.
Definition _Rb64 : byte := Byte.x1b.

(** [len(s)] as a Go [int]. *)
Definition len (s : list byte) : Z := Z.of_nat (length s).

(** ** The monad of Go computations *)

Inductive outcome (A : Type) : Type :=
| Ret (a : A)
| Panic (msg : string)
| OutOfFuel.
Arguments Ret {A} a.
Arguments Panic {A} msg.
Arguments OutOfFuel {A}.

(** A computation yields an outcome and the list of source blocks handed to
    the cipher's [Encrypt], in call order. *)
Definition M (A : Type) : Type := outcome A * list (list byte).

Definition res {A} (m : M A) : outcome A := fst m.
Definition calls {A} (m : M A) : list (list byte) := snd m.

Definition ret {A} (a : A) : M A := (Ret a, []).
Definition panic {A} (msg : string) : M A := (Panic msg, []).
Definition diverge {A} : M A := (OutOfFuel, []).

Definition bind {A B} (m : M A) (f : A -> M B) : M B :=
  match m with
  | (Ret a, t) => let (r, t') := f a in (r, t ++ t')
  | (Panic msg, t) => (Panic msg, t)
  | (OutOfFuel, t) => (OutOfFuel, t)
  end.

Declare Scope go_scope.
Delimit Scope go_scope with go.
Notation "x <- c1 ;; c2" := (bind c1 (fun x => c2))
  (at level 100, c1 at next level, right associativity) : go_scope.
Local Open Scope go_scope.

(** ** Slices *)

(** [s[i]] as an rvalue. *)
Definition index (s : list byte) (i : nat) : M byte :=
  match s !! i with
  | Some b => ret b
  | None => panic "index out of range"
  end.

(** [s[i] = v]. *)
Definition store (s : list byte) (i : nat) (v : byte) : M (list byte) :=
  if decide (i < length s)%nat then ret (<[i:=v]> s)
  else panic "index out of range".

(** [make([]byte, n)]. *)
Definition make (n : Z) : M (list byte) :=
  if decide (n < 0) then panic "makeslice: len out of range"
  else ret (replicate (Z.to_nat n) Byte.x00).

(** [copy(dst, src)]: the new contents of [dst] and the number of bytes copied. *)
Definition copy (dst src : list byte) : list byte * nat :=
  (take (length dst) src ++ drop (length src) dst,
   Nat.min (length dst) (length src)).

(** [s[:hi]] and [s[lo:]].  Go checks [hi] against the capacity, which is
    not modelled; every use below is under a guard [len(s) > hi]. *)
Definition slice_to (s : list byte) (hi : Z) : M (list byte) :=
  if decide (0 <= hi <= len s) then ret (take (Z.to_nat hi) s)
  else panic "slice bounds out of range".
Definition slice_from (s : list byte) (lo : Z) : M (list byte) :=
  if decide (0 <= lo <= len s) then ret (drop (Z.to_nat lo) s)
  else panic "slice bounds out of range".

(** [a % b] on [int]: truncated remainder, panics on a zero divisor. *)
Definition go_rem (a b : Z) : M Z :=
  if decide (b = 0) then panic "integer divide by zero" else ret (Z.rem a b).

(** [for i := lo; i < lo + n; i++ { s = body i s }]. *)
Fixpoint for_loop {St : Type} (lo : nat) (n : nat) (body : nat -> St -> M St) (s : St) : M St :=
  match n with
  | O => ret s
  | S n' => s' <- body lo s ;; for_loop (S lo) n' body s'
  end.

(** [for i := range s { ... }] over a slice of length [n]. *)
Definition for_range {St : Type} (n : nat) (body : nat -> St -> M St) (s : St) : M St :=
  for_loop 0 n body s.

(** ** The block cipher capability ([cipher.Block]) *)

Record Block : Type := {
  BlockSize : Z;
  (** the cipher's function from a source block to the bytes it writes *)
  cipher_fn : list byte -> list byte
}.

(** [c.Encrypt(dst, src)]: the cipher's output overwrites [dst] in place (a
    slice's length cannot change in a call); the call is recorded. *)
Definition Encrypt (ci : Block) (dst src : list byte) : M (list byte) :=
  (Ret (fst (copy dst (cipher_fn ci src))), [src]).

(** ** Subkey derivation *)

(** The body of the loop of [shifted]. *)
Definition shifted_body (i : nat) (d : list byte) : M (list byte) :=
  d <- (if decide (0 < i)%nat then
          di <- index d i ;;
          dp <- index d (i - 1) ;;
          store d (i - 1) (bor dp (bshr di 7))
        else ret d) ;;
  di <- index d i ;;
  store d i (bshl di 1).

Definition shifted (x : list byte) : M (list byte) :=
  d <- make (len x) ;;
  let d := fst (copy d x) in
  for_range (length d) shifted_body d.

(** [sk[len(sk)-1]]: for an empty [sk] Go's index is [-1], out of range as
    index [0] is here. *)
Definition gensubkey (ci : Block) (l : list byte) (rb : byte) : M (list byte) :=
  sk <- shifted l ;;
  l0 <- index l 0 ;;
  let sel := byte_of_Z (ConstantTimeSelect (byte_to_Z (bshr l0 7)) (byte_to_Z rb) 0) in
  old <- index sk (length sk - 1) ;;
  store sk (length sk - 1) (bxor old sel).

Definition gensubkeys (ci : Block) : M (list byte * list byte) :=
  rb <- (if decide (BlockSize ci = 16) then ret _Rb128
         else if decide (BlockSize ci = 8) then ret _Rb64
         else panic "cmac: invalid block size") ;;
  l <- make (BlockSize ci) ;;
  l <- Encrypt ci l l ;;
  k1 <- gensubkey ci l rb ;;
  k2 <- gensubkey ci k1 rb ;;
  ret (k1, k2).

(** ** Errors and the external cipher constructor *)

(** Go's [error]: a value built by [errors.New], or whatever the cipher
    package reports (opaque here). *)
Inductive error : Type :=
| errors_New (msg : string)
| cipher_error (code : Z).

(** ** The engine of [cmac.go]: the pending buffer grows by [append] *)

Module Append.

Record cmac : Type := {
  c : Block;
  k1 : list byte;
  k2 : list byte;
  buf : list byte;
  x : list byte;
  tmp : list byte
}.

Definition set_buf (m : cmac) (v : list byte) : cmac :=
  {| c := c m; k1 := k1 m; k2 := k2 m; buf := v; x := x m; tmp := tmp m |}.
Definition set_x (m : cmac) (v : list byte) : cmac :=
  {| c := c m; k1 := k1 m; k2 := k2 m; buf := buf m; x := v; tmp := tmp m |}.
Definition set_tmp (m : cmac) (v : list byte) : cmac :=
  {| c := c m; k1 := k1 m; k2 := k2 m; buf := buf m; x := x m; tmp := v |}.

Definition Reset (m : cmac) : M cmac :=
  let m := set_buf m [] in
  x' <- make (BlockSize (c m)) ;;
  ret (set_x m x').

Definition newcmac (ci : Block) : M cmac :=
  ks <- gensubkeys ci ;;
  tmp' <- make (BlockSize ci) ;;
  Reset {| c := ci; k1 := fst ks; k2 := snd ks; buf := []; x := []; tmp := tmp' |}.

Definition block (m : cmac) (b : list byte) : M cmac :=
  tmp' <- for_range (length (tmp m)) (fun i t =>
            xi <- index (x m) i ;;
            bi <- index b i ;;
            store t i (bxor xi bi)) (tmp m) ;;
  let m := set_tmp m tmp' in
  x' <- Encrypt (c m) (x m) (tmp m) ;;
  ret (set_x m x').

(** The loop of [Write]; [fuel] bounds the number of iterations.  Every
    iteration drops [BlockSize] bytes of [d], so [length d] iterations are
    enough for a positive block size; with a block size of zero the Go loop
    never ends and the fuel runs out. *)
Fixpoint Write_loop (fuel : nat) (m : cmac) (d : list byte) : M (cmac * list byte) :=
  if decide (len d > BlockSize (c m)) then
    match fuel with
    | O => diverge
    | S fuel' =>
        blk <- slice_to d (BlockSize (c m)) ;;
        m' <- block m blk ;;
        d' <- slice_from d (BlockSize (c m)) ;;
        Write_loop fuel' m' d'
    end
  else ret (m, d).

Definition Write (m : cmac) (b : list byte) : M (cmac * (Z * option error)) :=
  let d := buf m ++ b in
  md <- Write_loop (length d) m d ;;
  ret (set_buf (fst md) (snd md), (len b, None)).

Definition Sum (m : cmac) (b : list byte) : M (cmac * list byte) :=
  last <- make (BlockSize (c m)) ;;
  aligned <- (if decide (len (buf m) > 0) then
                r <- go_rem (len (buf m)) (BlockSize (c m)) ;;
                ret (bool_decide (r = 0))
              else ret false) ;;
  last <- (if aligned then
             for_range (length last) (fun i last =>
               bi <- index (buf m) i ;;
               ki <- index (k1 m) i ;;
               store last i (bxor bi ki)) last
           else
             let last := fst (copy last (buf m)) in
             last <- store last (length (buf m)) Byte.x80 ;;
             for_range (length last) (fun i last =>
               li <- index last i ;;
               ki <- index (k2 m) i ;;
               store last i (bxor li ki)) last) ;;
  last <- for_range (length last) (fun i last =>
            li <- index last i ;;
            xi <- index (x m) i ;;
            store last i (bxor li xi)) last ;;
  last <- Encrypt (c m) last last ;;
  ret (m, b ++ last).

Definition Size (m : cmac) : Z := BlockSize (c m).

Definition NewWithCipher (ci : Block) : M (option cmac * option error) :=
  if decide (BlockSize ci = 8 \/ BlockSize ci = 16) then
    m <- newcmac ci ;; ret (Some m, None)
  else ret (None, Some (errors_New "cmac: invalid blocksize")).

(** [New], over the external [aes.NewCipher]. *)
Definition New (aes_NewCipher : list byte -> Block + error) (key : list byte)
  : M (option cmac * option error) :=
  match aes_NewCipher key with
  | inr err => ret (None, Some err)
  | inl ci => NewWithCipher ci
  end.

(** The method [BlockSize] of the engine (it hides the cipher's from here
    to the end of the module). *)
Definition BlockSize (m : cmac) : Z := BlockSize (c m).

End Append.

(** ** The revision that finalizes in the scratch block *)

(** An earlier revision of the append-based engine has the fields,
    [newcmac], [block], [Write] and [Reset] of [cmac.go]; its [Sum] builds
    the last block in [m.tmp] where [cmac.go] makes a new slice, and tests
    [len(m.buf) == BlockSize] where [cmac.go] tests the remainder. *)
Module Scratch.

Definition Sum (m : Append.cmac) (b : list byte) : M (Append.cmac * list byte) :=
  t <- (if decide (len (Append.buf m) = BlockSize (Append.c m)) then
          for_range (length (Append.tmp m)) (fun i t =>
            bi <- index (Append.buf m) i ;;
            ki <- index (Append.k1 m) i ;;
            store t i (bxor bi ki)) (Append.tmp m)
        else
          t <- for_range (length (Append.buf m)) (fun i t =>
                 bi <- index (Append.buf m) i ;;
                 ki <- index (Append.k2 m) i ;;
                 store t i (bxor bi ki)) (Append.tmp m) ;;
          kn <- index (Append.k2 m) (length (Append.buf m)) ;;
          t <- store t (length (Append.buf m)) (bxor Byte.x80 kn) ;;
          for_loop (length (Append.buf m) + 1) (length t - (length (Append.buf m) + 1))
            (fun i t =>
               ki <- index (Append.k2 m) i ;;
               store t i ki) t) ;;
  t <- for_range (length t) (fun i t =>
         ti <- index t i ;;
         xi <- index (Append.x m) i ;;
         store t i (bxor ti xi)) t ;;
  t <- Encrypt (Append.c m) t t ;;
  ret (Append.set_tmp m t, b ++ t).

End Scratch.

(** ** The cursor-based engine: a fixed buffer of one block and a cursor *)

Module Cursor.

Record cmac : Type := {
  c : Block;
  k1 : list byte;
  k2 : list byte;
  buf : list byte;
  x : list byte;
  cursor : nat
}.

Definition set_buf (m : cmac) (v : list byte) : cmac :=
  {| c := c m; k1 := k1 m; k2 := k2 m; buf := v; x := x m; cursor := cursor m |}.
Definition set_x (m : cmac) (v : list byte) : cmac :=
  {| c := c m; k1 := k1 m; k2 := k2 m; buf := buf m; x := v; cursor := cursor m |}.
Definition set_cursor (m : cmac) (v : nat) : cmac :=
  {| c := c m; k1 := k1 m; k2 := k2 m; buf := buf m; x := x m; cursor := v |}.

(** The body of the loop of [Reset]. *)
Definition Reset_body (i : nat) (m : cmac) : M cmac :=
  buf' <- store (buf m) i Byte.x00 ;;
  let m := set_buf m buf' in
  x' <- store (x m) i Byte.x00 ;;
  ret (set_x m x').

Definition Reset (m : cmac) : M cmac :=
  m <- for_loop 0 (Z.to_nat (BlockSize (c m))) Reset_body m ;;
  ret (set_cursor m 0).

Definition newcmac (ci : Block) : M cmac :=
  ks <- gensubkeys ci ;;
  buf' <- make (BlockSize ci) ;;
  x' <- make (BlockSize ci) ;;
  Reset {| c := ci; k1 := fst ks; k2 := snd ks; buf := buf'; x := x'; cursor := 0 |}.

(** [copy(m.buf[lo:], b)] writes into the tail of [m.buf]. *)
Definition copy_at (dst : list byte) (lo : nat) (src : list byte) : M (list byte * nat) :=
  if decide (lo <= length dst)%nat then
    let r := copy (drop lo dst) src in
    ret (take lo dst ++ fst r, snd r)
  else panic "slice bounds out of range".

(** The loop of [Write], with fuel as in the append-based engine. *)
Fixpoint Write_loop (fuel : nat) (m : cmac) (b : list byte) : M cmac :=
  if decide (len b > 0) then
    match fuel with
    | O => diverge
    | S fuel' =>
        buf' <- for_range (length (buf m)) (fun i t =>
                  ti <- index t i ;;
                  xi <- index (x m) i ;;
                  store t i (bxor ti xi)) (buf m) ;;
        let m := set_buf m buf' in
        x' <- Encrypt (c m) (x m) (buf m) ;;
        let m := set_x m x' in
        let r := copy (buf m) b in
        let m := set_cursor (set_buf m (fst r)) (snd r) in
        Write_loop fuel' m (drop (cursor m) b)
    end
  else ret m.

Definition Write (m : cmac) (b : list byte) : M (cmac * (Z * option error)) :=
  let totLen := len b in
  r <- copy_at (buf m) (cursor m) b ;;
  let m := set_cursor (set_buf m (fst r)) (cursor m + snd r) in
  let b := drop (snd r) b in
  m <- Write_loop (length b) m b ;;
  ret (m, (totLen, None)).

Definition Sum (m : cmac) (b : list byte) : M (cmac * list byte) :=
  scratch <- (if decide (BlockSize (c m) = 8) then ret (replicate 8 Byte.x00)
              else if decide (BlockSize (c m) = 16) then ret (replicate 16 Byte.x00)
              else panic "unexpected block size") ;;
  scratch <- (if decide (Z.of_nat (cursor m) = BlockSize (c m)) then
                for_range (length scratch) (fun i s =>
                  bi <- index (buf m) i ;;
                  ki <- index (k1 m) i ;;
                  store s i (bxor bi ki)) scratch
              else
                s <- for_loop 0 (cursor m) (fun i s =>
                       bi <- index (buf m) i ;;
                       ki <- index (k2 m) i ;;
                       store s i (bxor bi ki)) scratch ;;
                kc <- index (k2 m) (cursor m) ;;
                s <- store s (cursor m) (bxor Byte.x80 kc) ;;
                for_loop (cursor m + 1) (length (buf m) - (cursor m + 1)) (fun i s =>
                  ki <- index (k2 m) i ;;
                  store s i ki) s) ;;
  scratch <- for_range (length scratch) (fun i s =>
               si <- index s i ;;
               xi <- index (x m) i ;;
               store s i (bxor si xi)) scratch ;;
  scratch <- Encrypt (c m) scratch scratch ;;
  ret (m, b ++ scratch).

Definition Size (m : cmac) : Z := BlockSize (c m).

Definition NewWithCipher (ci : Block) : M (option cmac * option error) :=
  if decide (BlockSize ci = 8 \/ BlockSize ci = 16) then
    m <- newcmac ci ;; ret (Some m, None)
  else ret (None, Some (errors_New "cmac: invalid blocksize")).

End Cursor.

(** ** An early revision, written for AES *)

(** The engine before the scratch block and the second constant were
    introduced: the struct has no [tmp], [block] makes a new slice at every
    call, the subkeys are always derived with [0x87], and [NewWithCipher]
    takes whatever cipher it is given.  [shifted] and [gensubkey] are those
    of [cmac.go]. *)
Module Early.

Record cmac : Type := {
  c : Block;
  k1 : list byte;
  k2 : list byte;
  x : list byte;
  buf : list byte
}.

Definition set_buf (m : cmac) (v : list byte) : cmac :=
  {| c := c m; k1 := k1 m; k2 := k2 m; x := x m; buf := v |}.
Definition set_x (m : cmac) (v : list byte) : cmac :=
  {| c := c m; k1 := k1 m; k2 := k2 m; x := v; buf := buf m |}.

(** [aes.BlockSize]. *)
Definition aes_BlockSize : Z := 16.

Definition padded (d : list byte) : M (list byte) :=
  p <- make aes_BlockSize ;;
  let p := fst (copy p d) in
  store p (length d) Byte.x80.

Definition gensubkeys (ci : Block) : M (list byte * list byte) :=
  l <- make (BlockSize ci) ;;
  l <- Encrypt ci l l ;;
  k1 <- gensubkey ci l Byte.x87 ;;
  k2 <- gensubkey ci k1 Byte.x87 ;;
  ret (k1, k2).

Definition Reset (m : cmac) : M cmac :=
  let m := set_buf m [] in
  x' <- make (BlockSize (c m)) ;;
  ret (set_x m x').

Definition newcmac (ci : Block) : M cmac :=
  ks <- gensubkeys ci ;;
  Reset {| c := ci; k1 := fst ks; k2 := snd ks; x := []; buf := [] |}.

Definition block (m : cmac) (b : list byte) : M cmac :=
  y <- make (BlockSize (c m)) ;;
  y <- for_range (length y) (fun i y =>
         xi <- index (x m) i ;;
         bi <- index b i ;;
         store y i (bxor xi bi)) y ;;
  x' <- Encrypt (c m) (x m) y ;;
  ret (set_x m x').

Fixpoint Write_loop (fuel : nat) (m : cmac) (d : list byte) : M (cmac * list byte) :=
  if decide (len d > BlockSize (c m)) then
    match fuel with
    | O => diverge
    | S fuel' =>
        blk <- slice_to d (BlockSize (c m)) ;;
        m' <- block m blk ;;
        d' <- slice_from d (BlockSize (c m)) ;;
        Write_loop fuel' m' d'
    end
  else ret (m, d).

Definition Write (m : cmac) (b : list byte) : M (cmac * (Z * option error)) :=
  let d := buf m ++ b in
  md <- Write_loop (length d) m d ;;
  ret (set_buf (fst md) (snd md), (len b, None)).

Definition Sum (m : cmac) (b : list byte) : M (cmac * list byte) :=
  last <- make (BlockSize (c m)) ;;
  aligned <- (if decide (len (buf m) > 0) then
                r <- go_rem (len (buf m)) (BlockSize (c m)) ;;
                ret (bool_decide (r = 0))
              else ret false) ;;
  last <- (if aligned then
             for_range (length last) (fun i last =>
               bi <- index (buf m) i ;;
               ki <- index (k1 m) i ;;
               store last i (bxor bi ki)) last
           else
             let last := fst (copy last (buf m)) in
             last <- store last (length (buf m)) Byte.x80 ;;
             for_range (length last) (fun i last =>
               li <- index last i ;;
               ki <- index (k2 m) i ;;
               store last i (bxor li ki)) last) ;;
  last <- for_range (length last) (fun i last =>
            li <- index last i ;;
            xi <- index (x m) i ;;
            store last i (bxor li xi)) last ;;
  last <- Encrypt (c m) last last ;;
  ret (m, b ++ last).

Definition Size (m : cmac) : Z := BlockSize (c m).

Definition NewWithCipher (ci : Block) : M cmac := newcmac ci.

End Early.

(** ** The interface [hash.Hash] and its callers *)

(** The methods of [hash.Hash] that both engines implement. *)
Class Hash (T : Type) : Type := {
  hash_Write : T -> list byte -> M (T * (Z * option error));
  hash_Sum : T -> list byte -> M (T * list byte);
  hash_Reset : T -> M T;
  hash_Size : T -> Z
}.

#[global] Instance Append_Hash : Hash Append.cmac :=
  {| hash_Write := Append.Write; hash_Sum := Append.Sum; hash_Reset := Append.Reset;
     hash_Size := Append.Size |}.

#[global] Instance Cursor_Hash : Hash Cursor.cmac :=
  {| hash_Write := Cursor.Write; hash_Sum := Cursor.Sum; hash_Reset := Cursor.Reset;
     hash_Size := Cursor.Size |}.

#[global] Instance Early_Hash : Hash Early.cmac :=
  {| hash_Write := Early.Write; hash_Sum := Early.Sum; hash_Reset := Early.Reset;
     hash_Size := Early.Size |}.

(** A caller feeding chunks with successive [Write] calls ... *)
Fixpoint writes {T} `{Hash T} (m : T) (chunks : list (list byte)) : M T :=
  match chunks with
  | [] => ret m
  | ch :: rest => r <- hash_Write m ch ;; writes (fst r) rest
  end.

(** ... and asking for the tag. *)
Definition mac_after {T} `{Hash T} (m : T) (chunks : list (list byte)) : M (list byte) :=
  m' <- writes m chunks ;;
  r <- hash_Sum m' [] ;;
  ret (snd r).

(** Construct an engine on a cipher, feed it the chunks, ask for the tag. *)
Definition Append_digest (ci : Block) (chunks : list (list byte))
  : M (option (list byte) * option error) :=
  r <- Append.NewWithCipher ci ;;
  match r with
  | (Some m, _) => t <- mac_after m chunks ;; ret (Some t, None)
  | (None, e) => ret (None, e)
  end.

Definition Cursor_digest (ci : Block) (chunks : list (list byte))
  : M (option (list byte) * option error) :=
  r <- Cursor.NewWithCipher ci ;;
  match r with
  | (Some m, _) => t <- mac_after m chunks ;; ret (Some t, None)
  | (None, e) => ret (None, e)
  end.

Definition Early_digest (ci : Block) (chunks : list (list byte)) : M (list byte) :=
  m <- Early.NewWithCipher ci ;;
  mac_after m chunks.

(** ** Ciphers to run the engines on *)

(** A small cipher: it reverses the block and maps every byte [v] to
    [7 * v + 129]. *)
Definition demo_cipher (bs : Z) : Block :=
  {| BlockSize := bs;
     cipher_fn := fun b => map (fun v => byte_of_Z (byte_to_Z v * 7 + 129)) (rev b) |}.

Definition bytes_of (l : list Z) : list byte := map byte_of_Z l.

(** AES-128 (FIPS 197), the cipher of the package's tests, on byte values in
    [Z]: multiplication in GF(2^8), the S-box from the field inverse and the
    affine map, the round functions, and the key schedule run alongside the
    rounds. *)
Definition xtime (a : Z) : Z :=
  let b := 2 * a in if 256 <=? b then Z.lxor (b - 256) 0x1b else b.

Fixpoint gf_mul (n : nat) (a b : Z) : Z :=
  match n with
  | O => 0
  | S n' => Z.lxor (if Z.odd b then a else 0) (gf_mul n' (xtime a) (b / 2))
  end.

Definition gmul (a b : Z) : Z := gf_mul 8 a b.

Definition gf_inv (a : Z) : Z :=
  let a2 := gmul a a in
  let a4 := gmul a2 a2 in
  let a8 := gmul a4 a4 in
  let a16 := gmul a8 a8 in
  let a32 := gmul a16 a16 in
  let a64 := gmul a32 a32 in
  let a128 := gmul a64 a64 in
  gmul a128 (gmul a64 (gmul a32 (gmul a16 (gmul a8 (gmul a4 a2))))).

Definition rotl8 (v k : Z) : Z :=
  Z.land (Z.lor (Z.shiftl v k) (Z.shiftr v (8 - k))) 255.

Definition sbox (a : Z) : Z :=
  let v := gf_inv a in
  Z.lxor (Z.lxor (Z.lxor (Z.lxor (Z.lxor v (rotl8 v 1)) (rotl8 v 2)) (rotl8 v 3))
            (rotl8 v 4)) 0x63.

Definition cell (l : list Z) (i : nat) : Z := nth i l 0.

Definition shift_rows (s : list Z) : list Z :=
  map (fun i => cell s (i mod 4 + 4 * ((i / 4 + i mod 4) mod 4))%nat) (seq 0 16).

Definition mix_column (col : list Z) : list Z :=
  let a0 := cell col 0 in let a1 := cell col 1 in
  let a2 := cell col 2 in let a3 := cell col 3 in
  [Z.lxor (Z.lxor (gmul 2 a0) (gmul 3 a1)) (Z.lxor a2 a3);
   Z.lxor (Z.lxor a0 (gmul 2 a1)) (Z.lxor (gmul 3 a2) a3);
   Z.lxor (Z.lxor a0 a1) (Z.lxor (gmul 2 a2) (gmul 3 a3));
   Z.lxor (Z.lxor (gmul 3 a0) a1) (Z.lxor a2 (gmul 2 a3))].

Definition mix_columns (s : list Z) : list Z :=
  flat_map (fun j => mix_column (take 4 (drop (4 * j) s))) (seq 0 4).

Definition next_round_key (rk : list Z) (rcon : Z) : list Z :=
  let w3 := drop 12 rk in
  let t := [Z.lxor (sbox (cell w3 1)) rcon; sbox (cell w3 2); sbox (cell w3 3);
            sbox (cell w3 0)] in
  let n0 := zip_with Z.lxor (take 4 rk) t in
  let n1 := zip_with Z.lxor (take 4 (drop 4 rk)) n0 in
  let n2 := zip_with Z.lxor (take 4 (drop 8 rk)) n1 in
  let n3 := zip_with Z.lxor w3 n2 in
  n0 ++ n1 ++ n2 ++ n3.

Fixpoint aes_rounds (n : nat) (rk : list Z) (rcon : Z) (s : list Z) : list Z :=
  match n with
  | O => s
  | S n' =>
      let rk' := next_round_key rk rcon in
      let s1 := shift_rows (map sbox s) in
      let s2 := match n' with O => s1 | _ => mix_columns s1 end in
      aes_rounds n' rk' (xtime rcon) (zip_with Z.lxor s2 rk')
  end.

Definition aes128_encrypt (key blk : list Z) : list Z :=
  aes_rounds 10 key 1 (zip_with Z.lxor blk key).

Definition aes128 (key : list byte) : Block :=
  {| BlockSize := 16;
     cipher_fn := fun b =>
       bytes_of (aes128_encrypt (map byte_to_Z key) (map byte_to_Z b)) |}.

(** The key and the message of the examples of RFC 4493. *)
Definition rfc4493_key : list byte :=
  bytes_of [0x2b; 0x7e; 0x15; 0x16; 0x28; 0xae; 0xd2; 0xa6;
            0xab; 0xf7; 0x15; 0x88; 0x09; 0xcf; 0x4f; 0x3c].

Definition rfc4493_message : list byte :=
  bytes_of [0x6b; 0xc1; 0xbe; 0xe2; 0x2e; 0x40; 0x9f; 0x96;
            0xe9; 0x3d; 0x7e; 0x11; 0x73; 0x93; 0x17; 0x2a;
            0xae; 0x2d; 0x8a; 0x57; 0x1e; 0x03; 0xac; 0x9c;
            0x9e; 0xb7; 0x6f; 0xac; 0x45; 0xaf; 0x8e; 0x51;
            0x30; 0xc8; 0x1c; 0x46; 0xa3; 0x5c; 0xe4; 0x11;
            0xe5; 0xfb; 0xc1; 0x19; 0x1a; 0x0a; 0x52; 0xef;
            0xf6; 0x9f; 0x24; 0x45; 0xdf; 0x4f; 0x9b; 0x17;
            0xad; 0x2b; 0x41; 0x7b; 0xe6; 0x6c; 0x37; 0x10].

(** A stand-in for [aes.NewCipher] to run [New] on: 16-, 24- and 32-byte keys
    give a 16-byte block cipher, other lengths the key-size error. *)
Definition demo_NewCipher (key : list byte) : Block + error :=
  if decide (len key = 16 \/ len key = 24 \/ len key = 32) then inl (demo_cipher 16)
  else inr (cipher_error (len key)).

(** * The specification *)

(** Block size as a length, and byte-wise XOR of two blocks. *)
Definition bsize (ci : Block) : nat := Z.to_nat (BlockSize ci).

Definition xor_bytes (a b : list byte) : list byte := zip_with bxor a b.

(** What [c.Encrypt(dst, src)] leaves in [dst]. *)
Definition encrypted (ci : Block) (dst src : list byte) : list byte :=
  fst (copy dst (cipher_fn ci src)).

(** ** Subkeys *)

(** The doubling of the specification, in its words: every byte is shifted
    left by one bit and its vacated low bit is filled with the high bit of
    the next byte (nothing follows the last byte); the highest bit of the
    sequence is lost. *)
Definition shift_left_1 (v : list byte) : list byte :=
  zip_with (fun a nxt => bor (bshl a 1) (bshr nxt 7)) v (drop 1 v ++ [Byte.x00]).

(** The most-significant bit of the sequence. *)
Definition msb (v : list byte) : bool :=
  match v with
  | a :: _ => Z.testbit (byte_to_Z a) 7
  | [] => false
  end.

(** XOR a constant into the last byte. *)
Definition xor_last (s : list byte) (rb : byte) : list byte :=
  take (length s - 1) s ++ map (fun b => bxor b rb) (drop (length s - 1) s).

Definition double (rb : byte) (v : list byte) : list byte :=
  if msb v then xor_last (shift_left_1 v) rb else shift_left_1 v.

(** The constant Rb by block size. *)
Definition Rb (bs : Z) : byte := if decide (bs = 16) then Byte.x87 else Byte.x1b.

(** The byte sequence as a big-endian number. *)
Definition be_value (v : list byte) : Z :=
  foldl (fun acc b => acc * 256 + byte_to_Z b) 0 v.

(** The zero block, the block [L] that the cipher makes of it, and the
    subkeys. *)
Definition zero_block (ci : Block) : list byte :=
  replicate (Z.to_nat (BlockSize ci)) Byte.x00.
Definition subkey_L (ci : Block) : list byte :=
  encrypted ci (zero_block ci) (zero_block ci).
Definition subkey_K1 (ci : Block) : list byte := double (Rb (BlockSize ci)) (subkey_L ci).
Definition subkey_K2 (ci : Block) : list byte := double (Rb (BlockSize ci)) (subkey_K1 ci).

(** ** Finalization *)

(** Padding: one [0x80] byte after the pending bytes, then zeros up to the
    block size. *)
Definition pad (n : nat) (b : list byte) : list byte :=
  b ++ Byte.x80 :: replicate (n - length b - 1) Byte.x00.

Definition final_block (n : nat) (K1 K2 pending : list byte) : list byte :=
  if decide (length pending = n) then xor_bytes pending K1
  else xor_bytes (pad n pending) K2.

Definition final_tag (ci : Block) (K1 K2 pending X : list byte) : list byte :=
  let last := xor_bytes (final_block (bsize ci) K1 K2 pending) X in
  encrypted ci last last.

(** ** The drain loop of [Write] *)

(** One chaining step: [X = encrypt(X XOR block)]. *)
Definition chain (ci : Block) (X blk : list byte) : list byte :=
  encrypted ci X (xor_bytes X blk).

(** The drain loop of the specification as a big-step relation on
    (chaining value, pending bytes): while strictly more than one block is
    pending, one block is consumed from the front. *)
Inductive drains (ci : Block) : list byte * list byte -> list byte * list byte -> Prop :=
| drains_done X d :
    (length d <= bsize ci)%nat -> drains ci (X, d) (X, d)
| drains_step X d r :
    (bsize ci < length d)%nat ->
    drains ci (chain ci X (take (bsize ci) d), drop (bsize ci) d) r ->
    drains ci (X, d) r.

(** ** Reachable states *)

(** States of the append-based engine reached from construction by [Write],
    [Sum] and [Reset], with the message accumulated since construction or
    the last [Reset]. *)
Inductive reachable (ci : Block) : list byte -> Append.cmac -> Prop :=
| reach_new m :
    res (Append.NewWithCipher ci) = Ret (Some m, None) ->
    reachable ci [] m
| reach_Write msg m b m' r :
    reachable ci msg m ->
    res (Append.Write m b) = Ret (m', r) ->
    reachable ci (msg ++ b) m'
| reach_Sum msg m b m' out :
    reachable ci msg m ->
    res (Append.Sum m b) = Ret (m', out) ->
    reachable ci msg m'
| reach_Reset msg m m' :
    reachable ci msg m ->
    res (Append.Reset m) = Ret m' ->
    reachable ci [] m'.

(** * Auxiliary definitions of the proofs *)

(** The state of the loop of [shifted] after the byte [a] has been shifted
    and before the bytes [r] that follow it are visited. *)
Fixpoint shl_from (a : byte) (r : list byte) : list byte :=
  match r with
  | [] => [bshl a 1]
  | b :: r' => bor (bshl a 1) (bshr b 7) :: shl_from b r'
  end.

(** The drain loop as a function on the fields [x], [tmp] and the pending
    bytes, with the fuel of [Write_loop]. *)
Fixpoint absorb (ci : Block) (fuel : nat) (s : list byte * list byte * list byte)
  : list byte * list byte * list byte :=
  let '(X, t, d) := s in
  if decide (bsize ci < length d)%nat then
    match fuel with
    | O => s
    | S fuel' =>
        let blk := take (bsize ci) d in
        absorb ci fuel' (chain ci X blk, xor_bytes X blk, drop (bsize ci) d)
    end
  else s.

Definition absorbed (ci : Block) (s : list byte * list byte * list byte) :=
  absorb ci (length (s.2)) s.

(** Well-formed states of the append-based engine. *)
Record wf (m : Append.cmac) : Prop := {
  wf_bs : BlockSize (Append.c m) = 8 \/ BlockSize (Append.c m) = 16;
  wf_k1 : length (Append.k1 m) = bsize (Append.c m);
  wf_k2 : length (Append.k2 m) = bsize (Append.c m);
  wf_x : length (Append.x m) = bsize (Append.c m);
  wf_tmp : length (Append.tmp m) = bsize (Append.c m);
  wf_buf : (length (Append.buf m) <= bsize (Append.c m))%nat
}.

(** The engine just after construction. *)
Definition fresh (ci : Block) : Append.cmac :=
  {| Append.c := ci; Append.k1 := subkey_K1 ci; Append.k2 := subkey_K2 ci;
     Append.buf := []; Append.x := zero_block ci; Append.tmp := zero_block ci |}.

(** The engine after [Write] has run on pending bytes [d]. *)
Definition written (m : Append.cmac) (d : list byte) : Append.cmac :=
  let s := absorbed (Append.c m) (Append.x m, Append.tmp m, d) in
  {| Append.c := Append.c m; Append.k1 := Append.k1 m; Append.k2 := Append.k2 m;
     Append.buf := s.2; Append.x := s.1.1; Append.tmp := s.1.2 |}.

(** The invariant of reachable states: the pending bytes are a suffix of the
    accumulated message, empty only with it, and of its length modulo the
    block size. *)
Record inv (ci : Block) (msg : list byte) (m : Append.cmac) : Prop := {
  inv_wf : wf m;
  inv_c : Append.c m = ci;
  inv_k1 : Append.k1 m = subkey_K1 ci;
  inv_k2 : Append.k2 m = subkey_K2 ci;
  inv_suffix : exists p, msg = p ++ Append.buf m;
  inv_empty : msg = [] <-> Append.buf m = [];
  inv_mod : (length (Append.buf m) mod bsize ci = length msg mod bsize ci)%nat
}.

(** Well-formed states of the cursor-based engine. *)
Record wfC (m : Cursor.cmac) : Prop := {
  wfC_bs : BlockSize (Cursor.c m) = 8 \/ BlockSize (Cursor.c m) = 16;
  wfC_k1 : length (Cursor.k1 m) = bsize (Cursor.c m);
  wfC_k2 : length (Cursor.k2 m) = bsize (Cursor.c m);
  wfC_x : length (Cursor.x m) = bsize (Cursor.c m);
  wfC_buf : length (Cursor.buf m) = bsize (Cursor.c m);
  wfC_cursor : (Cursor.cursor m <= bsize (Cursor.c m))%nat
}.

(** The append-based state a cursor-based state stands for: the pending
    bytes are the first [cursor] bytes of the fixed buffer.  The scratch
    block [tmp] has no counterpart and is supplied. *)
Definition abstraction (t : list byte) (m : Cursor.cmac) : Append.cmac :=
  {| Append.c := Cursor.c m; Append.k1 := Cursor.k1 m; Append.k2 := Cursor.k2 m;
     Append.buf := take (Cursor.cursor m) (Cursor.buf m);
     Append.x := Cursor.x m; Append.tmp := t |}.

(** The cursor-based engine just after construction. *)
Definition freshC (ci : Block) : Cursor.cmac :=
  {| Cursor.c := ci; Cursor.k1 := subkey_K1 ci; Cursor.k2 := subkey_K2 ci;
     Cursor.buf := zero_block ci; Cursor.x := zero_block ci; Cursor.cursor := 0 |}.

(** * Further specifications *)

(** ** CMAC as a function of the message (RFC 4493, section 2.4) *)

(** CBC chaining over the first [k] blocks of [p]. *)
Fixpoint cbc (ci : Block) (k : nat) (X p : list byte) : list byte :=
  match k with
  | O => X
  | S k' => cbc ci k' (chain ci X (take (bsize ci) p)) (drop (bsize ci) p)
  end.

(** The number of blocks before the last one: [ceil(len / n) - 1], and zero
    for the empty message. *)
Definition blocks_before_last (n : nat) (msg : list byte) : nat :=
  ((length msg - 1) / n)%nat.

(** The MAC of a message: chain all blocks but the last from the zero
    block, then finalize the last (complete or not, possibly empty). *)
Definition cmac_of (ci : Block) (msg : list byte) : list byte :=
  let q := blocks_before_last (bsize ci) msg in
  final_tag ci (subkey_K1 ci) (subkey_K2 ci)
    (drop (q * bsize ci) msg) (cbc ci q (zero_block ci) msg).

(** The source blocks that the drain loop hands to the cipher, in order. *)
Fixpoint absorb_calls (ci : Block) (fuel : nat) (X d : list byte) : list (list byte) :=
  if decide (bsize ci < length d)%nat then
    match fuel with
    | O => []
    | S fuel' =>
        let blk := take (bsize ci) d in
        xor_bytes X blk :: absorb_calls ci fuel' (chain ci X blk) (drop (bsize ci) d)
    end
  else [].

(** ** Reusing one engine for several messages *)

(** The loop of the package's tests: for each message [Write] it, take the
    tag with [Sum(nil)], and [Reset] the engine for the next one. *)
Fixpoint mac_each {T} `{Hash T} (m : T) (msgs : list (list byte))
  : M (T * list (list byte)) :=
  match msgs with
  | [] => ret (m, [])
  | msg :: rest =>
      r <- hash_Write m msg ;;
      s <- hash_Sum (fst r) [] ;;
      m' <- hash_Reset (fst s) ;;
      rs <- mac_each m' rest ;;
      ret (fst rs, snd s :: snd rs)
  end.

(** ** Writing a message in chunks of growing size *)

(** The loop of [TestChunkedWrites]: chunks of 0, 1, 2, ... zero bytes, the
    last one cut to what is left of [total]; [n] counts the bytes written.
    Every iteration but the first writes at least one byte, so [total + 1]
    iterations are enough. *)
Fixpoint chunked_loop {T} `{Hash T} (fuel : nat) (total : Z) (h : T) (n c : Z) : M T :=
  if decide (n < total) then
    match fuel with
    | O => diverge
    | S fuel' =>
        let c := if decide (n + c > total) then total - n else c in
        chunk <- make c ;;
        r <- hash_Write h chunk ;;
        chunked_loop fuel' total (fst r) (n + len chunk) (c + 1)
    end
  else ret h.

Definition chunked_writes {T} `{Hash T} (h : T) (total : Z) : M (list byte) :=
  h <- chunked_loop (Z.to_nat total + 1) total h 0 0 ;;
  r <- hash_Sum h [] ;;
  ret (snd r).

(** ** States to run the cursor-based engine from *)

(** The cursor-based engine on the demonstration cipher after a [Write] of
    ten bytes. *)
Definition demo_cursor_state : Cursor.cmac :=
  match res (Cursor.Write
               {| Cursor.c := demo_cipher 8;
                  Cursor.k1 := subkey_K1 (demo_cipher 8);
                  Cursor.k2 := subkey_K2 (demo_cipher 8);
                  Cursor.buf := zero_block (demo_cipher 8);
                  Cursor.x := zero_block (demo_cipher 8); Cursor.cursor := 0 |}
               (bytes_of [1; 2; 3; 4; 5; 6; 7; 8; 9; 10])) with
  | Ret r => fst r
  | _ => {| Cursor.c := demo_cipher 8; Cursor.k1 := []; Cursor.k2 := [];
            Cursor.buf := []; Cursor.x := []; Cursor.cursor := 0 |}
  end.

(** ** Reachable states of the cursor-based engine *)

(** States of the cursor-based engine reached from construction by [Write],
    [Sum] and [Reset], with the message accumulated since construction or
    the last [Reset]. *)
Inductive reachableC (ci : Block) : list byte -> Cursor.cmac -> Prop :=
| reachC_new m :
    res (Cursor.NewWithCipher ci) = Ret (Some m, None) ->
    reachableC ci [] m
| reachC_Write msg m b m' r :
    reachableC ci msg m ->
    res (Cursor.Write m b) = Ret (m', r) ->
    reachableC ci (msg ++ b) m'
| reachC_Sum msg m b m' out :
    reachableC ci msg m ->
    res (Cursor.Sum m b) = Ret (m', out) ->
    reachableC ci msg m'
| reachC_Reset msg m m' :
    reachableC ci msg m ->
    res (Cursor.Reset m) = Ret m' ->
    reachableC ci [] m'.

(** ** Reachable states of the revision that finalizes in the scratch block *)

(** As [reachable], with the [Sum] of that revision. *)
Inductive reachableS (ci : Block) : list byte -> Append.cmac -> Prop :=
| reachS_new m :
    res (Append.NewWithCipher ci) = Ret (Some m, None) ->
    reachableS ci [] m
| reachS_Write msg m b m' r :
    reachableS ci msg m ->
    res (Append.Write m b) = Ret (m', r) ->
    reachableS ci (msg ++ b) m'
| reachS_Sum msg m b m' out :
    reachableS ci msg m ->
    res (Scratch.Sum m b) = Ret (m', out) ->
    reachableS ci msg m'
| reachS_Reset msg m m' :
    reachableS ci msg m ->
    res (Append.Reset m) = Ret m' ->
    reachableS ci [] m'.

(** ** The early revision next to [cmac.go] *)

(** The state of [cmac.go] that a state of the early revision stands for,
    with a scratch block supplied. *)
Definition lift (t : list byte) (m : Early.cmac) : Append.cmac :=
  {| Append.c := Early.c m; Append.k1 := Early.k1 m; Append.k2 := Early.k2 m;
     Append.buf := Early.buf m; Append.x := Early.x m; Append.tmp := t |}.

(** The early engine just after construction: subkeys by doubling with
    [0x87], whatever the block size. *)
Definition freshE (ci : Block) : Early.cmac :=
  {| Early.c := ci;
     Early.k1 := double Byte.x87 (subkey_L ci);
     Early.k2 := double Byte.x87 (double Byte.x87 (subkey_L ci));
     Early.x := zero_block ci; Early.buf := [] |}.

(** * Reasoning about the monad, slices and loops *)

Section MonadLaws.
Context {A B : Type}.

Lemma bind_ret_l (a : A) (f : A -> M B) : bind (ret a) f = f a.
Proof. unfold bind, ret. destruct (f a). reflexivity. Qed.

Lemma bind_panic (msg : string) (f : A -> M B) : bind (panic msg) f = panic msg.
Proof. reflexivity. Qed.

Lemma res_bind (m : M A) (f : A -> M B) :
  res (bind m f) =
  match res m with
  | Ret a => res (f a)
  | Panic msg => Panic msg
  | OutOfFuel => OutOfFuel
  end.
Proof. destruct m as [[a | msg |] t]; simpl; try reflexivity. destruct (f a); reflexivity. Qed.

Lemma bind_Ret (m : M A) (f : A -> M B) a t :
  m = (Ret a, t) -> bind m f = (res (f a), t ++ calls (f a)).
Proof. intros ->. simpl. destruct (f a); reflexivity. Qed.
End MonadLaws.

Lemma for_loop_S {St} lo n (body : nat -> St -> M St) s :
  for_loop lo (S n) body s = bind (body lo s) (for_loop (S lo) n body).
Proof. reflexivity. Qed.

Lemma bind_ret_r {A} (m : M A) : bind m ret = m.
Proof. destruct m as [[a | msg |] t]; simpl; rewrite ?app_nil_r; reflexivity. Qed.

Lemma index_Some (s : list byte) i b : s !! i = Some b -> index s i = ret b.
Proof. unfold index. intros ->. reflexivity. Qed.

Lemma index_mid (Q : list byte) r Z i : length Q = i -> index (Q ++ r :: Z) i = ret r.
Proof. intros <-. apply index_Some, list_lookup_middle. reflexivity. Qed.

Lemma store_mid (Q : list byte) r Z i v :
  length Q = i -> store (Q ++ r :: Z) i v = ret (Q ++ v :: Z).
Proof.
  intros <-. unfold store. rewrite decide_True.
  - rewrite insert_app_r_alt, Nat.sub_diag by lia. reflexivity.
  - rewrite length_app. simpl. lia.
Qed.

Lemma make_nonneg n : 0 <= n -> make n = ret (replicate (Z.to_nat n) Byte.x00).
Proof. intros H. unfold make. rewrite decide_False by lia. reflexivity. Qed.

Lemma copy_short (dst src : list byte) :
  (length src <= length dst)%nat -> fst (copy dst src) = src ++ drop (length src) dst.
Proof. intros H. unfold copy. simpl. rewrite take_ge by lia. reflexivity. Qed.

Lemma copy_same_length (dst src : list byte) :
  length src = length dst -> fst (copy dst src) = src.
Proof.
  intros H. rewrite copy_short by lia. rewrite drop_ge by lia. apply app_nil_r.
Qed.

Lemma copy_length (dst src : list byte) : length (fst (copy dst src)) = length dst.
Proof. unfold copy. simpl. rewrite length_app, length_take, length_drop. lia. Qed.

(** A loop that overwrites the cells [lo .. lo + length R) one by one, leaving
    the prefix [P] and the suffix [T] alone, ends with the written values. *)
Lemma for_loop_writes (body : nat -> list byte -> M (list byte)) :
  forall (R vals P T : list byte),
    length vals = length R ->
    (forall j r v, R !! j = Some r -> vals !! j = Some v ->
       body (length P + j)%nat (P ++ take j vals ++ drop j R ++ T)
       = ret (P ++ take (S j) vals ++ drop (S j) R ++ T)) ->
    for_loop (length P) (length R) body (P ++ R ++ T) = ret (P ++ vals ++ T).
Proof.
  induction R as [| r R IH]; intros vals P T Hlen Hbody.
  - destruct vals; [reflexivity | discriminate].
  - destruct vals as [| v vals]; [discriminate |].
    simpl for_loop.
    pose proof (Hbody 0%nat r v eq_refl eq_refl) as H0.
    rewrite Nat.add_0_r in H0. simpl in H0. rewrite drop_0 in H0.
    rewrite H0, bind_ret_l.
    replace (S (length P)) with (length (P ++ [v])) by (rewrite length_app; simpl; lia).
    replace (P ++ v :: R ++ T) with ((P ++ [v]) ++ R ++ T) by (rewrite <- app_assoc; reflexivity).
    rewrite (IH vals (P ++ [v]) T).
    + rewrite <- app_assoc. reflexivity.
    + simpl in Hlen. lia.
    + intros j r' v' Hr Hv.
      specialize (Hbody (S j) r' v' Hr Hv).
      rewrite length_app. simpl length.
      replace (length P + 1 + j)%nat with (length P + S j)%nat by lia.
      rewrite <- !app_assoc. simpl. simpl in Hbody. exact Hbody.
Qed.

Lemma length_xor_bytes a b : length a = length b -> length (xor_bytes a b) = length a.
Proof. intros H. unfold xor_bytes. rewrite length_zip_with. lia. Qed.

Lemma for_range_xor_from (A B t : list byte) :
  length A = length t -> length B = length t ->
  for_range (length t) (fun i t =>
    a <- index A i ;; b <- index B i ;; store t i (bxor a b)) t
  = ret (xor_bytes A B).
Proof.
  intros HA HB. unfold for_range.
  pose proof (for_loop_writes
    (fun i t => a <- index A i ;; b <- index B i ;; store t i (bxor a b))
    t (xor_bytes A B) [] []) as H.
  simpl in H. rewrite !app_nil_r in H. apply H; clear H.
  - rewrite length_xor_bytes; lia.
  - intros j r v Hr Hv. rewrite !app_nil_r.
    unfold xor_bytes in *. apply lookup_zip_with_Some in Hv as (a & b & -> & Ha & Hb).
    rewrite (index_Some _ _ _ Ha), bind_ret_l, (index_Some _ _ _ Hb), bind_ret_l.
    rewrite (drop_S _ _ _ Hr).
    rewrite store_mid.
    + erewrite take_S_r by (apply lookup_zip_with_Some; eauto).
      rewrite <- app_assoc. reflexivity.
    + rewrite length_take, length_zip_with.
      apply lookup_lt_Some in Ha, Hb. lia.
Qed.

Lemma for_range_xor_inplace (B t : list byte) :
  length B = length t ->
  for_range (length t) (fun i t =>
    a <- index t i ;; b <- index B i ;; store t i (bxor a b)) t
  = ret (xor_bytes t B).
Proof.
  intros HB. unfold for_range.
  pose proof (for_loop_writes
    (fun i t => a <- index t i ;; b <- index B i ;; store t i (bxor a b))
    t (xor_bytes t B) [] []) as H.
  simpl in H. rewrite !app_nil_r in H. apply H; clear H.
  - rewrite length_xor_bytes; lia.
  - intros j r v Hr Hv. rewrite !app_nil_r.
    unfold xor_bytes in *. apply lookup_zip_with_Some in Hv as (a & b & -> & Ha & Hb).
    assert (a = r) as -> by congruence.
    assert (Hj : length (take j (zip_with bxor t B)) = j).
    { rewrite length_take, length_zip_with. apply lookup_lt_Some in Ha, Hb. lia. }
    rewrite (drop_S _ _ _ Hr).
    rewrite index_mid, bind_ret_l by exact Hj.
    rewrite (index_Some _ _ _ Hb), bind_ret_l.
    rewrite store_mid by exact Hj.
    erewrite take_S_r by (apply lookup_zip_with_Some; eauto).
    rewrite <- app_assoc. reflexivity.
Qed.

(** * Subkey derivation: what the code computes *)

Section ByteFacts.
Lemma byte_of_to_Z b : byte_of_Z (byte_to_Z b) = b.
Proof. destruct b; reflexivity. Qed.

Lemma byte_to_Z_range b : 0 <= byte_to_Z b < 256.
Proof.
  unfold byte_to_Z. pose proof (Byte.to_N_bounded b). lia.
Qed.

Lemma byte_to_of_Z z : byte_to_Z (byte_of_Z z) = z mod 256.
Proof.
  unfold byte_of_Z, byte_to_Z.
  assert (Hr : 0 <= z mod 256 < 256) by (apply Z.mod_pos_bound; lia).
  destruct (Byte.of_N (Z.to_N (z mod 256))) as [b |] eqn:E.
  - apply Byte.to_of_N in E. rewrite E. lia.
  - apply Byte.of_N_None_iff in E. lia.
Qed.

Lemma bor_x00_r b : bor b Byte.x00 = b.
Proof.
  unfold bor. change (byte_to_Z Byte.x00) with 0.
  rewrite Z.lor_0_r. apply byte_of_to_Z.
Qed.

Lemma bxor_x00_r b : bxor b Byte.x00 = b.
Proof.
  unfold bxor. change (byte_to_Z Byte.x00) with 0.
  rewrite Z.lxor_0_r. apply byte_of_to_Z.
Qed.

Lemma bxor_x00_l b : bxor Byte.x00 b = b.
Proof.
  unfold bxor. change (byte_to_Z Byte.x00) with 0.
  rewrite Z.lxor_0_l. apply byte_of_to_Z.
Qed.

Lemma bshr_7_bit a :
  byte_to_Z (bshr a 7) = if Z.testbit (byte_to_Z a) 7 then 1 else 0.
Proof. destruct a; reflexivity. Qed.

(** The constant-time selection picks [rb] exactly on a set high bit. *)
Lemma select_high_bit a rb :
  byte_of_Z (ConstantTimeSelect (byte_to_Z (bshr a 7)) (byte_to_Z rb) 0)
  = if Z.testbit (byte_to_Z a) 7 then rb else Byte.x00.
Proof.
  rewrite bshr_7_bit. unfold ConstantTimeSelect.
  destruct (Z.testbit (byte_to_Z a) 7).
  - change (1 - 1) with 0. change (Z.lnot 0) with (-1).
    rewrite Z.land_m1_l, Z.land_0_l, Z.lor_0_r. apply byte_of_to_Z.
  - change (0 - 1) with (-1). change (Z.lnot (-1)) with 0.
    rewrite Z.land_0_l, Z.land_0_r. reflexivity.
Qed.
End ByteFacts.

Lemma shift_left_1_cons a r : shift_left_1 (a :: r) = shl_from a r.
Proof.
  revert a. induction r as [| b r IH]; intros a.
  - unfold shift_left_1. simpl.
    change (bshr Byte.x00 7) with Byte.x00. rewrite bor_x00_r. reflexivity.
  - specialize (IH b). unfold shift_left_1 in *. simpl in *.
    rewrite drop_0 in IH. rewrite IH. reflexivity.
Qed.

Lemma length_shl_from a r : length (shl_from a r) = S (length r).
Proof. revert a. induction r as [| b r IH]; intros a; simpl; [| rewrite IH]; reflexivity. Qed.

Lemma length_shift_left_1 v : length (shift_left_1 v) = length v.
Proof. destruct v as [| a r]; [reflexivity |]. rewrite shift_left_1_cons. apply length_shl_from. Qed.

Lemma length_xor_last s rb : length (xor_last s rb) = length s.
Proof.
  unfold xor_last. rewrite length_app, length_map, length_take, length_drop. lia.
Qed.

Lemma length_double rb v : length (double rb v) = length v.
Proof.
  unfold double. destruct (msb v); rewrite ?length_xor_last; apply length_shift_left_1.
Qed.

Lemma shifted_loop_from :
  forall (r P : list byte) (a : byte),
    for_loop (S (length P)) (length r) shifted_body (P ++ bshl a 1 :: r)
    = ret (P ++ shl_from a r).
Proof.
  induction r as [| b r IH]; intros P a.
  - reflexivity.
  - simpl length. rewrite for_loop_S. unfold shifted_body at 1.
    rewrite decide_True by lia.
    replace (P ++ bshl a 1 :: b :: r) with ((P ++ [bshl a 1]) ++ b :: r)
      by (rewrite <- app_assoc; reflexivity).
    rewrite index_mid, bind_ret_l by (rewrite length_app; simpl; lia).
    rewrite <- app_assoc. simpl app.
    replace (S (length P) - 1)%nat with (length P) by lia.
    rewrite index_mid, bind_ret_l by reflexivity.
    rewrite store_mid, bind_ret_l by reflexivity.
    set (g := bor (bshl a 1) (bshr b 7)).
    replace (P ++ g :: b :: r) with ((P ++ [g]) ++ b :: r)
      by (rewrite <- app_assoc; reflexivity).
    rewrite index_mid, bind_ret_l by (rewrite length_app; simpl; lia).
    rewrite store_mid, bind_ret_l by (rewrite length_app; simpl; lia).
    replace (S (length P)) with (length (P ++ [g])) by (rewrite length_app; simpl; lia).
    rewrite IH. rewrite <- app_assoc. reflexivity.
Qed.

(** [shifted] never panics and returns the one-bit left shift. *)
Lemma shifted_spec (v : list byte) : shifted v = ret (shift_left_1 v).
Proof.
  unfold shifted, len. rewrite make_nonneg, bind_ret_l by lia.
  rewrite Nat2Z.id.
  rewrite copy_same_length by (rewrite length_replicate; reflexivity).
  fold shifted_body. unfold for_range.
  destruct v as [| a r]; [reflexivity |].
  simpl length. rewrite for_loop_S. unfold shifted_body at 1.
  rewrite decide_False by lia. rewrite bind_ret_l.
  change (index (a :: r) 0) with (ret (A:=byte) a). rewrite bind_ret_l.
  change (store (a :: r) 0 (bshl a 1)) with (ret (bshl a 1 :: r)). rewrite bind_ret_l.
  rewrite shift_left_1_cons.
  exact (shifted_loop_from r [] a).
Qed.

Lemma gensubkey_spec (ci : Block) (l : list byte) (rb : byte) :
  l <> [] -> gensubkey ci l rb = ret (double rb l).
Proof.
  intros Hne. unfold gensubkey. rewrite shifted_spec, bind_ret_l.
  destruct l as [| a r]; [congruence |].
  change (index (a :: r) 0) with (ret (A:=byte) a). rewrite bind_ret_l.
  rewrite select_high_bit. unfold double, msb.
  set (s := shift_left_1 (a :: r)).
  assert (Hs : exists Q z, s = Q ++ [z]).
  { destruct (exists_last (l:=s)) as (Q & z & E); [| eauto].
    subst s. rewrite shift_left_1_cons. destruct r; discriminate. }
  destruct Hs as (Q & z & Es). rewrite Es.
  assert (HQ : (length (Q ++ [z]) - 1)%nat = length Q)
    by (rewrite length_app; simpl; lia).
  unfold xor_last. rewrite HQ.
  rewrite index_mid, bind_ret_l by reflexivity.
  rewrite store_mid by reflexivity.
  rewrite take_app_length, drop_app_length. simpl map.
  destruct (Z.testbit (byte_to_Z a) 7); [reflexivity |].
  rewrite bxor_x00_r. reflexivity.
Qed.

Lemma length_zero_block ci : length (zero_block ci) = Z.to_nat (BlockSize ci).
Proof. apply length_replicate. Qed.

Lemma length_subkey_L ci : length (subkey_L ci) = Z.to_nat (BlockSize ci).
Proof. unfold subkey_L, encrypted. rewrite copy_length. apply length_zero_block. Qed.

Lemma length_subkey_K1 ci : length (subkey_K1 ci) = Z.to_nat (BlockSize ci).
Proof. unfold subkey_K1. rewrite length_double. apply length_subkey_L. Qed.

Lemma length_subkey_K2 ci : length (subkey_K2 ci) = Z.to_nat (BlockSize ci).
Proof. unfold subkey_K2. rewrite length_double. apply length_subkey_K1. Qed.

Lemma nonempty_of_length (l : list byte) n : length l = n -> (0 < n)%nat -> l <> [].
Proof. intros H Hn ->. simpl in H. lia. Qed.

Lemma gensubkeys_spec (ci : Block) :
  BlockSize ci = 8 \/ BlockSize ci = 16 ->
  gensubkeys ci = (Ret (subkey_K1 ci, subkey_K2 ci), [zero_block ci]).
Proof.
  intros Hbs. unfold gensubkeys.
  assert (Hrb : (if decide (BlockSize ci = 16) then ret _Rb128
                 else if decide (BlockSize ci = 8) then ret _Rb64
                 else panic "cmac: invalid block size")
                = ret (Rb (BlockSize ci))).
  { unfold Rb. destruct Hbs as [E | E]; rewrite E; reflexivity. }
  rewrite Hrb, bind_ret_l.
  rewrite make_nonneg, bind_ret_l by lia.
  fold (zero_block ci).
  assert (Hpos : (0 < Z.to_nat (BlockSize ci))%nat) by lia.
  unfold Encrypt.
  change (fst (copy (zero_block ci) (cipher_fn ci (zero_block ci)))) with (subkey_L ci).
  erewrite bind_Ret by reflexivity.
  rewrite gensubkey_spec, bind_ret_l
    by (eapply nonempty_of_length; [apply length_subkey_L | exact Hpos]).
  fold (subkey_K1 ci).
  rewrite gensubkey_spec, bind_ret_l
    by (eapply nonempty_of_length; [apply length_subkey_K1 | exact Hpos]).
  reflexivity.
Qed.

(** * The append-based engine: what the code computes *)

Lemma length_encrypted ci dst src : length (encrypted ci dst src) = length dst.
Proof. apply copy_length. Qed.

Lemma length_chain ci X blk : length (chain ci X blk) = length X.
Proof. apply length_encrypted. Qed.

Lemma block_spec (m : Append.cmac) (b : list byte) :
  length (Append.x m) = length (Append.tmp m) ->
  length b = length (Append.tmp m) ->
  Append.block m b
  = (Ret {| Append.c := Append.c m; Append.k1 := Append.k1 m; Append.k2 := Append.k2 m;
            Append.buf := Append.buf m;
            Append.x := chain (Append.c m) (Append.x m) b;
            Append.tmp := xor_bytes (Append.x m) b |},
     [xor_bytes (Append.x m) b]).
Proof.
  intros Hx Hb. unfold Append.block.
  rewrite for_range_xor_from, bind_ret_l by lia.
  reflexivity.
Qed.

Lemma Write_loop_spec (ci : Block) :
  (0 < bsize ci)%nat ->
  forall fuel K1 K2 pending X t d,
    length X = bsize ci -> length t = bsize ci -> (length d <= fuel)%nat ->
    exists tr,
      Append.Write_loop fuel
        {| Append.c := ci; Append.k1 := K1; Append.k2 := K2;
           Append.buf := pending; Append.x := X; Append.tmp := t |} d
      = (Ret ({| Append.c := ci; Append.k1 := K1; Append.k2 := K2;
                 Append.buf := pending;
                 Append.x := (absorb ci fuel (X, t, d)).1.1;
                 Append.tmp := (absorb ci fuel (X, t, d)).1.2 |},
              (absorb ci fuel (X, t, d)).2), tr).
Proof.
  intros Hpos.
  induction fuel as [| fuel IH]; intros K1 K2 pending X t d HX Ht Hd.
  - destruct d; [| simpl in Hd; lia].
    exists []. cbn [Append.Write_loop absorb Append.c].
    rewrite decide_False by (unfold len, bsize in *; simpl; lia).
    rewrite decide_False by (simpl; lia). reflexivity.
  - cbn [Append.Write_loop absorb Append.c].
    destruct (decide (bsize ci < length d)%nat) as [Hgt | Hle].
    + rewrite decide_True by (unfold len, bsize in *; lia).
      unfold slice_to, slice_from.
      rewrite !decide_True by (unfold len, bsize in *; lia).
      fold (bsize ci).
      rewrite bind_ret_l.
      rewrite block_spec
        by (cbn [Append.x Append.tmp]; rewrite ?length_take; lia).
      cbn [Append.c Append.k1 Append.k2 Append.buf Append.x Append.tmp].
      destruct (IH K1 K2 pending (chain ci X (take (bsize ci) d))
                  (xor_bytes X (take (bsize ci) d))
                  (drop (bsize ci) d)) as [tr Htr].
      * rewrite length_chain. exact HX.
      * rewrite length_xor_bytes; rewrite ?length_take; lia.
      * rewrite length_drop. lia.
      * exists (xor_bytes X (take (bsize ci) d) :: tr).
        erewrite bind_Ret by reflexivity.
        rewrite bind_ret_l. rewrite Htr. reflexivity.
    + rewrite decide_False by (unfold len, bsize in *; lia).
      exists []. reflexivity.
Qed.

Lemma Write_spec (m : Append.cmac) (b : list byte) :
  wf m ->
  exists tr,
    Append.Write m b = (Ret (written m (Append.buf m ++ b), (len b, None)), tr).
Proof.
  intros [Hbs _ _ Hx Ht _]. destruct m as [ci K1 K2 pending X t].
  cbn [Append.c Append.x Append.tmp Append.buf] in *.
  assert (Hpos : (0 < bsize ci)%nat) by (unfold bsize; lia).
  destruct (Write_loop_spec ci Hpos (length (pending ++ b)) K1 K2 pending X t (pending ++ b))
    as [tr Htr]; [assumption | assumption | lia |].
  exists tr. unfold Append.Write. cbn [Append.buf].
  erewrite bind_Ret by exact Htr.
  cbn [res calls ret fst snd]. rewrite app_nil_r. reflexivity.
Qed.

Lemma length_pad n b : (length b < n)%nat -> length (pad n b) = n.
Proof. intros H. unfold pad. rewrite length_app. simpl. rewrite length_replicate. lia. Qed.

Lemma length_final_block n K1 K2 pending :
  length K1 = n -> length K2 = n -> (length pending <= n)%nat ->
  length (final_block n K1 K2 pending) = n.
Proof.
  intros H1 H2 Hp. unfold final_block. destruct (decide (length pending = n)).
  - rewrite length_xor_bytes; lia.
  - rewrite length_xor_bytes; rewrite length_pad; lia.
Qed.

(** Under [wf], the guard of [Sum] is true exactly on a full pending block. *)
Lemma Sum_guard (m : Append.cmac) :
  wf m ->
  (if decide (len (Append.buf m) > 0) then
     r <- go_rem (len (Append.buf m)) (BlockSize (Append.c m)) ;;
     ret (bool_decide (r = 0))
   else ret false)
  = ret (bool_decide (length (Append.buf m) = bsize (Append.c m))).
Proof.
  intros [Hbs _ _ _ _ Hb]. unfold len, bsize in *.
  set (bs := BlockSize (Append.c m)) in *.
  set (lb := length (Append.buf m)) in *.
  destruct (decide (Z.of_nat lb > 0)) as [Hgt | Hle].
  - unfold go_rem. rewrite decide_False by lia. rewrite bind_ret_l.
    f_equal. rewrite Z.rem_mod_nonneg by lia.
    destruct (decide (lb = Z.to_nat bs)) as [E | NE].
    + rewrite !bool_decide_eq_true_2; [reflexivity | exact E |].
      rewrite E, Z2Nat.id by lia. apply Z_mod_same_full.
    + rewrite !bool_decide_eq_false_2; [reflexivity | exact NE |].
      rewrite Z.mod_small by lia. lia.
  - f_equal. rewrite bool_decide_eq_false_2; [reflexivity | lia].
Qed.

(** [Sum] returns the tag of the finalization rule, makes one cipher call
    and hands back the engine as it was. *)
Lemma Sum_spec (m : Append.cmac) (b : list byte) :
  wf m ->
  Append.Sum m b
  = (Ret (m, b ++ final_tag (Append.c m) (Append.k1 m) (Append.k2 m) (Append.buf m) (Append.x m)),
     [xor_bytes (final_block (bsize (Append.c m)) (Append.k1 m) (Append.k2 m) (Append.buf m))
                (Append.x m)]).
Proof.
  intros Hwf. pose proof Hwf as [Hbs Hk1 Hk2 Hx Ht Hb].
  unfold Append.Sum. rewrite make_nonneg, bind_ret_l by lia.
  rewrite (Sum_guard m Hwf), bind_ret_l.
  fold (bsize (Append.c m)). set (n := bsize (Append.c m)) in *.
  assert (Hz : length (replicate n Byte.x00) = n) by apply length_replicate.
  unfold final_tag, final_block. fold n.
  destruct (decide (length (Append.buf m) = n)) as [E | NE].
  - rewrite bool_decide_eq_true_2 by exact E.
    rewrite for_range_xor_from, bind_ret_l by lia.
    rewrite for_range_xor_inplace, bind_ret_l by (rewrite length_xor_bytes; lia).
    reflexivity.
  - rewrite bool_decide_eq_false_2 by exact NE.
    rewrite copy_short by lia.
    rewrite drop_replicate.
    replace (n - length (Append.buf m))%nat with (S (n - length (Append.buf m) - 1)) by lia.
    cbn [replicate].
    rewrite store_mid, bind_ret_l by reflexivity.
    fold (pad n (Append.buf m)).
    rewrite for_range_xor_inplace, bind_ret_l by (rewrite length_pad; lia).
    rewrite for_range_xor_inplace, bind_ret_l
      by (rewrite length_xor_bytes; rewrite length_pad; lia).
    reflexivity.
Qed.

Lemma Reset_spec (m : Append.cmac) :
  0 <= BlockSize (Append.c m) ->
  Append.Reset m
  = ret {| Append.c := Append.c m; Append.k1 := Append.k1 m; Append.k2 := Append.k2 m;
           Append.buf := []; Append.x := zero_block (Append.c m);
           Append.tmp := Append.tmp m |}.
Proof.
  intros H. unfold Append.Reset. cbn [Append.set_buf Append.c].
  rewrite make_nonneg, bind_ret_l by exact H. reflexivity.
Qed.

Lemma newcmac_spec (ci : Block) :
  BlockSize ci = 8 \/ BlockSize ci = 16 ->
  Append.newcmac ci = (Ret (fresh ci), [zero_block ci]).
Proof.
  intros Hbs. unfold Append.newcmac.
  erewrite bind_Ret by (apply gensubkeys_spec; exact Hbs).
  rewrite make_nonneg, bind_ret_l by lia.
  rewrite Reset_spec by (cbn [Append.c]; lia).
  cbn. reflexivity.
Qed.

Lemma NewWithCipher_ok (ci : Block) :
  BlockSize ci = 8 \/ BlockSize ci = 16 ->
  Append.NewWithCipher ci = (Ret (Some (fresh ci), None), [zero_block ci]).
Proof.
  intros Hbs. unfold Append.NewWithCipher. rewrite decide_True by exact Hbs.
  erewrite bind_Ret by (apply newcmac_spec; exact Hbs). reflexivity.
Qed.

Lemma NewWithCipher_invalid (ci : Block) :
  ~ (BlockSize ci = 8 \/ BlockSize ci = 16) ->
  Append.NewWithCipher ci = (Ret (None, Some (errors_New "cmac: invalid blocksize")), []).
Proof.
  intros Hbs. unfold Append.NewWithCipher. rewrite decide_False by exact Hbs. reflexivity.
Qed.

(** ** The drain loop *)

Section Absorb.
Variable ci : Block.
Hypothesis Hpos : (0 < bsize ci)%nat.

Lemma absorb_stop fuel X t d :
  (length d <= bsize ci)%nat -> absorb ci fuel (X, t, d) = (X, t, d).
Proof.
  intros H. destruct fuel; cbn [absorb]; rewrite decide_False by lia; reflexivity.
Qed.

Lemma absorb_step fuel X t d :
  (bsize ci < length d)%nat ->
  absorb ci (S fuel) (X, t, d)
  = absorb ci fuel (chain ci X (take (bsize ci) d),
                    xor_bytes X (take (bsize ci) d), drop (bsize ci) d).
Proof. intros H. cbn [absorb]. rewrite decide_True by lia. reflexivity. Qed.

(** Fuel beyond the number of pending bytes changes nothing. *)
Lemma absorb_fuel f1 :
  forall f2 X t d,
    (length d <= f1)%nat -> (length d <= f2)%nat ->
    absorb ci f1 (X, t, d) = absorb ci f2 (X, t, d).
Proof.
  induction f1 as [| f1 IH]; intros f2 X t d H1 H2.
  - rewrite !absorb_stop by lia. reflexivity.
  - destruct (decide (bsize ci < length d)%nat) as [Hgt | Hle].
    + destruct f2 as [| f2]; [lia |].
      rewrite !absorb_step by exact Hgt.
      apply IH; rewrite length_drop; lia.
    + rewrite !absorb_stop by lia. reflexivity.
Qed.

(** Draining [d ++ e] is draining [d] and then what is left with [e]. *)
Lemma absorb_app f :
  forall g h X t d e,
    (length d <= f)%nat -> (length (d ++ e) <= g)%nat ->
    (length ((absorb ci f (X, t, d)).2 ++ e) <= h)%nat ->
    absorb ci g (X, t, d ++ e)
    = absorb ci h ((absorb ci f (X, t, d)).1, (absorb ci f (X, t, d)).2 ++ e).
Proof.
  induction f as [| f IH]; intros g h X t d e Hf Hg Hh.
  - rewrite (absorb_stop 0 X t d) in * by lia. cbn [fst snd] in *.
    apply absorb_fuel; lia.
  - destruct (decide (bsize ci < length d)%nat) as [Hgt | Hle].
    + rewrite (absorb_step f X t d) in * by exact Hgt.
      destruct g as [| g]; [rewrite length_app in Hg; lia |].
      rewrite absorb_step by (rewrite length_app; lia).
      rewrite take_app_le, drop_app_le by lia.
      apply IH; [rewrite length_drop; lia | | exact Hh].
      rewrite length_app, length_drop. rewrite length_app in Hg. lia.
    + rewrite (absorb_stop (S f) X t d) in * by lia. cbn [fst snd] in *.
      apply absorb_fuel; lia.
Qed.

(** With enough fuel the loop exits by its guard: at most one block stays
    pending, a non-empty input leaves a non-empty buffer, and the pending
    length keeps its residue modulo the block size. *)
Lemma absorb_pending f :
  forall X t d,
    (length d <= f)%nat ->
    let d' := (absorb ci f (X, t, d)).2 in
    (length d' <= bsize ci)%nat /\
    (d = [] <-> d' = []) /\
    (length d' mod bsize ci = length d mod bsize ci)%nat.
Proof.
  induction f as [| f IH]; intros X t d Hf.
  - rewrite absorb_stop by lia. cbn. repeat split; auto; lia.
  - destruct (decide (bsize ci < length d)%nat) as [Hgt | Hle].
    + rewrite absorb_step by exact Hgt.
      destruct (IH (chain ci X (take (bsize ci) d)) (xor_bytes X (take (bsize ci) d))
                  (drop (bsize ci) d)) as (H1 & H2 & H3).
      { rewrite length_drop. lia. }
      cbn zeta in *. split; [exact H1 |]. split.
      * split.
        -- intros ->. simpl in Hgt. lia.
        -- intros E. apply H2 in E.
           apply (f_equal length) in E. rewrite length_drop in E. simpl in E. lia.
      * rewrite H3, length_drop.
        replace (length d) with ((length d - bsize ci) + 1 * bsize ci)%nat at 2 by lia.
        rewrite Nat.Div0.mod_add. reflexivity.
    + rewrite absorb_stop by lia. cbn. repeat split; auto; lia.
Qed.

Lemma absorb_lengths f :
  forall X t d,
    length X = bsize ci -> length t = bsize ci ->
    length (absorb ci f (X, t, d)).1.1 = bsize ci /\
    length (absorb ci f (X, t, d)).1.2 = bsize ci.
Proof.
  induction f as [| f IH]; intros X t d HX Ht.
  - destruct (decide (bsize ci < length d)%nat);
      cbn [absorb]; [rewrite decide_True by lia | rewrite decide_False by lia]; auto.
  - destruct (decide (bsize ci < length d)%nat) as [Hgt | Hle].
    + rewrite absorb_step by exact Hgt. apply IH.
      * rewrite length_chain. exact HX.
      * rewrite length_xor_bytes; rewrite ?length_take; lia.
    + rewrite absorb_stop by lia. auto.
Qed.

(** The function realises the big-step relation of the specification. *)
Lemma absorb_drains f :
  forall X t d,
    (length d <= f)%nat ->
    drains ci (X, d) ((absorb ci f (X, t, d)).1.1, (absorb ci f (X, t, d)).2).
Proof.
  induction f as [| f IH]; intros X t d Hf.
  - rewrite absorb_stop by lia. apply drains_done. simpl. lia.
  - destruct (decide (bsize ci < length d)%nat) as [Hgt | Hle].
    + rewrite absorb_step by exact Hgt. apply drains_step; [exact Hgt |].
      apply IH. rewrite length_drop. lia.
    + rewrite absorb_stop by lia. apply drains_done. simpl. lia.
Qed.

(** The relation has one outcome. *)
Lemma drains_fun s r1 r2 : drains ci s r1 -> drains ci s r2 -> r1 = r2.
Proof.
  intros H1. revert r2. induction H1 as [X d Hle | X d r Hgt _ IH]; intros r2 H2.
  - inversion H2; subst; [reflexivity | lia].
  - inversion H2; subst; [lia |]. apply IH. assumption.
Qed.
End Absorb.

Lemma absorb_suffix ci f :
  forall X t d, exists p, d = p ++ (absorb ci f (X, t, d)).2.
Proof.
  induction f as [| f IH]; intros X t d.
  - exists []. cbn [absorb]. destruct (decide (bsize ci < length d)%nat); reflexivity.
  - cbn [absorb]. destruct (decide (bsize ci < length d)%nat) as [Hgt | Hle].
    + destruct (IH (chain ci X (take (bsize ci) d)) (xor_bytes X (take (bsize ci) d))
                  (drop (bsize ci) d)) as [p Hp].
      exists (take (bsize ci) d ++ p).
      rewrite <- app_assoc, <- Hp, take_drop. reflexivity.
    + exists []. reflexivity.
Qed.

(** The scratch field [tmp] has no influence on the chaining value or on
    what stays pending. *)
Lemma absorb_tmp_irrelevant ci f X t1 t2 d :
  (absorb ci f (X, t1, d)).1.1 = (absorb ci f (X, t2, d)).1.1 /\
  (absorb ci f (X, t1, d)).2 = (absorb ci f (X, t2, d)).2.
Proof.
  destruct f as [| f]; cbn [absorb];
    destruct (decide (bsize ci < length d)%nat); auto.
Qed.

(** ** Reachable states of the append-based engine *)

Lemma wf_fresh ci : BlockSize ci = 8 \/ BlockSize ci = 16 -> wf (fresh ci).
Proof.
  intros Hbs. split; cbn [fresh Append.c Append.k1 Append.k2 Append.x Append.tmp Append.buf].
  - exact Hbs.
  - apply length_subkey_K1.
  - apply length_subkey_K2.
  - apply length_zero_block.
  - apply length_zero_block.
  - simpl. lia.
Qed.

Lemma wf_pos m : wf m -> (0 < bsize (Append.c m))%nat.
Proof. intros [Hbs _ _ _ _ _]. unfold bsize. lia. Qed.

Lemma wf_written m d : wf m -> wf (written m d).
Proof.
  intros Hwf. pose proof (wf_pos m Hwf) as Hpos.
  destruct Hwf as [Hbs Hk1 Hk2 Hx Ht Hb].
  unfold written, absorbed. cbn [snd].
  destruct (absorb_lengths (Append.c m) Hpos (length d) (Append.x m) (Append.tmp m) d Hx Ht)
    as [HX' Ht'].
  destruct (absorb_pending (Append.c m) Hpos (length d) (Append.x m) (Append.tmp m) d
              (Nat.le_refl _)) as (Hd' & _ & _).
  split; cbn [Append.c Append.k1 Append.k2 Append.x Append.tmp Append.buf]; assumption.
Qed.

Lemma inv_fresh ci : BlockSize ci = 8 \/ BlockSize ci = 16 -> inv ci [] (fresh ci).
Proof.
  intros Hbs. split; try reflexivity.
  - apply wf_fresh, Hbs.
  - exists []. reflexivity.
Qed.

Lemma inv_written ci msg m b :
  inv ci msg m -> inv ci (msg ++ b) (written m (Append.buf m ++ b)).
Proof.
  intros [Hwf Hc Hk1 Hk2 [p Hp] He Hm].
  pose proof (wf_pos m Hwf) as Hpos. rewrite Hc in Hpos.
  pose proof (wf_written m (Append.buf m ++ b) Hwf) as Hwf'.
  unfold written, absorbed in *. cbn [snd] in *. rewrite Hc in *.
  set (d := Append.buf m ++ b) in *.
  destruct (absorb_pending ci Hpos (length d) (Append.x m) (Append.tmp m) d (Nat.le_refl _))
    as (_ & Hemp & Hmod).
  destruct (absorb_suffix ci (length d) (Append.x m) (Append.tmp m) d) as [q Hq].
  split; cbn [Append.c Append.k1 Append.k2 Append.x Append.tmp Append.buf];
    try assumption; try reflexivity.
  - exists (p ++ q). rewrite Hp at 1. rewrite <- !app_assoc. fold d. rewrite Hq at 1.
    reflexivity.
  - rewrite <- Hemp. subst d. split.
    + intros E. apply app_eq_nil in E as [E1 ->]. apply He in E1. rewrite E1. reflexivity.
    + intros E. apply app_eq_nil in E as [E1 ->]. apply He in E1. rewrite E1. reflexivity.
  - rewrite Hmod. subst d. rewrite !length_app.
    rewrite <- (Nat.Div0.add_mod_idemp_l (length (Append.buf m))), Hm.
    rewrite Nat.Div0.add_mod_idemp_l. reflexivity.
Qed.

Lemma reachable_inv ci msg m : reachable ci msg m -> inv ci msg m.
Proof.
  induction 1 as [m Hnew | msg m b m' r _ IH Hw | msg m b m' out _ IH Hs | msg m m' _ IH Hr].
  - destruct (decide (BlockSize ci = 8 \/ BlockSize ci = 16)) as [Hbs | Hbs].
    + rewrite NewWithCipher_ok in Hnew by exact Hbs.
      injection Hnew as <-. apply inv_fresh, Hbs.
    + rewrite NewWithCipher_invalid in Hnew by exact Hbs. discriminate.
  - destruct (Write_spec m b (inv_wf _ _ _ IH)) as [tr Htr].
    rewrite Htr in Hw. injection Hw as <- _. apply inv_written, IH.
  - rewrite Sum_spec in Hs by (apply IH). injection Hs as <- _. exact IH.
  - destruct IH as [Hwf Hc Hk1 Hk2 _ _ _]. pose proof Hwf as [Hbs H1 H2 Hx Ht Hb].
    rewrite Reset_spec in Hr by lia. injection Hr as <-.
    split; cbn [Append.c Append.k1 Append.k2 Append.x Append.tmp Append.buf];
      try assumption; try reflexivity.
    + split; cbn [Append.c Append.k1 Append.k2 Append.x Append.tmp Append.buf];
        try assumption; [apply length_zero_block | simpl; lia].
    + exists []. reflexivity.
Qed.

(** A pending block is full exactly when the accumulated message is
    non-empty and block-aligned. *)
Lemma inv_full ci msg m :
  inv ci msg m ->
  length (Append.buf m) = bsize ci <-> msg <> [] /\ (length msg mod bsize ci = 0)%nat.
Proof.
  intros [Hwf Hc _ _ _ He Hm]. pose proof (wf_pos m Hwf) as Hpos.
  destruct Hwf as [_ _ _ _ _ Hb]. rewrite Hc in *.
  split.
  - intros E. split.
    + intros Hmsg. apply He in Hmsg. rewrite Hmsg in E. simpl in E. lia.
    + rewrite <- Hm, E. apply Nat.Div0.mod_same.
  - intros [Hne Hz]. rewrite <- Hm in Hz.
    destruct (decide (length (Append.buf m) = bsize ci)) as [E | NE]; [exact E |].
    rewrite Nat.mod_small in Hz by lia.
    destruct (Append.buf m) eqn:Eb; [| simpl in Hz; lia].
    exfalso. apply Hne, He. reflexivity.
Qed.

(** ** Sequences of writes *)

Lemma written_pending m :
  wf m -> written m (Append.buf m) = m.
Proof.
  intros Hwf. pose proof (wf_pos m Hwf) as Hpos. destruct Hwf as [_ _ _ _ _ Hb].
  unfold written, absorbed. rewrite absorb_stop by assumption.
  destruct m; reflexivity.
Qed.

Lemma written_written m d e :
  wf m ->
  written (written m d) (Append.buf (written m d) ++ e) = written m (d ++ e).
Proof.
  intros Hwf. pose proof (wf_pos m Hwf) as Hpos.
  unfold written, absorbed. cbn [Append.c Append.k1 Append.k2 Append.x Append.tmp Append.buf snd].
  rewrite (absorb_app (Append.c m) Hpos (length d) (length (d ++ e))
             (length ((absorb (Append.c m) (length d) (Append.x m, Append.tmp m, d)).2 ++ e))
             (Append.x m) (Append.tmp m) d e) by lia.
  destruct (absorb (Append.c m) (length d) (Append.x m, Append.tmp m, d)) as [[X' t'] d'].
  reflexivity.
Qed.

Lemma writes_spec chunks :
  forall m, wf m ->
    exists tr, writes m chunks = (Ret (written m (Append.buf m ++ concat chunks)), tr).
Proof.
  induction chunks as [| ch rest IH]; intros m Hwf.
  - exists []. cbn [writes concat]. rewrite app_nil_r, written_pending by exact Hwf.
    reflexivity.
  - destruct (Write_spec m ch Hwf) as [tr1 H1].
    destruct (IH (written m (Append.buf m ++ ch)) (wf_written _ _ Hwf)) as [tr2 H2].
    exists (tr1 ++ tr2). cbn [writes concat hash_Write Append_Hash].
    erewrite bind_Ret by exact H1. cbn [fst].
    rewrite H2. cbn [res calls fst snd].
    rewrite written_written by exact Hwf. rewrite <- app_assoc. reflexivity.
Qed.

Lemma mac_after_spec m chunks :
  wf m ->
  let m' := written m (Append.buf m ++ concat chunks) in
  res (mac_after m chunks)
  = Ret (final_tag (Append.c m') (Append.k1 m') (Append.k2 m') (Append.buf m') (Append.x m')).
Proof.
  intros Hwf m'. unfold mac_after.
  destruct (writes_spec chunks m Hwf) as [tr Htr].
  erewrite bind_Ret by exact Htr. fold m'. cbn [res fst hash_Sum Append_Hash].
  rewrite res_bind. rewrite Sum_spec by (apply wf_written, Hwf).
  reflexivity.
Qed.

Lemma res_bind_inv {A B} (m : M A) (f : A -> M B) v :
  res (bind m f) = Ret v -> exists a, res m = Ret a /\ res (f a) = Ret v.
Proof.
  rewrite res_bind. destruct (res m) as [a | msg |]; try discriminate. eauto.
Qed.

(** [Sum] hands back the engine it was given, in every state. *)
Lemma Sum_frame m b m' out : res (Append.Sum m b) = Ret (m', out) -> m' = m.
Proof.
  unfold Append.Sum. intros H.
  repeat (apply res_bind_inv in H as (? & _ & H)).
  injection H as <- _. reflexivity.
Qed.

(** * The claims on the append-based engine *)

(** C1: in every state reached from construction by [Write], [Sum] and
    [Reset], [Sum] computes the tag by the finalization rule.  The pending
    buffer holds exactly one full block precisely when the accumulated
    message is non-empty and block-aligned, and then [last = buffer XOR K1];
    otherwise the buffer is shorter than a block and [last] is the buffer
    extended by one [0x80] byte, zero-filled to the block size and XORed with
    [K2].  The tag appended to the caller's bytes is what [Encrypt] leaves of
    [last XOR X], the cipher's output itself when that is one block long;
    the cipher is called once. *)
Theorem C1_Sum_finalization_rule
  (ci : Block) (msg : list byte) (m : Append.cmac) (out : list byte) :
  reachable ci msg m ->
  let n := bsize ci in
  let pending := Append.buf m in
  let aligned := msg <> [] /\ (length msg mod n = 0)%nat in
  exists last,
    (aligned <-> length pending = n) /\
    (aligned -> last = xor_bytes pending (Append.k1 m)) /\
    (~ aligned ->
       (length pending < n)%nat /\
       last = xor_bytes
                (pending ++ [Byte.x80] ++ replicate (n - length pending - 1) Byte.x00)
                (Append.k2 m)) /\
    length last = n /\
    Append.Sum m out
    = (Ret (m, out ++ encrypted ci (xor_bytes last (Append.x m)) (xor_bytes last (Append.x m))),
       [xor_bytes last (Append.x m)]) /\
    (length (cipher_fn ci (xor_bytes last (Append.x m))) = n ->
     encrypted ci (xor_bytes last (Append.x m)) (xor_bytes last (Append.x m))
     = cipher_fn ci (xor_bytes last (Append.x m))).
Proof.
  intros Hreach n pending aligned.
  pose proof (reachable_inv _ _ _ Hreach) as Hinv.
  pose proof (inv_full _ _ _ Hinv) as Hfull.
  pose proof Hinv as [Hwf Hc Hk1 Hk2 _ _ _].
  pose proof Hwf as [Hbs H1 H2 Hx Ht Hb]. rewrite Hc in *.
  fold n in Hfull, H1, H2, Hx, Hb. fold pending in Hfull, Hb.
  exists (final_block n (Append.k1 m) (Append.k2 m) pending).
  assert (Hlast : length (final_block n (Append.k1 m) (Append.k2 m) pending) = n)
    by (apply length_final_block; assumption).
  split; [symmetry; exact Hfull |].
  split; [| split; [| split; [exact Hlast | split]]].
  - intros Ha. apply Hfull in Ha. unfold final_block.
    rewrite decide_True by exact Ha. reflexivity.
  - intros Hna. assert (NE : length pending <> n) by (intros E; apply Hna, Hfull, E).
    split; [lia |]. unfold final_block. rewrite decide_False by exact NE. reflexivity.
  - rewrite Sum_spec by exact Hwf. unfold final_tag. rewrite Hc. reflexivity.
  - intros Hlen. unfold encrypted. apply copy_same_length.
    rewrite Hlen, length_xor_bytes; lia.
Qed.

Lemma reachable_demo_fresh : reachable (demo_cipher 8) [] (fresh (demo_cipher 8)).
Proof.
  apply reach_new. rewrite NewWithCipher_ok by (left; reflexivity). reflexivity.
Qed.

Lemma C1_witness :
  reachable (demo_cipher 8) [] (fresh (demo_cipher 8)) /\
  exists last,
    length last = 8%nat /\
    Append.Sum (fresh (demo_cipher 8)) []
    = (Ret (fresh (demo_cipher 8),
            encrypted (demo_cipher 8) (xor_bytes last (zero_block (demo_cipher 8)))
              (xor_bytes last (zero_block (demo_cipher 8)))),
       [xor_bytes last (zero_block (demo_cipher 8))]).
Proof.
  split; [exact reachable_demo_fresh |].
  destruct (C1_Sum_finalization_rule (demo_cipher 8) [] (fresh (demo_cipher 8)) []
              reachable_demo_fresh) as (last & _ & _ & _ & Hl & Hs & _).
  exists last. split; [exact Hl | exact Hs].
Defined.

(** C2: [Write] appends its input to the pending buffer and runs the drain
    loop of the specification: while strictly more than one block is
    pending, one block is taken from the front and [X = encrypt(X XOR
    block)].  The subkeys and the cipher are untouched, at most one block
    stays pending, a message whose total length is a non-zero multiple of the
    block size leaves its last full block in the buffer, and [Write] returns
    the length of its input and no error. *)
Theorem C2_Write_append_then_drain
  (ci : Block) (msg : list byte) (m : Append.cmac) (b : list byte) :
  reachable ci msg m ->
  exists m' tr,
    Append.Write m b = (Ret (m', (len b, None)), tr) /\
    drains ci (Append.x m, Append.buf m ++ b) (Append.x m', Append.buf m') /\
    Append.c m' = Append.c m /\ Append.k1 m' = Append.k1 m /\ Append.k2 m' = Append.k2 m /\
    (length (Append.buf m') <= bsize ci)%nat /\
    (msg ++ b <> [] -> (length (msg ++ b) mod bsize ci = 0)%nat ->
     length (Append.buf m') = bsize ci /\
     Append.buf m' = drop (length (msg ++ b) - bsize ci) (msg ++ b)).
Proof.
  intros Hreach.
  pose proof (reachable_inv _ _ _ Hreach) as Hinv.
  pose proof (inv_wf _ _ _ Hinv) as Hwf.
  pose proof (inv_c _ _ _ Hinv) as Hc.
  pose proof (wf_pos m Hwf) as Hpos. rewrite Hc in Hpos.
  destruct (Write_spec m b Hwf) as [tr Htr].
  pose proof (inv_written ci msg m b Hinv) as Hinv'.
  set (m' := written m (Append.buf m ++ b)) in *.
  exists m', tr. split; [exact Htr |].
  split; [| split; [reflexivity | split; [reflexivity | split; [reflexivity | split]]]].
  - subst m'. unfold written, absorbed. cbn [Append.x Append.buf snd]. rewrite Hc.
    apply absorb_drains; [exact Hpos | lia].
  - pose proof (inv_wf _ _ _ Hinv') as [_ _ _ _ _ Hb']. rewrite (inv_c _ _ _ Hinv') in Hb'.
    exact Hb'.
  - intros Hne Hal.
    assert (Hfull : length (Append.buf m') = bsize ci)
      by (apply (inv_full _ _ _ Hinv'); split; assumption).
    split; [exact Hfull |].
    destruct (inv_suffix _ _ _ Hinv') as [p Hp].
    rewrite Hp at 2. rewrite Hp at 1.
    rewrite length_app, Hfull.
    replace (length p + bsize ci - bsize ci)%nat with (length p) by lia.
    rewrite drop_app_length. reflexivity.
Qed.

Lemma C2_witness :
  reachable (demo_cipher 8) [] (fresh (demo_cipher 8)) /\
  exists m' tr,
    Append.Write (fresh (demo_cipher 8)) (bytes_of [1; 2; 3; 4; 5; 6; 7; 8; 9; 10; 11; 12; 13; 14; 15; 16])
    = (Ret (m', (16, None)), tr) /\
    Append.buf m' = bytes_of [9; 10; 11; 12; 13; 14; 15; 16].
Proof.
  split; [exact reachable_demo_fresh |].
  destruct (C2_Write_append_then_drain (demo_cipher 8) [] (fresh (demo_cipher 8))
              (bytes_of [1; 2; 3; 4; 5; 6; 7; 8; 9; 10; 11; 12; 13; 14; 15; 16])
              reachable_demo_fresh)
    as (m' & tr & Hw & _ & _ & _ & _ & _ & Hal).
  exists m', tr. split; [exact Hw |].
  destruct Hal as [_ Hbuf]; [discriminate | reflexivity |]. exact Hbuf.
Defined.

(** C4: however a message is split into chunks, feeding the chunks with
    successive [Write] calls and calling [Sum] yields the tag of a single
    [Write] of the whole message followed by [Sum], from the fresh engine
    and from every other reachable state. *)
Theorem C4_streaming_equivalence
  (ci : Block) (sofar : list byte) (m : Append.cmac)
  (msg : list byte) (chunks : list (list byte)) :
  reachable ci sofar m ->
  concat chunks = msg ->
  exists tag,
    res (mac_after m chunks) = Ret tag /\
    res (mac_after m [msg]) = Ret tag.
Proof.
  intros Hreach Hcat.
  pose proof (inv_wf _ _ _ (reachable_inv _ _ _ Hreach)) as Hwf.
  eexists. split.
  - rewrite mac_after_spec by exact Hwf. rewrite Hcat. reflexivity.
  - rewrite mac_after_spec by exact Hwf. cbn [concat]. rewrite app_nil_r. reflexivity.
Qed.

Lemma C4_witness :
  reachable (demo_cipher 8) [] (fresh (demo_cipher 8)) /\
  exists tag,
    res (mac_after (fresh (demo_cipher 8))
           [bytes_of [1; 2; 3; 4; 5; 6; 7]; bytes_of [8]; bytes_of [9];
            bytes_of [10; 11; 12; 13; 14; 15; 16]; bytes_of [17; 18; 19]])
    = Ret tag /\
    res (mac_after (fresh (demo_cipher 8))
           [bytes_of [1; 2; 3; 4; 5; 6; 7; 8; 9; 10; 11; 12; 13; 14; 15; 16; 17; 18; 19]])
    = Ret tag.
Proof.
  split; [exact reachable_demo_fresh |].
  apply (C4_streaming_equivalence (demo_cipher 8) [] (fresh (demo_cipher 8))
           (bytes_of [1; 2; 3; 4; 5; 6; 7; 8; 9; 10; 11; 12; 13; 14; 15; 16; 17; 18; 19])
           [bytes_of [1; 2; 3; 4; 5; 6; 7]; bytes_of [8]; bytes_of [9];
            bytes_of [10; 11; 12; 13; 14; 15; 16]; bytes_of [17; 18; 19]]).
  - exact reachable_demo_fresh.
  - reflexivity.
Defined.

(** The tag depends on the cipher, the subkeys, the chaining value and the
    pending bytes only, not on the scratch block. *)
Lemma mac_after_tmp_irrelevant m1 m2 chunks :
  wf m1 -> wf m2 ->
  Append.c m1 = Append.c m2 -> Append.k1 m1 = Append.k1 m2 -> Append.k2 m1 = Append.k2 m2 ->
  Append.buf m1 = Append.buf m2 -> Append.x m1 = Append.x m2 ->
  res (mac_after m1 chunks) = res (mac_after m2 chunks).
Proof.
  intros Hwf1 Hwf2 Ec E1 E2 Eb Ex.
  rewrite !mac_after_spec by assumption. cbn zeta.
  unfold written, absorbed. cbn [Append.c Append.k1 Append.k2 Append.x Append.buf snd].
  rewrite Ec, E1, E2, Eb, Ex.
  destruct (absorb_tmp_irrelevant (Append.c m2) (length (Append.buf m2 ++ concat chunks))
              (Append.x m2) (Append.tmp m1) (Append.tmp m2) (Append.buf m2 ++ concat chunks))
    as [-> ->].
  reflexivity.
Qed.

(** C6: [Reset] puts the all-zero block in [X] and empties the pending
    buffer, leaving the cipher and the subkeys alone; after it the engine
    computes the tags of a fresh engine: [Write(m1)], [Reset], [Write(m2)],
    [Sum] gives what a new engine gives on [Write(m2)], [Sum]. *)
Theorem C6_Reset_round_trip
  (ci : Block) (sofar : list byte) (m : Append.cmac) (m1 m2 : list byte) :
  reachable ci sofar m ->
  (exists m',
     Append.Reset m = ret m' /\
     Append.x m' = zero_block ci /\ Append.buf m' = [] /\
     Append.c m' = Append.c m /\ Append.k1 m' = Append.k1 m /\ Append.k2 m' = Append.k2 m) /\
  (exists tag,
     res (r <- Append.Write m m1 ;; m' <- Append.Reset (fst r) ;; mac_after m' [m2]) = Ret tag /\
     res (m0 <- Append.newcmac ci ;; mac_after m0 [m2]) = Ret tag).
Proof.
  intros Hreach.
  pose proof (reachable_inv _ _ _ Hreach) as Hinv.
  pose proof Hinv as [Hwf Hc Hk1 Hk2 _ _ _].
  pose proof Hwf as [Hbs _ _ _ _ _].
  split.
  - eexists. split; [apply Reset_spec; lia |].
    cbn [Append.c Append.k1 Append.k2 Append.x Append.buf]. rewrite Hc. auto.
  - destruct (Write_spec m m1 Hwf) as [tr Htr].
    pose proof (inv_written ci sofar m m1 Hinv) as Hinv1.
    set (ma := written m (Append.buf m ++ m1)) in *.
    pose proof Hinv1 as [Hwfa Hca Hk1a Hk2a _ _ _].
    pose proof Hwfa as [Hbsa H1a H2a _ Hta _].
    set (mr := {| Append.c := Append.c ma; Append.k1 := Append.k1 ma;
                  Append.k2 := Append.k2 ma; Append.buf := [];
                  Append.x := zero_block (Append.c ma); Append.tmp := Append.tmp ma |}).
    assert (Hwfr : wf mr).
    { split; cbn [mr Append.c Append.k1 Append.k2 Append.x Append.tmp Append.buf];
        try assumption; [apply length_zero_block | simpl; lia]. }
    assert (Hbsi : BlockSize ci = 8 \/ BlockSize ci = 16) by (rewrite <- Hc; exact Hbs).
    exists (final_tag ci (subkey_K1 ci) (subkey_K2 ci)
              (Append.buf (written (fresh ci) m2)) (Append.x (written (fresh ci) m2))).
    split.
    + erewrite bind_Ret by exact Htr. cbn [res fst].
      rewrite Reset_spec by lia. rewrite bind_ret_l. fold ma. fold mr.
      rewrite (mac_after_tmp_irrelevant mr (fresh ci) [m2]); try assumption;
        try (cbn [mr fresh Append.c Append.k1 Append.k2 Append.x Append.buf]; congruence).
      * rewrite mac_after_spec by (apply wf_fresh, Hbsi).
        cbn [concat fresh Append.buf app]. rewrite app_nil_r. reflexivity.
      * apply wf_fresh, Hbsi.
    + erewrite bind_Ret by (apply newcmac_spec; exact Hbsi). cbn [res fst].
      rewrite mac_after_spec by (apply wf_fresh, Hbsi).
      cbn [concat fresh Append.buf app]. rewrite app_nil_r. reflexivity.
Qed.

Lemma C6_witness :
  reachable (demo_cipher 8) [] (fresh (demo_cipher 8)) /\
  exists tag,
    res (r <- Append.Write (fresh (demo_cipher 8)) (bytes_of [1; 2; 3; 4; 5; 6; 7; 8; 9; 10]) ;;
         m' <- Append.Reset (fst r) ;; mac_after m' [bytes_of [42; 43]]) = Ret tag /\
    res (m0 <- Append.newcmac (demo_cipher 8) ;; mac_after m0 [bytes_of [42; 43]]) = Ret tag.
Proof.
  split; [exact reachable_demo_fresh |].
  apply (C6_Reset_round_trip (demo_cipher 8) [] (fresh (demo_cipher 8))
           (bytes_of [1; 2; 3; 4; 5; 6; 7; 8; 9; 10]) (bytes_of [42; 43])).
  exact reachable_demo_fresh.
Defined.

(** C7: [Sum] does not change the engine: whenever it returns, in any state
    at all, it hands back the engine it was given (cipher, subkeys, chaining
    value, pending buffer and scratch block); in a reachable state it does
    return, and a second [Sum] straight after the first returns the same
    tag. *)
Theorem C7_Sum_does_not_mutate :
  (forall (m m' : Append.cmac) (b out : list byte),
     res (Append.Sum m b) = Ret (m', out) -> m' = m) /\
  (forall (ci : Block) (msg : list byte) (m : Append.cmac) (b b' : list byte),
     reachable ci msg m ->
     exists tag,
       res (Append.Sum m b) = Ret (m, b ++ tag) /\
       res (r <- Append.Sum m b ;; Append.Sum (fst r) b') = Ret (m, b' ++ tag)).
Proof.
  split.
  - intros m m' b out H. exact (Sum_frame m b m' out H).
  - intros ci msg m b b' Hreach.
    pose proof (inv_wf _ _ _ (reachable_inv _ _ _ Hreach)) as Hwf.
    eexists. split.
    + rewrite Sum_spec by exact Hwf. reflexivity.
    + rewrite res_bind, Sum_spec by exact Hwf. cbn [res fst].
      rewrite Sum_spec by exact Hwf. reflexivity.
Qed.

Lemma C7_witness :
  exists tag,
    res (Append.Sum (fresh (demo_cipher 8)) []) = Ret (fresh (demo_cipher 8), [] ++ tag) /\
    res (r <- Append.Sum (fresh (demo_cipher 8)) [] ;; Append.Sum (fst r) [])
    = Ret (fresh (demo_cipher 8), [] ++ tag).
Proof.
  exact (proj2 C7_Sum_does_not_mutate (demo_cipher 8) [] (fresh (demo_cipher 8)) [] []
           reachable_demo_fresh).
Defined.

(** C8: in every state reached from construction by [Write], [Sum] and
    [Reset], the subkeys [K1] and [K2] and the chaining value [X] have the
    length of the cipher's block, and the pending buffer holds between zero
    and one block of bytes. *)
Theorem C8_length_invariants (ci : Block) (msg : list byte) (m : Append.cmac) :
  reachable ci msg m ->
  Append.c m = ci /\
  len (Append.k1 m) = BlockSize ci /\
  len (Append.k2 m) = BlockSize ci /\
  len (Append.x m) = BlockSize ci /\
  0 <= len (Append.buf m) <= BlockSize ci.
Proof.
  intros Hreach.
  pose proof (reachable_inv _ _ _ Hreach) as [Hwf Hc _ _ _ _ _].
  destruct Hwf as [Hbs H1 H2 Hx _ Hb]. rewrite Hc in *.
  unfold len, bsize in *. repeat split; lia.
Qed.

Lemma C8_witness :
  reachable (demo_cipher 8) [] (fresh (demo_cipher 8)) /\
  len (Append.k1 (fresh (demo_cipher 8))) = 8 /\
  len (Append.x (fresh (demo_cipher 8))) = 8.
Proof.
  split; [exact reachable_demo_fresh |].
  destruct (C8_length_invariants (demo_cipher 8) [] (fresh (demo_cipher 8))
              reachable_demo_fresh) as (_ & H1 & _ & Hx & _).
  split; [exact H1 | exact Hx].
Defined.

(** C10: in a reachable state, when the guard of the [K1] branch of [Sum]
    fails (the buffer is empty or its length is not a multiple of the block
    size), the pending buffer is strictly shorter than a block, so the write
    [last[len(buf)] = 0x80] is in bounds and does not panic: [Write] leaves
    at most one block pending and the guard takes the full block. *)
Theorem C10_padding_index_in_bounds (ci : Block) (msg : list byte) (m : Append.cmac) :
  reachable ci msg m ->
  ~ (len (Append.buf m) > 0 /\ Z.rem (len (Append.buf m)) (BlockSize (Append.c m)) = 0) ->
  len (Append.buf m) < BlockSize (Append.c m) /\
  forall last, len last = BlockSize (Append.c m) ->
    store (fst (copy last (Append.buf m))) (length (Append.buf m)) Byte.x80
    = ret (<[length (Append.buf m) := Byte.x80]> (fst (copy last (Append.buf m)))).
Proof.
  intros Hreach Hguard.
  pose proof (reachable_inv _ _ _ Hreach) as [Hwf Hc _ _ _ _ _].
  destruct Hwf as [Hbs _ _ _ _ Hb]. unfold len, bsize in *.
  assert (Hlt : Z.of_nat (length (Append.buf m)) < BlockSize (Append.c m)).
  { destruct (decide (Z.of_nat (length (Append.buf m)) = BlockSize (Append.c m))) as [E | NE];
      [| lia].
    exfalso. apply Hguard. rewrite E. split; [lia |]. apply Z.rem_same. lia. }
  split; [exact Hlt |].
  intros last Hlast. unfold store. rewrite decide_True; [reflexivity |].
  rewrite copy_length. lia.
Qed.

Lemma C10_witness :
  reachable (demo_cipher 8) [] (fresh (demo_cipher 8)) /\
  len (Append.buf (fresh (demo_cipher 8))) < 8.
Proof.
  split; [exact reachable_demo_fresh |].
  refine (proj1 (C10_padding_index_in_bounds (demo_cipher 8) [] (fresh (demo_cipher 8))
                   reachable_demo_fresh _)).
  intros [H _]. vm_compute in H. discriminate.
Defined.

(** * Construction *)

(** C5: a cipher whose block size is neither 8 nor 16 makes [NewWithCipher]
    return the invalid-block-size error without a single call of the
    cipher's [Encrypt]; with block size 8 or 16 construction succeeds; and
    [New] returns the error of the cipher constructor as it got it, again
    without touching a cipher. *)
Theorem C5_construction_errors :
  (forall ci : Block,
     BlockSize ci <> 8 -> BlockSize ci <> 16 ->
     Append.NewWithCipher ci
     = (Ret (None, Some (errors_New "cmac: invalid blocksize")), [])) /\
  (forall ci : Block,
     BlockSize ci = 8 \/ BlockSize ci = 16 ->
     exists m, res (Append.NewWithCipher ci) = Ret (Some m, None)) /\
  (forall (aes_NewCipher : list byte -> Block + error) (key : list byte) (err : error),
     aes_NewCipher key = inr err ->
     Append.New aes_NewCipher key = (Ret (None, Some err), [])).
Proof.
  split; [| split].
  - intros ci H8 H16. apply NewWithCipher_invalid. intros [E | E]; contradiction.
  - intros ci Hbs. exists (fresh ci). rewrite NewWithCipher_ok by exact Hbs. reflexivity.
  - intros aes_NewCipher key err H. unfold Append.New. rewrite H. reflexivity.
Qed.

Lemma C5_witness :
  Append.NewWithCipher (demo_cipher 12)
  = (Ret (None, Some (errors_New "cmac: invalid blocksize")), []) /\
  (exists m, res (Append.NewWithCipher (demo_cipher 16)) = Ret (Some m, None)) /\
  Append.New demo_NewCipher (bytes_of [1; 2; 3])
  = (Ret (None, Some (cipher_error 3)), []).
Proof.
  destruct C5_construction_errors as (Hbad & Hok & Hnew).
  split; [| split].
  - apply (Hbad (demo_cipher 12)); discriminate.
  - apply (Hok (demo_cipher 16)). right. reflexivity.
  - apply (Hnew demo_NewCipher (bytes_of [1; 2; 3]) (cipher_error 3)). reflexivity.
Defined.

(** * Doubling as arithmetic *)

Section Doubling.
Lemma byte_shift_or a b :
  byte_to_Z (bor (bshl a 1) (bshr b 7))
  = 2 * byte_to_Z a - 256 * (byte_to_Z a / 128) + byte_to_Z b / 128.
Proof.
  unfold bor. rewrite byte_to_of_Z, bshr_7_bit.
  assert (Hb : (if Z.testbit (byte_to_Z b) 7 then 1 else 0) = byte_to_Z b / 128)
    by (destruct b; reflexivity).
  rewrite <- Hb. destruct (Z.testbit (byte_to_Z b) 7); destruct a; reflexivity.
Qed.

Lemma byte_shift a :
  byte_to_Z (bshl a 1) = 2 * byte_to_Z a - 256 * (byte_to_Z a / 128).
Proof. destruct a; reflexivity. Qed.

Lemma msb_div a : (if Z.testbit (byte_to_Z a) 7 then 1 else 0) = byte_to_Z a / 128.
Proof. destruct a; reflexivity. Qed.

Lemma be_value_foldl acc v :
  foldl (fun acc b => acc * 256 + byte_to_Z b) acc v
  = acc * 256 ^ len v + be_value v.
Proof.
  unfold be_value, len. revert acc. induction v as [| a r IH]; intros acc.
  - simpl. lia.
  - cbn [foldl length]. rewrite IH, (IH (0 * 256 + byte_to_Z a)).
    rewrite Nat2Z.inj_succ, Z.pow_succ_r by lia. ring.
Qed.

Lemma be_value_cons a r :
  be_value (a :: r) = byte_to_Z a * 256 ^ len r + be_value r.
Proof.
  unfold be_value at 1. cbn [foldl]. rewrite be_value_foldl. ring.
Qed.

Lemma be_value_range v : 0 <= be_value v < 256 ^ len v.
Proof.
  induction v as [| a r IH].
  - unfold be_value, len. simpl. lia.
  - rewrite be_value_cons. pose proof (byte_to_Z_range a).
    unfold len in *. cbn [length]. rewrite Nat2Z.inj_succ, Z.pow_succ_r by lia.
    nia.
Qed.

Lemma be_value_shl_from r :
  forall a,
    be_value (shl_from a r)
    = 2 * be_value (a :: r) - (byte_to_Z a / 128) * 256 ^ len (a :: r).
Proof.
  induction r as [| b r IH]; intros a.
  - cbn [shl_from]. rewrite !be_value_cons. unfold be_value, len. cbn [foldl length].
    rewrite byte_shift. change (256 ^ Z.of_nat 0) with 1. change (256 ^ Z.of_nat 1) with 256.
    ring.
  - cbn [shl_from]. rewrite be_value_cons, IH, byte_shift_or.
    rewrite (be_value_cons a (b :: r)).
    assert (Hl : len (shl_from b r) = len (b :: r))
      by (unfold len; rewrite length_shl_from; reflexivity).
    rewrite Hl.
    assert (Hp : 256 ^ len (a :: b :: r) = 256 * 256 ^ len (b :: r)).
    { unfold len. cbn [length]. rewrite !Nat2Z.inj_succ, !Z.pow_succ_r by lia. ring. }
    rewrite Hp. ring.
Qed.

(** On a non-empty sequence the shift doubles the big-endian value and
    drops the bit that leaves at the top. *)
Lemma be_value_shift_left_1 v :
  v <> [] ->
  be_value (shift_left_1 v) = (2 * be_value v) mod 2 ^ (8 * len v).
Proof.
  intros Hne. destruct v as [| a r]; [congruence |].
  rewrite shift_left_1_cons.
  assert (H256 : 2 ^ (8 * len (a :: r)) = 256 ^ len (a :: r)).
  { change 256 with (2 ^ 8). rewrite <- Z.pow_mul_r by (unfold len; lia). reflexivity. }
  rewrite H256.
  pose proof (be_value_range (shl_from a r)) as Hr.
  assert (Hl : len (shl_from a r) = len (a :: r))
    by (unfold len; rewrite length_shl_from; reflexivity).
  rewrite Hl in Hr.
  apply Z.mod_unique_pos with (q := byte_to_Z a / 128); [exact Hr |].
  rewrite be_value_shl_from. ring.
Qed.

Lemma lookup_shift_left_1 v i a :
  v !! i = Some a ->
  shift_left_1 v !! i
  = Some (bor (bshl a 1) (bshr (default Byte.x00 (v !! S i)) 7)).
Proof.
  intros Ha. unfold shift_left_1. apply lookup_zip_with_Some.
  exists a, (default Byte.x00 (v !! S i)). split; [reflexivity |]. split; [exact Ha |].
  destruct (v !! S i) as [nx |] eqn:En.
  - rewrite lookup_app_l by (rewrite length_drop; apply lookup_lt_Some in En; lia).
    rewrite lookup_drop. exact En.
  - apply lookup_ge_None in En. apply lookup_lt_Some in Ha.
    rewrite lookup_app_r by (rewrite length_drop; lia).
    rewrite length_drop. replace (i - (length v - 1))%nat with 0%nat by lia.
    reflexivity.
Qed.

Lemma xor_last_snoc s z rb : xor_last (s ++ [z]) rb = s ++ [bxor z rb].
Proof.
  unfold xor_last. rewrite length_app. cbn [length].
  replace (length s + 1 - 1)%nat with (length s) by lia.
  rewrite take_app_length, drop_app_length. reflexivity.
Qed.
End Doubling.

(** C3: for block sizes 8 and 16, [gensubkeys] encrypts the all-zero block
    once to get [L] and returns [K1 = double(L)] and [K2 = double(K1)] with
    [Rb = 0x87] for 16-byte blocks and [0x1b] for 8-byte blocks.  [double]
    shifts the whole sequence left by one bit: byte [i] becomes its own left
    shift with the high bit of byte [i+1] in its low bit (a zero after the
    last byte), which doubles the big-endian value and loses its top bit;
    [Rb] is XORed into the last byte exactly when the first byte of the
    original had its high bit set. *)
Theorem C3_subkey_derivation (ci : Block) :
  BlockSize ci = 8 \/ BlockSize ci = 16 ->
  let rb := if decide (BlockSize ci = 16) then Byte.x87 else Byte.x1b in
  let L := encrypted ci (zero_block ci) (zero_block ci) in
  gensubkeys ci = (Ret (double rb L, double rb (double rb L)), [zero_block ci]) /\
  (forall v, Z.testbit (byte_to_Z (default Byte.x00 (v !! 0%nat))) 7 = true ->
             double rb v = xor_last (shift_left_1 v) rb) /\
  (forall v, Z.testbit (byte_to_Z (default Byte.x00 (v !! 0%nat))) 7 = false ->
             double rb v = shift_left_1 v) /\
  (forall s z, xor_last (s ++ [z]) rb = s ++ [bxor z rb]) /\
  (forall v i a, v !! i = Some a ->
     shift_left_1 v !! i
     = Some (bor (bshl a 1) (bshr (default Byte.x00 (v !! S i)) 7))) /\
  (forall v, length (shift_left_1 v) = length v) /\
  (forall v, v <> [] -> be_value (shift_left_1 v) = (2 * be_value v) mod 2 ^ (8 * len v)).
Proof.
  intros Hbs rb L.
  split; [| split; [| split; [| split; [| split; [| split]]]]].
  - rewrite gensubkeys_spec by exact Hbs. reflexivity.
  - intros v Hv. unfold double, msb. destruct v as [| a r]; [discriminate |].
    change (Z.testbit (byte_to_Z a) 7 = true) in Hv. rewrite Hv. reflexivity.
  - intros v Hv. unfold double, msb. destruct v as [| a r]; [reflexivity |].
    change (Z.testbit (byte_to_Z a) 7 = false) in Hv. rewrite Hv. reflexivity.
  - intros s z. apply xor_last_snoc.
  - intros v i a. apply lookup_shift_left_1.
  - apply length_shift_left_1.
  - apply be_value_shift_left_1.
Qed.

Lemma C3_witness :
  (BlockSize (aes128 rfc4493_key) = 8 \/ BlockSize (aes128 rfc4493_key) = 16) /\
  gensubkeys (aes128 rfc4493_key)
  = (Ret (bytes_of [0xfb; 0xee; 0xd6; 0x18; 0x35; 0x71; 0x33; 0x66;
                    0x7c; 0x85; 0xe0; 0x8f; 0x72; 0x36; 0xa8; 0xde],
          bytes_of [0xf7; 0xdd; 0xac; 0x30; 0x6a; 0xe2; 0x66; 0xcc;
                    0xf9; 0x0b; 0xc1; 0x1e; 0xe4; 0x6d; 0x51; 0x3b]),
     [bytes_of [0; 0; 0; 0; 0; 0; 0; 0; 0; 0; 0; 0; 0; 0; 0; 0]]).
Proof.
  split; [right; reflexivity |].
  destruct (C3_subkey_derivation (aes128 rfc4493_key)) as (H & _); [right; reflexivity |].
  rewrite H. vm_compute. reflexivity.
Defined.

(** * The cursor-based engine: what the code computes *)

Lemma bxor_comm a b : bxor a b = bxor b a.
Proof. unfold bxor. rewrite Z.lxor_comm. reflexivity. Qed.

Lemma xor_bytes_comm a b : xor_bytes a b = xor_bytes b a.
Proof.
  unfold xor_bytes. revert b. induction a as [| u a IH]; intros [| v b]; cbn; try reflexivity.
  rewrite bxor_comm, IH. reflexivity.
Qed.

Lemma xor_bytes_zeros_l k l :
  length l = k -> xor_bytes (replicate k Byte.x00) l = l.
Proof.
  unfold xor_bytes. revert k. induction l as [| v l IH]; intros [| k] H; try discriminate.
  - reflexivity.
  - cbn. rewrite bxor_x00_l, IH by (simpl in H; lia). reflexivity.
Qed.

(** The loop [for i := 0; i < k; i++ { s[i] = A[i] ^ B[i] }]. *)
Lemma for_loop_xor_prefix (A B s : list byte) (k : nat) :
  (k <= length s)%nat -> (k <= length A)%nat -> (k <= length B)%nat ->
  for_loop 0 k (fun i t =>
    a <- index A i ;; b <- index B i ;; store t i (bxor a b)) s
  = ret (xor_bytes (take k A) (take k B) ++ drop k s).
Proof.
  intros Hs HA HB.
  pose proof (for_loop_writes
    (fun i t => a <- index A i ;; b <- index B i ;; store t i (bxor a b))
    (take k s) (xor_bytes (take k A) (take k B)) [] (drop k s)) as H.
  rewrite length_take, Nat.min_l in H by lia.
  cbn [app length] in H. rewrite take_drop in H. apply H; clear H.
  - rewrite length_xor_bytes; rewrite !length_take; lia.
  - intros j r v Hr Hv. cbn [app Nat.add].
    unfold xor_bytes in *. apply lookup_zip_with_Some in Hv as (a & b & -> & Ha & Hb).
    pose proof (lookup_lt_Some _ _ _ Ha) as Hj. rewrite length_take in Hj.
    rewrite lookup_take_lt in Ha, Hb by lia.
    rewrite (index_Some _ _ _ Ha), bind_ret_l, (index_Some _ _ _ Hb), bind_ret_l.
    rewrite (drop_S _ _ _ Hr), <- app_comm_cons.
    rewrite store_mid.
    + erewrite take_S_r
        by (apply lookup_zip_with_Some; exists a, b;
            rewrite !lookup_take_lt by lia; eauto).
      rewrite <- !app_assoc. reflexivity.
    + rewrite length_take, length_zip_with, !length_take. lia.
Qed.

(** The loop [for i := lo; i < len(s); i++ { s[i] = K[i] }]. *)
Lemma for_loop_fill (K s : list byte) (lo : nat) :
  length K = length s -> (lo <= length s)%nat ->
  for_loop lo (length s - lo) (fun i t => ki <- index K i ;; store t i ki) s
  = ret (take lo s ++ drop lo K).
Proof.
  intros HK Hlo.
  pose proof (for_loop_writes
    (fun i t => ki <- index K i ;; store t i ki)
    (drop lo s) (drop lo K) (take lo s) []) as H.
  rewrite length_take, Nat.min_l, !length_drop in H by lia.
  rewrite !app_nil_r, take_drop in H. apply H; clear H.
  - lia.
  - intros j r v Hr Hv. rewrite !app_nil_r.
    rewrite lookup_drop in Hv.
    rewrite (index_Some _ _ _ Hv), bind_ret_l.
    rewrite (drop_S _ _ _ Hr).
    rewrite app_assoc, store_mid.
    + rewrite (take_S_r _ _ v) by (rewrite lookup_drop; exact Hv).
      rewrite <- !app_assoc. reflexivity.
    + apply lookup_lt_Some in Hv. rewrite length_app, !length_take, length_drop. lia.
Qed.

Lemma Cursor_Reset_loop ci K1 K2 cur :
  forall (Bs Xs Pb Px : list byte),
    length Pb = length Px -> length Bs = length Xs ->
    for_loop (length Pb) (length Bs) Cursor.Reset_body
      {| Cursor.c := ci; Cursor.k1 := K1; Cursor.k2 := K2;
         Cursor.buf := Pb ++ Bs; Cursor.x := Px ++ Xs; Cursor.cursor := cur |}
    = ret {| Cursor.c := ci; Cursor.k1 := K1; Cursor.k2 := K2;
             Cursor.buf := Pb ++ replicate (length Bs) Byte.x00;
             Cursor.x := Px ++ replicate (length Xs) Byte.x00; Cursor.cursor := cur |}.
Proof.
  induction Bs as [| b0 Bs IH]; intros Xs Pb Px HP HR.
  - destruct Xs; [reflexivity | discriminate].
  - destruct Xs as [| x0 Xs]; [discriminate |].
    cbn [length]. rewrite for_loop_S.
    unfold Cursor.Reset_body at 1, Cursor.set_buf, Cursor.set_x.
    cbn [Cursor.buf Cursor.x Cursor.c Cursor.k1 Cursor.k2 Cursor.cursor].
    rewrite store_mid, bind_ret_l by reflexivity.
    rewrite store_mid, bind_ret_l by (symmetry; exact HP).
    rewrite bind_ret_l.
    replace (S (length Pb)) with (length (Pb ++ [Byte.x00]))
      by (rewrite length_app; simpl; lia).
    replace (Pb ++ Byte.x00 :: Bs) with ((Pb ++ [Byte.x00]) ++ Bs)
      by (rewrite <- app_assoc; reflexivity).
    replace (Px ++ Byte.x00 :: Xs) with ((Px ++ [Byte.x00]) ++ Xs)
      by (rewrite <- app_assoc; reflexivity).
    rewrite IH by (rewrite ?length_app; simpl in *; lia).
    rewrite <- !app_assoc. reflexivity.
Qed.

Lemma Cursor_Reset_spec (m : Cursor.cmac) :
  length (Cursor.buf m) = bsize (Cursor.c m) ->
  length (Cursor.x m) = bsize (Cursor.c m) ->
  Cursor.Reset m
  = ret {| Cursor.c := Cursor.c m; Cursor.k1 := Cursor.k1 m; Cursor.k2 := Cursor.k2 m;
           Cursor.buf := zero_block (Cursor.c m); Cursor.x := zero_block (Cursor.c m);
           Cursor.cursor := 0 |}.
Proof.
  intros Hb Hx. unfold Cursor.Reset. fold Cursor.Reset_body. fold (bsize (Cursor.c m)).
  destruct m as [ci K1 K2 bufc X cur]. cbn [Cursor.c Cursor.buf Cursor.x] in *.
  pose proof (Cursor_Reset_loop ci K1 K2 cur bufc X [] [] eq_refl) as H.
  cbn [app length] in H. rewrite Hb, Hx in H. rewrite H by reflexivity.
  rewrite bind_ret_l. reflexivity.
Qed.

Lemma Cursor_newcmac_spec (ci : Block) :
  BlockSize ci = 8 \/ BlockSize ci = 16 ->
  Cursor.newcmac ci = (Ret (freshC ci), [zero_block ci]).
Proof.
  intros Hbs. unfold Cursor.newcmac.
  erewrite bind_Ret by (apply gensubkeys_spec; exact Hbs).
  rewrite make_nonneg by lia. rewrite !bind_ret_l.
  fold (zero_block ci).
  rewrite Cursor_Reset_spec by (cbn [Cursor.c Cursor.buf Cursor.x]; apply length_zero_block).
  reflexivity.
Qed.

Lemma wfC_freshC ci : BlockSize ci = 8 \/ BlockSize ci = 16 -> wfC (freshC ci).
Proof.
  intros Hbs.
  split; cbn [freshC Cursor.c Cursor.k1 Cursor.k2 Cursor.x Cursor.buf Cursor.cursor].
  - exact Hbs.
  - apply length_subkey_K1.
  - apply length_subkey_K2.
  - apply length_zero_block.
  - apply length_zero_block.
  - lia.
Qed.

Lemma Cursor_Sum_spec (m : Cursor.cmac) (b : list byte) :
  wfC m ->
  Cursor.Sum m b
  = (Ret (m, b ++ final_tag (Cursor.c m) (Cursor.k1 m) (Cursor.k2 m)
                    (take (Cursor.cursor m) (Cursor.buf m)) (Cursor.x m)),
     [xor_bytes (final_block (bsize (Cursor.c m)) (Cursor.k1 m) (Cursor.k2 m)
                   (take (Cursor.cursor m) (Cursor.buf m)))
                (Cursor.x m)]).
Proof.
  intros [Hbs Hk1 Hk2 Hx Hb Hcur]. unfold Cursor.Sum.
  set (n := bsize (Cursor.c m)) in *.
  assert (Hscratch :
    (if decide (BlockSize (Cursor.c m) = 8) then ret (replicate 8 Byte.x00)
     else if decide (BlockSize (Cursor.c m) = 16) then ret (replicate 16 Byte.x00)
     else panic "unexpected block size")
    = ret (replicate n Byte.x00)).
  { subst n. unfold bsize. destruct Hbs as [E | E]; rewrite E; reflexivity. }
  rewrite Hscratch, bind_ret_l. clear Hscratch.
  assert (Hz : length (replicate n Byte.x00) = n) by apply length_replicate.
  unfold final_tag, final_block. fold n.
  set (cur := Cursor.cursor m) in *.
  assert (Htake : length (take cur (Cursor.buf m)) = cur)
    by (rewrite length_take; lia).
  rewrite Htake.
  destruct (decide (cur = n)) as [E | NE].
  - rewrite decide_True by (subst n; unfold bsize in *; lia).
    rewrite for_range_xor_from, bind_ret_l by lia.
    rewrite for_range_xor_inplace, bind_ret_l by (rewrite length_xor_bytes; lia).
    rewrite E, take_ge by lia. reflexivity.
  - rewrite decide_False by (subst n; unfold bsize in *; lia).
    rewrite for_loop_xor_prefix, bind_ret_l by lia.
    destruct (lookup_lt_is_Some_2 (Cursor.k2 m) cur) as [kc Hkc]; [lia |].
    rewrite (index_Some _ _ _ Hkc), bind_ret_l.
    rewrite drop_replicate.
    replace (n - cur)%nat with (S (n - cur - 1)) by lia. cbn [replicate].
    rewrite store_mid, bind_ret_l
      by (rewrite length_xor_bytes; rewrite !length_take; lia).
    set (s2 := xor_bytes (take cur (Cursor.buf m)) (take cur (Cursor.k2 m))
               ++ bxor Byte.x80 kc :: replicate (n - cur - 1) Byte.x00).
    assert (Hs2 : length s2 = n).
    { subst s2. rewrite length_app, length_xor_bytes by (rewrite !length_take; lia).
      cbn [length]. rewrite length_take, length_replicate. lia. }
    replace (length (Cursor.buf m) - (cur + 1))%nat with (length s2 - (cur + 1))%nat by lia.
    rewrite for_loop_fill, bind_ret_l by lia.
    assert (Hlast :
      take (cur + 1) s2 ++ drop (cur + 1) (Cursor.k2 m)
      = xor_bytes (pad n (take cur (Cursor.buf m))) (Cursor.k2 m)).
    { subst s2. unfold pad. rewrite Htake.
      rewrite <- (take_drop cur (Cursor.k2 m)) at 3.
      rewrite (drop_S _ _ _ Hkc).
      unfold xor_bytes. rewrite zip_with_app by (rewrite !length_take; lia).
      cbn [zip_with]. fold (xor_bytes (replicate (n - cur - 1) Byte.x00)
                              (drop (S cur) (Cursor.k2 m))).
      rewrite xor_bytes_zeros_l by (rewrite length_drop; lia).
      replace (cur + 1)%nat with (S cur) by lia.
      rewrite take_app_ge by (rewrite length_zip_with, !length_take; lia).
      rewrite length_zip_with, !length_take.
      replace (S cur - (cur `min` length (Cursor.buf m)) `min` (cur `min` length (Cursor.k2 m)))%nat
        with 1%nat by lia.
      cbn [firstn]. rewrite <- app_assoc. reflexivity. }
    rewrite Hlast.
    rewrite for_range_xor_inplace, bind_ret_l
      by (rewrite length_xor_bytes; rewrite length_pad; lia).
    reflexivity.
Qed.

(** After [copy(buf, b)] the first [cursor] bytes of the buffer followed by
    the bytes of [b] not yet copied are [b] again. *)
Lemma copy_then_rest (dst b : list byte) :
  take (snd (copy dst b)) (fst (copy dst b)) ++ drop (snd (copy dst b)) b = b.
Proof.
  unfold copy. cbn [fst snd].
  destruct (decide (length dst <= length b)%nat) as [Hle | Hgt].
  - rewrite Nat.min_l by lia.
    rewrite take_app_le by (rewrite length_take; lia).
    rewrite take_take, Nat.min_id. apply take_drop.
  - rewrite Nat.min_r by lia.
    rewrite (take_ge b) by lia.
    rewrite take_app_length, drop_all. apply app_nil_r.
Qed.

Lemma Cursor_Write_loop_spec (ci : Block) :
  (0 < bsize ci)%nat ->
  forall fuel K1 K2 bufc X cur b t g,
    length bufc = bsize ci -> length X = bsize ci -> (cur <= bsize ci)%nat ->
    (b <> [] -> cur = bsize ci) ->
    (length b <= fuel)%nat -> (length (take cur bufc ++ b) <= g)%nat ->
    exists tr bufc',
      Cursor.Write_loop fuel
        {| Cursor.c := ci; Cursor.k1 := K1; Cursor.k2 := K2;
           Cursor.buf := bufc; Cursor.x := X; Cursor.cursor := cur |} b
      = (Ret {| Cursor.c := ci; Cursor.k1 := K1; Cursor.k2 := K2;
                Cursor.buf := bufc';
                Cursor.x := (absorb ci g (X, t, take cur bufc ++ b)).1.1;
                Cursor.cursor := length (absorb ci g (X, t, take cur bufc ++ b)).2 |}, tr) /\
      length bufc' = bsize ci /\
      take (length (absorb ci g (X, t, take cur bufc ++ b)).2) bufc'
      = (absorb ci g (X, t, take cur bufc ++ b)).2.
Proof.
  intros Hpos.
  assert (Hstop : forall fuel K1 K2 bufc X cur t g,
    length bufc = bsize ci -> (cur <= bsize ci)%nat ->
    exists tr bufc',
      Cursor.Write_loop fuel
        {| Cursor.c := ci; Cursor.k1 := K1; Cursor.k2 := K2;
           Cursor.buf := bufc; Cursor.x := X; Cursor.cursor := cur |} []
      = (Ret {| Cursor.c := ci; Cursor.k1 := K1; Cursor.k2 := K2;
                Cursor.buf := bufc';
                Cursor.x := (absorb ci g (X, t, take cur bufc ++ [])).1.1;
                Cursor.cursor := length (absorb ci g (X, t, take cur bufc ++ [])).2 |}, tr) /\
      length bufc' = bsize ci /\
      take (length (absorb ci g (X, t, take cur bufc ++ [])).2) bufc'
      = (absorb ci g (X, t, take cur bufc ++ [])).2).
  { intros fuel K1 K2 bufc X cur t g Hb Hc.
    exists [], bufc. rewrite app_nil_r.
    rewrite (absorb_stop ci Hpos) by (rewrite length_take; lia). cbn [fst snd].
    rewrite length_take, Nat.min_l by lia.
    split; [| split; [exact Hb | reflexivity]].
    destruct fuel; cbn [Cursor.Write_loop];
      rewrite decide_False by (unfold len; simpl; lia); reflexivity. }
  induction fuel as [| fuel IH]; intros K1 K2 bufc X cur b t g Hb HX Hc Hfull Hfuel Hg.
  - destruct b; [| simpl in Hfuel; lia]. apply Hstop; assumption.
  - destruct b as [| b0 b']; [apply Hstop; assumption |].
    set (b := b0 :: b') in *.
    assert (Ecur : cur = bsize ci) by (apply Hfull; discriminate).
    subst cur. rewrite take_ge in * by lia.
    rewrite length_app in Hg.
    destruct g as [| g]; [lia |].
    rewrite (absorb_step ci Hpos) by (rewrite length_app; subst b; simpl; lia).
    rewrite take_app_length', drop_app_length' by (symmetry; exact Hb).
    cbn [Cursor.Write_loop]. rewrite decide_True by (unfold len; subst b; simpl; lia).
    cbn [Cursor.buf Cursor.x Cursor.c Cursor.set_buf Cursor.set_x Cursor.set_cursor
         Cursor.cursor Cursor.k1 Cursor.k2].
    rewrite for_range_xor_inplace, bind_ret_l by lia.
    unfold Encrypt. erewrite bind_Ret by reflexivity.
    cbn [res calls fst snd].
    fold (encrypted ci X (xor_bytes bufc X)).
    set (r := copy (xor_bytes bufc X) b).
    assert (Hr1 : length (fst r) = bsize ci)
      by (subst r; rewrite copy_length, length_xor_bytes; lia).
    assert (Hr2 : (snd r <= bsize ci)%nat)
      by (subst r; unfold copy; cbn [snd]; rewrite length_xor_bytes; lia).
    assert (Hr3 : drop (snd r) b <> [] -> snd r = bsize ci).
    { intros Hne. subst r. unfold copy in *. cbn [snd] in *.
      rewrite length_xor_bytes in * by lia.
      destruct (decide (bsize ci <= length b)%nat); [lia |].
      exfalso. apply Hne. apply drop_ge. lia. }
    unfold chain. rewrite (xor_bytes_comm X bufc).
    destruct (IH K1 K2 (fst r) (encrypted ci X (xor_bytes bufc X)) (snd r)
                (drop (snd r) b) (xor_bytes bufc X) g)
      as (tr & bufc' & Hloop & Hlen & Htake); try assumption.
    + rewrite length_encrypted. exact HX.
    + rewrite length_drop. subst r. unfold copy. cbn [snd].
      rewrite length_xor_bytes by lia. subst b. cbn [length] in *. lia.
    + subst r. rewrite copy_then_rest. lia.
    + subst r. rewrite copy_then_rest in *.
      exists (xor_bytes bufc X :: tr), bufc'.
      split; [| split; [exact Hlen | exact Htake]].
      unfold Cursor.set_cursor, Cursor.set_buf, Cursor.set_x.
      cbn [Cursor.buf Cursor.x Cursor.c Cursor.cursor Cursor.k1 Cursor.k2].
      rewrite Hloop. reflexivity.
Qed.

Lemma wf_abstraction t m : wfC m -> length t = bsize (Cursor.c m) -> wf (abstraction t m).
Proof.
  intros [Hbs H1 H2 Hx Hb Hc] Ht.
  split; cbn [abstraction Append.c Append.k1 Append.k2 Append.x Append.tmp Append.buf];
    try assumption.
  rewrite length_take. lia.
Qed.

(** One [Write] of the cursor-based engine is one [Write] of the
    append-based engine on the state it stands for. *)
Lemma Cursor_Write_spec (m : Cursor.cmac) (b t : list byte) :
  wfC m -> length t = bsize (Cursor.c m) ->
  exists tr m' t',
    Cursor.Write m b = (Ret (m', (len b, None)), tr) /\
    wfC m' /\ length t' = bsize (Cursor.c m') /\
    abstraction t' m' = written (abstraction t m) (Append.buf (abstraction t m) ++ b).
Proof.
  intros [Hbs H1 H2 Hx Hb Hc] Ht.
  destruct m as [ci K1 K2 bufc X cur].
  cbn [Cursor.c Cursor.k1 Cursor.k2 Cursor.buf Cursor.x Cursor.cursor] in *.
  assert (Hpos : (0 < bsize ci)%nat) by (unfold bsize; lia).
  unfold Cursor.Write, Cursor.copy_at.
  cbn [Cursor.c Cursor.k1 Cursor.k2 Cursor.buf Cursor.x Cursor.cursor].
  rewrite decide_True by lia. rewrite bind_ret_l. cbn [fst snd].
  unfold Cursor.set_cursor, Cursor.set_buf.
  cbn [Cursor.c Cursor.k1 Cursor.k2 Cursor.buf Cursor.x Cursor.cursor].
  set (r := copy (drop cur bufc) b).
  assert (Hr1 : length (fst r) = (bsize ci - cur)%nat)
    by (subst r; rewrite copy_length, length_drop; lia).
  assert (Hr2 : snd r = Nat.min (bsize ci - cur) (length b))
    by (subst r; unfold copy; cbn [snd]; rewrite length_drop; lia).
  assert (E : take (cur + snd r) (take cur bufc ++ fst r) ++ drop (snd r) b
              = take cur bufc ++ b).
  { rewrite take_app_ge by (rewrite length_take; lia).
    rewrite length_take, Nat.min_l by lia.
    replace (cur + snd r - cur)%nat with (snd r) by lia.
    rewrite <- app_assoc. subst r. rewrite copy_then_rest. reflexivity. }
  destruct (Cursor_Write_loop_spec ci Hpos (length (drop (snd r) b)) K1 K2
              (take cur bufc ++ fst r) X (cur + snd r) (drop (snd r) b) t
              (length (take cur bufc ++ b)))
    as (tr & bufc' & Hloop & Hlen & Htake).
  - rewrite length_app, length_take. lia.
  - exact Hx.
  - lia.
  - intros Hne. destruct (decide (bsize ci - cur <= length b)%nat); [lia |].
    exfalso. apply Hne, drop_ge. lia.
  - lia.
  - rewrite E. lia.
  - rewrite E in *.
    set (s := absorb ci (length (take cur bufc ++ b)) (X, t, take cur bufc ++ b)) in *.
    destruct (absorb_lengths ci Hpos (length (take cur bufc ++ b)) X t (take cur bufc ++ b)
                Hx Ht) as [HX' Ht'].
    destruct (absorb_pending ci Hpos (length (take cur bufc ++ b)) X t (take cur bufc ++ b)
                (Nat.le_refl _)) as (Hd' & _ & _).
    fold s in HX', Ht', Hd'. cbn zeta in Hd'.
    eexists tr, _, (s.1.2).
    split; [| split; [| split]].
    + erewrite bind_Ret by exact Hloop. cbn [res calls ret fst snd].
      rewrite app_nil_r. reflexivity.
    + split; cbn [Cursor.c Cursor.k1 Cursor.k2 Cursor.buf Cursor.x Cursor.cursor];
        assumption.
    + exact Ht'.
    + unfold abstraction, written, absorbed.
      cbn [Cursor.c Cursor.k1 Cursor.k2 Cursor.buf Cursor.x Cursor.cursor
           Append.c Append.k1 Append.k2 Append.buf Append.x Append.tmp snd].
      fold s. rewrite Htake. reflexivity.
Qed.

Lemma Cursor_writes_spec chunks :
  forall (m : Cursor.cmac) (t : list byte),
    wfC m -> length t = bsize (Cursor.c m) ->
    exists tr m' t',
      writes m chunks = (Ret m', tr) /\
      wfC m' /\
      abstraction t' m'
      = written (abstraction t m) (Append.buf (abstraction t m) ++ concat chunks).
Proof.
  induction chunks as [| ch rest IH]; intros m t Hwf Ht.
  - exists [], m, t. split; [reflexivity | split; [exact Hwf |]].
    cbn [concat]. rewrite app_nil_r, written_pending by (apply wf_abstraction; assumption).
    reflexivity.
  - destruct (Cursor_Write_spec m ch t Hwf Ht) as (tr1 & m1 & t1 & Hw & Hwf1 & Ht1 & Habs1).
    destruct (IH m1 t1 Hwf1 Ht1) as (tr2 & m2 & t2 & Hws & Hwf2 & Habs2).
    exists (tr1 ++ tr2), m2, t2.
    split; [| split; [exact Hwf2 |]].
    + cbn [writes hash_Write Cursor_Hash]. erewrite bind_Ret by exact Hw.
      cbn [fst]. rewrite Hws. reflexivity.
    + rewrite Habs2, Habs1. cbn [concat].
      rewrite written_written by (apply wf_abstraction; assumption).
      rewrite <- app_assoc. reflexivity.
Qed.

(** The tag of the cursor-based engine after any chunks is the tag of the
    append-based engine on the state it stands for. *)
Lemma Cursor_mac_after m t chunks :
  wfC m -> length t = bsize (Cursor.c m) ->
  res (mac_after m chunks) = res (mac_after (abstraction t m) chunks).
Proof.
  intros Hwf Ht.
  rewrite (mac_after_spec (abstraction t m)) by (apply wf_abstraction; assumption).
  destruct (Cursor_writes_spec chunks m t Hwf Ht) as (tr & m' & t' & Hws & Hwf' & Habs).
  unfold mac_after. erewrite bind_Ret by exact Hws.
  cbn [res fst hash_Sum Cursor_Hash]. rewrite res_bind.
  rewrite Cursor_Sum_spec by exact Hwf'. cbn [res fst snd ret].
  cbn zeta. rewrite <- Habs. reflexivity.
Qed.

(** * The two engines side by side *)

Lemma Cursor_NewWithCipher_ok (ci : Block) :
  BlockSize ci = 8 \/ BlockSize ci = 16 ->
  Cursor.NewWithCipher ci = (Ret (Some (freshC ci), None), [zero_block ci]).
Proof.
  intros Hbs. unfold Cursor.NewWithCipher. rewrite decide_True by exact Hbs.
  erewrite bind_Ret by (apply Cursor_newcmac_spec; exact Hbs). reflexivity.
Qed.

Lemma abstraction_freshC ci : abstraction (zero_block ci) (freshC ci) = fresh ci.
Proof. reflexivity. Qed.

(** C9: the cursor-based engine and the append-based engine are
    equivalent.  For every cipher and every sequence of chunks written,
    constructing, writing the chunks and calling [Sum] gives the same
    outcome in both (the same tag for block sizes 8 and 16, the same error
    otherwise); more generally a cursor-based state and the append-based
    state that holds its first [cursor] buffer bytes as pending bytes give
    the same tag after any further chunks. *)
Theorem C9_cursor_engine_equivalent :
  (forall (ci : Block) (chunks : list (list byte)),
     res (Cursor_digest ci chunks) = res (Append_digest ci chunks)) /\
  (forall (ci : Block) (chunks : list (list byte)),
     BlockSize ci = 8 \/ BlockSize ci = 16 ->
     exists tag,
       res (Cursor_digest ci chunks) = Ret (Some tag, None) /\
       res (Append_digest ci chunks) = Ret (Some tag, None)) /\
  (forall (m : Cursor.cmac) (t : list byte) (chunks : list (list byte)),
     wfC m -> length t = bsize (Cursor.c m) ->
     res (mac_after m chunks) = res (mac_after (abstraction t m) chunks)).
Proof.
  assert (Hok : forall ci chunks,
    BlockSize ci = 8 \/ BlockSize ci = 16 ->
    exists tag,
      res (Cursor_digest ci chunks) = Ret (Some tag, None) /\
      res (Append_digest ci chunks) = Ret (Some tag, None)).
  { intros ci chunks Hbs.
    pose proof (mac_after_spec (fresh ci) chunks (wf_fresh ci Hbs)) as Ha.
    cbn zeta in Ha.
    pose proof (Cursor_mac_after (freshC ci) (zero_block ci) chunks (wfC_freshC ci Hbs)
                  (length_zero_block ci)) as Hc.
    rewrite abstraction_freshC, Ha in Hc.
    eexists. split.
    - unfold Cursor_digest. erewrite bind_Ret by (apply Cursor_NewWithCipher_ok; exact Hbs).
      cbn [res fst]. rewrite res_bind, Hc. reflexivity.
    - unfold Append_digest. erewrite bind_Ret by (apply NewWithCipher_ok; exact Hbs).
      cbn [res fst]. rewrite res_bind, Ha. reflexivity. }
  split; [| split; [exact Hok |]].
  - intros ci chunks.
    destruct (decide (BlockSize ci = 8 \/ BlockSize ci = 16)) as [Hbs | Hbs].
    + destruct (Hok ci chunks Hbs) as (tag & -> & ->). reflexivity.
    + unfold Cursor_digest, Append_digest, Cursor.NewWithCipher, Append.NewWithCipher.
      rewrite !decide_False by exact Hbs. reflexivity.
  - intros m t chunks. apply Cursor_mac_after.
Qed.

Lemma C9_witness :
  exists tag,
    res (Cursor_digest (demo_cipher 16)
           [bytes_of [1; 2; 3]; bytes_of [4; 5; 6; 7; 8; 9; 10; 11; 12; 13; 14; 15; 16]; bytes_of [17]])
    = Ret (Some tag, None) /\
    res (Append_digest (demo_cipher 16)
           [bytes_of [1; 2; 3]; bytes_of [4; 5; 6; 7; 8; 9; 10; 11; 12; 13; 14; 15; 16]; bytes_of [17]])
    = Ret (Some tag, None).
Proof.
  apply (proj1 (proj2 C9_cursor_engine_equivalent) (demo_cipher 16)).
  right. reflexivity.
Defined.


(** * Known answers: the examples of RFC 4493 *)

(** The engines run on AES-128 with the key of RFC 4493 give the published
    tags: the empty message, one block, two blocks and a half, and four
    blocks, written at once or in chunks. *)

Example fips197_appendix_B :
  aes128_encrypt
    [0x2b; 0x7e; 0x15; 0x16; 0x28; 0xae; 0xd2; 0xa6; 0xab; 0xf7; 0x15; 0x88; 0x09; 0xcf; 0x4f; 0x3c]
    [0x32; 0x43; 0xf6; 0xa8; 0x88; 0x5a; 0x30; 0x8d; 0x31; 0x31; 0x98; 0xa2; 0xe0; 0x37; 0x07; 0x34]
  = [0x39; 0x25; 0x84; 0x1d; 0x02; 0xdc; 0x09; 0xfb; 0xdc; 0x11; 0x85; 0x97; 0x19; 0x6a; 0x0b; 0x32].
Proof. vm_compute. reflexivity. Qed.

Example rfc4493_example_1 :
  let tag := bytes_of [0xbb; 0x1d; 0x69; 0x29; 0xe9; 0x59; 0x37; 0x28;
                       0x7f; 0xa3; 0x7d; 0x12; 0x9b; 0x75; 0x67; 0x46] in
  res (Append_digest (aes128 rfc4493_key) []) = Ret (Some tag, None) /\
  res (Cursor_digest (aes128 rfc4493_key) [[]]) = Ret (Some tag, None).
Proof. split; vm_compute; reflexivity. Qed.

Example rfc4493_example_2 :
  let tag := bytes_of [0x07; 0x0a; 0x16; 0xb4; 0x6b; 0x4d; 0x41; 0x44;
                       0xf7; 0x9b; 0xdd; 0x9d; 0xd0; 0x4a; 0x28; 0x7c] in
  res (Append_digest (aes128 rfc4493_key) [take 16 rfc4493_message]) = Ret (Some tag, None) /\
  res (Cursor_digest (aes128 rfc4493_key) [take 16 rfc4493_message]) = Ret (Some tag, None).
Proof. split; vm_compute; reflexivity. Qed.

Example rfc4493_example_3 :
  let tag := bytes_of [0xdf; 0xa6; 0x67; 0x47; 0xde; 0x9a; 0xe6; 0x30;
                       0x30; 0xca; 0x32; 0x61; 0x14; 0x97; 0xc8; 0x27] in
  res (Append_digest (aes128 rfc4493_key) [take 40 rfc4493_message]) = Ret (Some tag, None) /\
  res (Cursor_digest (aes128 rfc4493_key)
         [take 15 rfc4493_message; take 2 (drop 15 rfc4493_message);
          take 23 (drop 17 rfc4493_message)])
  = Ret (Some tag, None).
Proof. split; vm_compute; reflexivity. Qed.

Example rfc4493_example_4 :
  let tag := bytes_of [0x51; 0xf0; 0xbe; 0xbf; 0x7e; 0x3b; 0x9d; 0x92;
                       0xfc; 0x49; 0x74; 0x17; 0x79; 0x36; 0x3c; 0xfe] in
  res (Append_digest (aes128 rfc4493_key) [rfc4493_message]) = Ret (Some tag, None) /\
  res (Append_digest (aes128 rfc4493_key)
         [take 16 rfc4493_message; take 17 (drop 16 rfc4493_message);
          drop 33 rfc4493_message])
  = Ret (Some tag, None) /\
  res (Cursor_digest (aes128 rfc4493_key)
         [take 32 rfc4493_message; drop 32 rfc4493_message])
  = Ret (Some tag, None).
Proof. repeat split; vm_compute; reflexivity. Qed.

(** * Beyond the claims: the cipher calls of [Write] *)

Lemma Write_loop_full (ci : Block) :
  (0 < bsize ci)%nat ->
  forall fuel K1 K2 pending X t d,
    length X = bsize ci -> length t = bsize ci -> (length d <= fuel)%nat ->
    Append.Write_loop fuel
      {| Append.c := ci; Append.k1 := K1; Append.k2 := K2;
         Append.buf := pending; Append.x := X; Append.tmp := t |} d
    = (Ret ({| Append.c := ci; Append.k1 := K1; Append.k2 := K2;
               Append.buf := pending;
               Append.x := (absorb ci fuel (X, t, d)).1.1;
               Append.tmp := (absorb ci fuel (X, t, d)).1.2 |},
            (absorb ci fuel (X, t, d)).2),
       absorb_calls ci fuel X d).
Proof.
  intros Hpos.
  induction fuel as [| fuel IH]; intros K1 K2 pending X t d HX Ht Hd.
  - destruct d; [| simpl in Hd; lia].
    cbn [Append.Write_loop absorb absorb_calls Append.c].
    rewrite decide_False by (unfold len, bsize in *; simpl; lia).
    rewrite !decide_False by (simpl; lia). reflexivity.
  - cbn [Append.Write_loop absorb absorb_calls Append.c].
    destruct (decide (bsize ci < length d)%nat) as [Hgt | Hle].
    + rewrite decide_True by (unfold len, bsize in *; lia).
      unfold slice_to, slice_from.
      rewrite !decide_True by (unfold len, bsize in *; lia).
      fold (bsize ci).
      rewrite bind_ret_l.
      rewrite block_spec
        by (cbn [Append.x Append.tmp]; rewrite ?length_take; lia).
      cbn [Append.c Append.k1 Append.k2 Append.buf Append.x Append.tmp].
      erewrite bind_Ret by reflexivity.
      rewrite bind_ret_l.
      rewrite IH;
        [reflexivity
        | rewrite length_chain; exact HX
        | rewrite length_xor_bytes; rewrite ?length_take; lia
        | rewrite length_drop; lia].
    + rewrite decide_False by (unfold len, bsize in *; lia). reflexivity.
Qed.

Lemma Write_full (m : Append.cmac) (b : list byte) :
  wf m ->
  Append.Write m b
  = (Ret (written m (Append.buf m ++ b), (len b, None)),
     absorb_calls (Append.c m) (length (Append.buf m ++ b)) (Append.x m) (Append.buf m ++ b)).
Proof.
  intros [Hbs _ _ Hx Ht _]. destruct m as [ci K1 K2 pending X t].
  cbn [Append.c Append.x Append.tmp Append.buf] in *.
  assert (Hpos : (0 < bsize ci)%nat) by (unfold bsize; lia).
  unfold Append.Write. cbn [Append.buf].
  erewrite bind_Ret
    by (apply (Write_loop_full ci Hpos (length (pending ++ b)) K1 K2 pending X t (pending ++ b));
        [assumption | assumption | lia]).
  cbn [res calls ret fst snd]. rewrite app_nil_r. reflexivity.
Qed.

Section AbsorbCalls.
Variable ci : Block.
Hypothesis Hpos : (0 < bsize ci)%nat.

Lemma absorb_calls_stop fuel X d :
  (length d <= bsize ci)%nat -> absorb_calls ci fuel X d = [].
Proof.
  intros H. destruct fuel; cbn [absorb_calls]; rewrite decide_False by lia; reflexivity.
Qed.

Lemma absorb_calls_step fuel X d :
  (bsize ci < length d)%nat ->
  absorb_calls ci (S fuel) X d
  = xor_bytes X (take (bsize ci) d)
    :: absorb_calls ci fuel (chain ci X (take (bsize ci) d)) (drop (bsize ci) d).
Proof. intros H. cbn [absorb_calls]. rewrite decide_True by lia. reflexivity. Qed.

Lemma absorb_calls_fuel f1 :
  forall f2 X d,
    (length d <= f1)%nat -> (length d <= f2)%nat ->
    absorb_calls ci f1 X d = absorb_calls ci f2 X d.
Proof.
  induction f1 as [| f1 IH]; intros f2 X d H1 H2.
  - rewrite !absorb_calls_stop by lia. reflexivity.
  - destruct (decide (bsize ci < length d)%nat) as [Hgt | Hle].
    + destruct f2 as [| f2]; [lia |].
      rewrite !absorb_calls_step by exact Hgt. f_equal.
      apply IH; rewrite length_drop; lia.
    + rewrite !absorb_calls_stop by lia. reflexivity.
Qed.

(** The calls for [d ++ e] are the calls for [d] followed by the calls for
    what [d] left pending with [e]. *)
Lemma absorb_calls_app f :
  forall g h X t d e,
    (length d <= f)%nat -> (length (d ++ e) <= g)%nat ->
    (length ((absorb ci f (X, t, d)).2 ++ e) <= h)%nat ->
    absorb_calls ci g X (d ++ e)
    = absorb_calls ci f X d
      ++ absorb_calls ci h (absorb ci f (X, t, d)).1.1 ((absorb ci f (X, t, d)).2 ++ e).
Proof.
  induction f as [| f IH]; intros g h X t d e Hf Hg Hh.
  - rewrite (absorb_stop ci Hpos 0 X t d) in * by lia.
    rewrite (absorb_calls_stop 0 X d) by lia. cbn [fst snd app] in *.
    apply absorb_calls_fuel; lia.
  - destruct (decide (bsize ci < length d)%nat) as [Hgt | Hle].
    + rewrite (absorb_step ci Hpos f X t d) in * by exact Hgt.
      rewrite (absorb_calls_step f X d) by exact Hgt.
      destruct g as [| g]; [rewrite length_app in Hg; lia |].
      rewrite absorb_calls_step by (rewrite length_app; lia).
      rewrite take_app_le, drop_app_le by lia.
      cbn [app]. f_equal.
      apply IH; [rewrite length_drop; lia | | exact Hh].
      rewrite length_app, length_drop. rewrite length_app in Hg. lia.
    + rewrite (absorb_stop ci Hpos (S f) X t d) in * by lia.
      rewrite (absorb_calls_stop (S f) X d) by lia. cbn [fst snd app] in *.
      apply absorb_calls_fuel; lia.
Qed.

(** Closed form of the drain loop: [blocks_before_last] chaining steps, one
    cipher call each on a full block, and the rest left pending. *)
Lemma absorb_closed_form f :
  forall X t d,
    length X = bsize ci -> (length d <= f)%nat ->
    (absorb ci f (X, t, d)).1.1 = cbc ci (blocks_before_last (bsize ci) d) X d /\
    (absorb ci f (X, t, d)).2 = drop (blocks_before_last (bsize ci) d * bsize ci) d /\
    length (absorb_calls ci f X d) = blocks_before_last (bsize ci) d /\
    Forall (fun blk => length blk = bsize ci) (absorb_calls ci f X d).
Proof.
  unfold blocks_before_last.
  induction f as [| f IH]; intros X t d HX Hf.
  - destruct d; [| simpl in Hf; lia].
    rewrite (absorb_stop ci Hpos), absorb_calls_stop by (simpl; lia).
    cbn [length Nat.sub]. rewrite Nat.Div0.div_0_l. cbn. auto.
  - destruct (decide (bsize ci < length d)%nat) as [Hgt | Hle].
    + rewrite (absorb_step ci Hpos), absorb_calls_step by assumption.
      assert (Hq : ((length d - 1) / bsize ci
                    = S ((length (drop (bsize ci) d) - 1) / bsize ci))%nat).
      { rewrite length_drop.
        replace (length d - 1)%nat with ((length d - bsize ci - 1) + 1 * bsize ci)%nat by lia.
        rewrite Nat.div_add by lia. lia. }
      rewrite Hq.
      destruct (IH (chain ci X (take (bsize ci) d)) (xor_bytes X (take (bsize ci) d))
                  (drop (bsize ci) d)) as (H1 & H2 & H3 & H4).
      { rewrite length_chain. exact HX. }
      { rewrite length_drop. lia. }
      cbn [cbc length]. rewrite H1, H2, H3.
      split; [reflexivity |]. split; [| split; [reflexivity |]].
      * rewrite drop_drop. f_equal; lia.
      * constructor; [| exact H4].
        rewrite length_xor_bytes; rewrite ?length_take; lia.
    + rewrite (absorb_stop ci Hpos), absorb_calls_stop by lia.
      rewrite Nat.div_small by lia. cbn. auto.
Qed.
End AbsorbCalls.

Lemma writes_full chunks :
  forall m, wf m ->
    writes m chunks
    = (Ret (written m (Append.buf m ++ concat chunks)),
       absorb_calls (Append.c m) (length (Append.buf m ++ concat chunks))
         (Append.x m) (Append.buf m ++ concat chunks)).
Proof.
  induction chunks as [| ch rest IH]; intros m Hwf.
  - pose proof (wf_pos m Hwf) as Hpos. pose proof Hwf as [_ _ _ _ _ Hb].
    cbn [writes concat]. rewrite app_nil_r, written_pending by exact Hwf.
    rewrite absorb_calls_stop by assumption. reflexivity.
  - pose proof (wf_pos m Hwf) as Hpos.
    cbn [writes concat hash_Write Append_Hash].
    erewrite bind_Ret by (apply Write_full; exact Hwf). cbn [fst].
    rewrite IH by (apply wf_written; exact Hwf). cbn [res calls fst snd].
    rewrite written_written by exact Hwf. rewrite <- app_assoc.
    f_equal.
    rewrite (app_assoc (Append.buf m) ch (concat rest)).
    unfold written, absorbed.
    cbn [Append.c Append.k1 Append.k2 Append.x Append.tmp Append.buf snd].
    symmetry. apply (absorb_calls_app (Append.c m) Hpos); lia.
Qed.

Lemma written_same_stream m1 m2 d :
  Append.c m1 = Append.c m2 -> Append.x m1 = Append.x m2 ->
  Append.buf (written m1 d) = Append.buf (written m2 d) /\
  Append.x (written m1 d) = Append.x (written m2 d).
Proof.
  intros Ec Ex. unfold written, absorbed.
  cbn [Append.c Append.k1 Append.k2 Append.x Append.tmp Append.buf snd].
  rewrite Ec, Ex.
  destruct (absorb_tmp_irrelevant (Append.c m2) (length d) (Append.x m2)
              (Append.tmp m1) (Append.tmp m2) d) as [-> ->].
  auto.
Qed.

Lemma written_fresh_nil ci :
  BlockSize ci = 8 \/ BlockSize ci = 16 -> written (fresh ci) [] = fresh ci.
Proof. intros Hbs. exact (written_pending (fresh ci) (wf_fresh ci Hbs)). Qed.

(** A reachable state has the chaining value and the pending bytes that one
    [Write] of the accumulated message gives a new engine. *)
Lemma reachable_written ci msg m :
  reachable ci msg m ->
  Append.buf m = Append.buf (written (fresh ci) msg) /\
  Append.x m = Append.x (written (fresh ci) msg).
Proof.
  intros Hreach.
  induction Hreach as [m Hnew | msg m b m' r Hreach IH Hw | msg m b m' out Hreach IH Hs
                      | msg m m' Hreach IH Hr].
  - destruct (decide (BlockSize ci = 8 \/ BlockSize ci = 16)) as [Hbs | Hbs].
    + rewrite NewWithCipher_ok in Hnew by exact Hbs. injection Hnew as <-.
      rewrite (written_fresh_nil ci Hbs). auto.
    + rewrite NewWithCipher_invalid in Hnew by exact Hbs. discriminate.
  - pose proof (reachable_inv _ _ _ Hreach) as [Hwf Hc _ _ _ _ _].
    pose proof Hwf as [Hbs _ _ _ _ _]. rewrite Hc in Hbs.
    rewrite Write_full in Hw by exact Hwf. injection Hw as <- _.
    destruct IH as [IHb IHx].
    rewrite <- (written_written (fresh ci) msg b (wf_fresh ci Hbs)).
    rewrite IHb. apply written_same_stream; [exact Hc | exact IHx].
  - rewrite Sum_spec in Hs by (apply (reachable_inv _ _ _ Hreach)).
    injection Hs as <- _. exact IH.
  - pose proof (reachable_inv _ _ _ Hreach) as [Hwf Hc _ _ _ _ _].
    pose proof Hwf as [Hbs _ _ _ _ _].
    rewrite Reset_spec in Hr by lia. injection Hr as <-.
    rewrite Hc in Hbs.
    rewrite (written_fresh_nil ci Hbs).
    cbn [Append.buf Append.x fresh]. rewrite Hc. auto.
Qed.

Lemma reachable_closed_form ci msg m :
  reachable ci msg m ->
  Append.x m = cbc ci (blocks_before_last (bsize ci) msg) (zero_block ci) msg /\
  Append.buf m = drop (blocks_before_last (bsize ci) msg * bsize ci) msg.
Proof.
  intros Hreach.
  destruct (reachable_written _ _ _ Hreach) as [Hb Hx].
  pose proof (reachable_inv _ _ _ Hreach) as [Hwf Hc _ _ _ _ _].
  pose proof (wf_pos m Hwf) as Hpos. rewrite Hc in Hpos.
  destruct (absorb_closed_form ci Hpos (length msg) (zero_block ci) (zero_block ci) msg
              (length_zero_block ci) (Nat.le_refl _)) as (H1 & H2 & _).
  rewrite Hb, Hx. unfold written, absorbed.
  cbn [Append.c Append.x Append.tmp Append.buf fresh snd]. auto.
Qed.

Lemma Sum_cmac_of ci msg m out :
  reachable ci msg m ->
  res (Append.Sum m out) = Ret (m, out ++ cmac_of ci msg).
Proof.
  intros Hreach.
  destruct (reachable_closed_form _ _ _ Hreach) as [Hx Hb].
  pose proof (reachable_inv _ _ _ Hreach) as [Hwf Hc Hk1 Hk2 _ _ _].
  rewrite Sum_spec by exact Hwf. cbn [res fst].
  unfold cmac_of. rewrite Hc, Hk1, Hk2, Hx, Hb. reflexivity.
Qed.

(** X1: whatever sequence of [Write], [Sum] and [Reset] calls led to a
    state, the chaining value is the CBC chain over all blocks of the
    accumulated message but the last, the pending buffer is the rest of the
    message, and [Sum] appends the CMAC of the accumulated message (RFC 4493,
    section 2.4) to its argument. *)
Theorem X1_Sum_is_cmac_of_message
  (ci : Block) (msg : list byte) (m : Append.cmac) (out : list byte) :
  reachable ci msg m ->
  Append.x m = cbc ci (blocks_before_last (bsize ci) msg) (zero_block ci) msg /\
  Append.buf m = drop (blocks_before_last (bsize ci) msg * bsize ci) msg /\
  res (Append.Sum m out) = Ret (m, out ++ cmac_of ci msg).
Proof.
  intros Hreach.
  destruct (reachable_closed_form _ _ _ Hreach) as [Hx Hb].
  split; [exact Hx |]. split; [exact Hb |].
  apply Sum_cmac_of. exact Hreach.
Qed.

Lemma X1_witness :
  reachable (demo_cipher 8) [] (fresh (demo_cipher 8)) /\
  res (Append.Sum (fresh (demo_cipher 8)) (bytes_of [1; 2]))
  = Ret (fresh (demo_cipher 8), bytes_of [1; 2] ++ cmac_of (demo_cipher 8) []).
Proof.
  split; [exact reachable_demo_fresh |].
  exact (proj2 (proj2 (X1_Sum_is_cmac_of_message (demo_cipher 8) [] (fresh (demo_cipher 8))
                         (bytes_of [1; 2]) reachable_demo_fresh))).
Defined.

(** The function [cmac_of] on AES-128 gives the tags of RFC 4493. *)
Example cmac_of_rfc4493 :
  cmac_of (aes128 rfc4493_key) []
  = bytes_of [0xbb; 0x1d; 0x69; 0x29; 0xe9; 0x59; 0x37; 0x28;
              0x7f; 0xa3; 0x7d; 0x12; 0x9b; 0x75; 0x67; 0x46] /\
  cmac_of (aes128 rfc4493_key) (take 16 rfc4493_message)
  = bytes_of [0x07; 0x0a; 0x16; 0xb4; 0x6b; 0x4d; 0x41; 0x44;
              0xf7; 0x9b; 0xdd; 0x9d; 0xd0; 0x4a; 0x28; 0x7c] /\
  cmac_of (aes128 rfc4493_key) (take 40 rfc4493_message)
  = bytes_of [0xdf; 0xa6; 0x67; 0x47; 0xde; 0x9a; 0xe6; 0x30;
              0x30; 0xca; 0x32; 0x61; 0x14; 0x97; 0xc8; 0x27] /\
  cmac_of (aes128 rfc4493_key) rfc4493_message
  = bytes_of [0x51; 0xf0; 0xbe; 0xbf; 0x7e; 0x3b; 0x9d; 0x92;
              0xfc; 0x49; 0x74; 0x17; 0x79; 0x36; 0x3c; 0xfe].
Proof. repeat split; vm_compute; reflexivity. Qed.

Lemma blocks_before_last_pending n (msg : list byte) :
  (0 < n)%nat ->
  forall extra : nat,
    ((length (drop (blocks_before_last n msg * n) msg) + extra - 1) / n
     = (length msg + extra - 1) / n - blocks_before_last n msg)%nat.
Proof.
  intros Hn extra. unfold blocks_before_last. rewrite length_drop.
  set (q := ((length msg - 1) / n)%nat).
  assert (Hq : (q * n <= length msg - 1)%nat).
  { subst q. rewrite Nat.mul_comm. apply Nat.Div0.mul_div_le. }
  destruct (decide (length msg = 0)%nat) as [E | NE].
  - assert (q = 0)%nat as -> by (subst q; rewrite E; apply Nat.Div0.div_0_l).
    rewrite E. cbn [Nat.mul Nat.sub]. lia.
  - replace (length msg + extra - 1)%nat
      with ((length msg - q * n + extra - 1) + q * n)%nat by lia.
    rewrite Nat.div_add by lia. lia.
Qed.

(** X2: the cipher calls of a sequence of [Write]s do not depend on the
    chunking.  From any reachable state, writing chunks gives the same state
    and the same [Encrypt] calls in the same order as one [Write] of their
    concatenation; every call passes one full block; and after the writes
    the cipher has been called, in all, once for every block of the
    accumulated message but the last. *)
Theorem X2_cipher_calls_of_writes
  (ci : Block) (sofar : list byte) (m : Append.cmac) (chunks : list (list byte)) :
  reachable ci sofar m ->
  writes m chunks = writes m [concat chunks] /\
  Forall (fun src => length src = bsize ci) (calls (writes m chunks)) /\
  (length (calls (writes m chunks))
   = blocks_before_last (bsize ci) (sofar ++ concat chunks)
     - blocks_before_last (bsize ci) sofar)%nat.
Proof.
  intros Hreach.
  pose proof (reachable_inv _ _ _ Hreach) as [Hwf Hc _ _ _ _ _].
  pose proof (wf_pos m Hwf) as Hpos. pose proof Hwf as [_ _ _ Hx _ _].
  destruct (reachable_closed_form _ _ _ Hreach) as [_ Hb].
  rewrite Hc in *.
  rewrite !writes_full by exact Hwf. cbn [concat calls snd]. rewrite app_nil_r, Hc.
  split; [reflexivity |].
  destruct (absorb_closed_form ci Hpos (length (Append.buf m ++ concat chunks))
              (Append.x m) (Append.tmp m) (Append.buf m ++ concat chunks) Hx
              (Nat.le_refl _)) as (_ & _ & Hlen & Hall).
  split; [exact Hall |].
  rewrite Hlen. unfold blocks_before_last at 1. rewrite length_app, Hb.
  rewrite (blocks_before_last_pending (bsize ci) sofar Hpos (length (concat chunks))).
  unfold blocks_before_last at 2. rewrite length_app. reflexivity.
Qed.

Lemma X2_witness :
  reachable (demo_cipher 8) [] (fresh (demo_cipher 8)) /\
  writes (fresh (demo_cipher 8))
    [bytes_of [1; 2; 3; 4; 5; 6; 7]; bytes_of [8; 9]; bytes_of [10; 11; 12; 13; 14; 15; 16; 17]]
  = writes (fresh (demo_cipher 8))
      [bytes_of [1; 2; 3; 4; 5; 6; 7; 8; 9; 10; 11; 12; 13; 14; 15; 16; 17]].
Proof.
  split; [exact reachable_demo_fresh |].
  exact (proj1 (X2_cipher_calls_of_writes (demo_cipher 8) [] (fresh (demo_cipher 8))
                  [bytes_of [1; 2; 3; 4; 5; 6; 7]; bytes_of [8; 9];
                   bytes_of [10; 11; 12; 13; 14; 15; 16; 17]]
                  reachable_demo_fresh)).
Defined.

(** X3: in a reachable state a [Write] of no bytes leaves the engine as it
    is, calls no cipher and returns [(0, nil)]. *)
Theorem X3_empty_Write_is_noop (ci : Block) (msg : list byte) (m : Append.cmac) :
  reachable ci msg m ->
  Append.Write m [] = (Ret (m, (0, None)), []).
Proof.
  intros Hreach.
  pose proof (reachable_inv _ _ _ Hreach) as [Hwf _ _ _ _ _ _].
  pose proof (wf_pos m Hwf) as Hpos. pose proof Hwf as [_ _ _ _ _ Hb].
  rewrite Write_full by exact Hwf.
  rewrite app_nil_r, written_pending by exact Hwf.
  rewrite absorb_calls_stop by assumption. reflexivity.
Qed.

Lemma X3_witness :
  reachable (demo_cipher 8) [] (fresh (demo_cipher 8)) /\
  Append.Write (fresh (demo_cipher 8)) [] = (Ret (fresh (demo_cipher 8), (0, None)), []).
Proof.
  split; [exact reachable_demo_fresh |].
  exact (X3_empty_Write_is_noop (demo_cipher 8) [] (fresh (demo_cipher 8))
           reachable_demo_fresh).
Defined.

Lemma mac_each_spec ci msgs :
  forall m, reachable ci [] m ->
    exists m', res (mac_each m msgs) = Ret (m', map (cmac_of ci) msgs) /\
               reachable ci [] m'.
Proof.
  induction msgs as [| msg rest IH]; intros m Hreach.
  - exists m. split; [reflexivity | exact Hreach].
  - pose proof (reachable_inv _ _ _ Hreach) as [Hwf _ _ _ _ _ _].
    cbn [mac_each hash_Write hash_Sum hash_Reset Append_Hash].
    pose proof (Write_full m msg Hwf) as Hw.
    set (m1 := written m (Append.buf m ++ msg)) in *.
    assert (Hr1 : reachable ci msg m1).
    { apply (reach_Write ci [] m msg m1 (len msg, None) Hreach). rewrite Hw. reflexivity. }
    pose proof (Sum_cmac_of ci msg m1 [] Hr1) as Hs.
    pose proof (reachable_inv _ _ _ Hr1) as [Hwf1 _ _ _ _ _ _].
    pose proof Hwf1 as [Hbs1 _ _ _ _ _].
    pose proof (Reset_spec m1 ltac:(lia)) as Hres.
    set (m2 := {| Append.c := Append.c m1; Append.k1 := Append.k1 m1;
                  Append.k2 := Append.k2 m1; Append.buf := [];
                  Append.x := zero_block (Append.c m1); Append.tmp := Append.tmp m1 |}) in *.
    assert (Hr2 : reachable ci [] m2).
    { apply (reach_Reset ci msg m1 m2 Hr1). rewrite Hres. reflexivity. }
    destruct (IH m2 Hr2) as (m' & Hrest & Hr').
    exists m'. split; [| exact Hr'].
    erewrite bind_Ret by exact Hw. cbn [res fst].
    rewrite res_bind, Hs. cbn [fst snd].
    rewrite res_bind, Hres. cbn [res ret fst].
    rewrite res_bind, Hrest. reflexivity.
Qed.

(** X4: one engine used for several messages in the way of the package's
    tests ([Write] the message, [Sum(nil)], [Reset]) gives for every message
    the CMAC of that message alone, whatever came before it. *)
Theorem X4_engine_reuse_with_Reset
  (ci : Block) (m : Append.cmac) (msgs : list (list byte)) :
  reachable ci [] m ->
  exists m', res (mac_each m msgs) = Ret (m', map (cmac_of ci) msgs).
Proof.
  intros Hreach. destruct (mac_each_spec ci msgs m Hreach) as (m' & H & _). eauto.
Qed.

Lemma X4_witness :
  reachable (demo_cipher 8) [] (fresh (demo_cipher 8)) /\
  exists m',
    res (mac_each (fresh (demo_cipher 8))
           [bytes_of [1; 2; 3; 4; 5; 6; 7; 8; 9]; []; bytes_of [1; 2; 3; 4; 5; 6; 7; 8]])
    = Ret (m', map (cmac_of (demo_cipher 8))
                 [bytes_of [1; 2; 3; 4; 5; 6; 7; 8; 9]; []; bytes_of [1; 2; 3; 4; 5; 6; 7; 8]]).
Proof.
  split; [exact reachable_demo_fresh |].
  exact (X4_engine_reuse_with_Reset (demo_cipher 8) (fresh (demo_cipher 8))
           [bytes_of [1; 2; 3; 4; 5; 6; 7; 8; 9]; []; bytes_of [1; 2; 3; 4; 5; 6; 7; 8]]
           reachable_demo_fresh).
Defined.

(** * Beyond the claims: subkeys *)

Lemma lxor_mod_256 a b : Z.lxor a b mod 2 ^ 8 = Z.lxor (a mod 2 ^ 8) (b mod 2 ^ 8).
Proof.
  apply Z.bits_inj'. intros n Hn. rewrite Z.lxor_spec.
  destruct (Z.lt_ge_cases n 8).
  - rewrite !Z.mod_pow2_bits_low by lia. apply Z.lxor_spec.
  - rewrite !Z.mod_pow2_bits_high by lia. reflexivity.
Qed.

Lemma lxor_div_256 a b : Z.lxor a b / 2 ^ 8 = Z.lxor (a / 2 ^ 8) (b / 2 ^ 8).
Proof. rewrite <- !Z.shiftr_div_pow2 by lia. apply Z.shiftr_lxor. Qed.

(** XOR with a byte touches the low byte only. *)
Lemma lxor_low_byte q z r :
  0 <= z < 256 -> 0 <= r < 256 ->
  Z.lxor (q * 256 + z) r = q * 256 + Z.lxor z r.
Proof.
  intros Hz Hr. change 256 with (2 ^ 8) in *.
  rewrite (Z.div_mod (Z.lxor (q * 2 ^ 8 + z) r) (2 ^ 8)) by lia.
  rewrite lxor_mod_256, lxor_div_256.
  rewrite Z.div_add_l, (Z.div_small z), (Z.div_small r) by lia.
  rewrite Z.add_0_r, Z.lxor_0_r.
  rewrite (Z.add_comm (q * 2 ^ 8) z), Z.mod_add, (Z.mod_small z), (Z.mod_small r) by lia.
  ring.
Qed.

Lemma lxor_byte_range z r : 0 <= z < 256 -> 0 <= r < 256 -> 0 <= Z.lxor z r < 256.
Proof.
  intros Hz Hr. change 256 with (2 ^ 8) in *.
  assert (H0 : 0 <= Z.lxor z r) by (apply Z.lxor_nonneg; lia).
  assert (Hd : Z.lxor z r / 2 ^ 8 = 0)
    by (rewrite lxor_div_256, (Z.div_small z), (Z.div_small r) by lia; reflexivity).
  apply Z.div_small_iff in Hd; lia.
Qed.

Lemma byte_to_Z_bxor a b : byte_to_Z (bxor a b) = Z.lxor (byte_to_Z a) (byte_to_Z b).
Proof.
  unfold bxor. rewrite byte_to_of_Z. apply Z.mod_small.
  apply lxor_byte_range; apply byte_to_Z_range.
Qed.

Lemma be_value_snoc Q z : be_value (Q ++ [z]) = be_value Q * 256 + byte_to_Z z.
Proof. unfold be_value. rewrite foldl_snoc. reflexivity. Qed.

Lemma be_value_xor_last s rb :
  s <> [] -> be_value (xor_last s rb) = Z.lxor (be_value s) (byte_to_Z rb).
Proof.
  intros Hne. destruct (exists_last Hne) as (Q & z & ->).
  rewrite xor_last_snoc, !be_value_snoc, byte_to_Z_bxor.
  symmetry. apply lxor_low_byte; apply byte_to_Z_range.
Qed.

(** The high bit of the first byte is the top bit of the big-endian value. *)
Lemma msb_be_value l :
  l <> [] -> msb l = Z.testbit (be_value l) (8 * len l - 1).
Proof.
  intros Hne. destruct l as [| a r]; [congruence |].
  unfold msb. rewrite be_value_cons.
  assert (Hk : 8 * len (a :: r) - 1 = 7 + 8 * len r)
    by (unfold len; cbn [length]; lia).
  rewrite Hk, <- Z.div_pow2_bits by (unfold len; lia).
  replace (2 ^ (8 * len r)) with (256 ^ len r)
    by (change 256 with (2 ^ 8); rewrite <- Z.pow_mul_r by (unfold len; lia); reflexivity).
  pose proof (be_value_range r) as Hr.
  rewrite Z.div_add_l by lia. rewrite (Z.div_small (be_value r)) by lia.
  rewrite Z.add_0_r. reflexivity.
Qed.

Lemma be_value_double rb l :
  l <> [] ->
  be_value (double rb l)
  = Z.lxor ((2 * be_value l) mod 2 ^ (8 * len l))
           (if Z.testbit (be_value l) (8 * len l - 1) then byte_to_Z rb else 0).
Proof.
  intros Hne. rewrite <- (msb_be_value l Hne). unfold double.
  destruct (msb l).
  - rewrite be_value_xor_last, be_value_shift_left_1; [reflexivity | exact Hne |].
    intros E. apply (f_equal length) in E. rewrite length_shift_left_1 in E.
    destruct l; [congruence | discriminate].
  - rewrite Z.lxor_0_r. apply be_value_shift_left_1. exact Hne.
Qed.

(** X5: on a non-empty block [gensubkey] is multiplication by [x] in
    GF(2^(8n)): the result has the length of the input and, as a big-endian
    number, is the input doubled modulo [2^(8n)], XORed with [rb] exactly
    when the top bit of the input is set. *)
Theorem X5_gensubkey_is_field_doubling (ci : Block) (l : list byte) (rb : byte) :
  l <> [] ->
  exists sk,
    gensubkey ci l rb = ret sk /\
    length sk = length l /\
    be_value sk
    = Z.lxor ((2 * be_value l) mod 2 ^ (8 * len l))
             (if Z.testbit (be_value l) (8 * len l - 1) then byte_to_Z rb else 0).
Proof.
  intros Hne. exists (double rb l).
  split; [apply gensubkey_spec; exact Hne |].
  split; [apply length_double | apply be_value_double; exact Hne].
Qed.

Lemma X5_witness :
  bytes_of [0x80; 0x01] <> [] /\
  exists sk,
    gensubkey (demo_cipher 8) (bytes_of [0x80; 0x01]) Byte.x87 = ret sk /\
    be_value sk = 0x85.
Proof.
  split; [discriminate |].
  destruct (X5_gensubkey_is_field_doubling (demo_cipher 8) (bytes_of [0x80; 0x01]) Byte.x87)
    as (sk & Hs & _ & Hv); [discriminate |].
  exists sk. split; [exact Hs |]. rewrite Hv. reflexivity.
Defined.

(** X6: [shifted] returns for every input, the empty one included, with a
    result of the same length; [gensubkey] panics with an index out of range
    on an empty block and returns on every other. *)
Theorem X6_gensubkey_empty_block_panics :
  (forall v, exists s, shifted v = ret s /\ length s = length v) /\
  (forall ci rb, gensubkey ci [] rb = panic "index out of range") /\
  (forall ci l rb, l <> [] -> exists sk, gensubkey ci l rb = ret sk).
Proof.
  split; [| split].
  - intros v. exists (shift_left_1 v). split; [apply shifted_spec | apply length_shift_left_1].
  - intros ci rb. unfold gensubkey. rewrite shifted_spec, bind_ret_l. reflexivity.
  - intros ci l rb Hne. exists (double rb l). apply gensubkey_spec. exact Hne.
Qed.

Lemma X6_witness :
  exists sk, gensubkey (demo_cipher 8) (bytes_of [0xff]) Byte.x1b = ret sk.
Proof.
  apply (proj2 (proj2 X6_gensubkey_empty_block_panics) (demo_cipher 8) (bytes_of [0xff])).
  discriminate.
Defined.

(** X7: with a block size other than 8 and 16, [gensubkeys] panics with
    "cmac: invalid block size" before it touches the cipher, and so does
    [newcmac] in both engines: only the check of [NewWithCipher] keeps the
    panic from the caller. *)
Theorem X7_invalid_block_size_panics (ci : Block) :
  BlockSize ci <> 8 -> BlockSize ci <> 16 ->
  gensubkeys ci = (Panic "cmac: invalid block size", []) /\
  Append.newcmac ci = (Panic "cmac: invalid block size", []) /\
  Cursor.newcmac ci = (Panic "cmac: invalid block size", []).
Proof.
  intros H8 H16.
  assert (H : gensubkeys ci = (Panic "cmac: invalid block size", [])).
  { unfold gensubkeys. rewrite !decide_False by assumption. reflexivity. }
  split; [exact H |].
  unfold Append.newcmac, Cursor.newcmac. rewrite H. split; reflexivity.
Qed.

Lemma X7_witness :
  gensubkeys (demo_cipher 12) = (Panic "cmac: invalid block size", []).
Proof.
  apply (X7_invalid_block_size_panics (demo_cipher 12)); discriminate.
Defined.

(** * Beyond the claims: sizes *)

Lemma length_final_tag ci K1 K2 pending X :
  length K1 = bsize ci -> length K2 = bsize ci -> length X = bsize ci ->
  (length pending <= bsize ci)%nat ->
  length (final_tag ci K1 K2 pending X) = bsize ci.
Proof.
  intros H1 H2 HX Hp. unfold final_tag.
  rewrite length_encrypted, length_xor_bytes; rewrite length_final_block; lia.
Qed.

(** X8: in a reachable state [Size] and [BlockSize] are the cipher's block
    size, and [Sum(b)] is [b] followed by the bytes of [Sum(nil)], which are
    [Size()] many. *)
Theorem X8_Sum_appends_Size_bytes
  (ci : Block) (msg : list byte) (m : Append.cmac) (out : list byte) :
  reachable ci msg m ->
  Append.Size m = BlockSize ci /\
  Append.BlockSize m = BlockSize ci /\
  exists tag,
    res (Append.Sum m []) = Ret (m, tag) /\
    res (Append.Sum m out) = Ret (m, out ++ tag) /\
    len tag = Append.Size m.
Proof.
  intros Hreach.
  pose proof (reachable_inv _ _ _ Hreach) as [Hwf Hc _ _ _ _ _].
  pose proof Hwf as [Hbs H1 H2 Hx _ Hb].
  unfold Append.Size, Append.BlockSize. rewrite Hc.
  split; [reflexivity |]. split; [reflexivity |].
  eexists. rewrite !Sum_spec by exact Hwf. cbn [res fst app].
  split; [reflexivity |]. split; [reflexivity |].
  unfold len. rewrite length_final_tag by assumption.
  unfold bsize. rewrite Hc in *. lia.
Qed.

Lemma X8_witness :
  reachable (demo_cipher 8) [] (fresh (demo_cipher 8)) /\
  exists tag,
    res (Append.Sum (fresh (demo_cipher 8)) []) = Ret (fresh (demo_cipher 8), tag) /\
    len tag = 8.
Proof.
  split; [exact reachable_demo_fresh |].
  destruct (X8_Sum_appends_Size_bytes (demo_cipher 8) [] (fresh (demo_cipher 8)) []
              reachable_demo_fresh) as (_ & _ & tag & H1 & _ & H3).
  exists tag. split; [exact H1 | exact H3].
Defined.

(** * Beyond the claims: the cursor-based engine *)

Lemma reachable_written_fresh ci msg :
  BlockSize ci = 8 \/ BlockSize ci = 16 -> reachable ci msg (written (fresh ci) msg).
Proof.
  intros Hbs.
  apply (reach_Write ci [] (fresh ci) msg (written (fresh ci) msg) (len msg, None)).
  - apply reach_new. rewrite NewWithCipher_ok by exact Hbs. reflexivity.
  - rewrite Write_full by (apply wf_fresh; exact Hbs). reflexivity.
Qed.

Lemma Cursor_NewWithCipher_invalid (ci : Block) :
  ~ (BlockSize ci = 8 \/ BlockSize ci = 16) ->
  Cursor.NewWithCipher ci = (Ret (None, Some (errors_New "cmac: invalid blocksize")), []).
Proof.
  intros Hbs. unfold Cursor.NewWithCipher. rewrite decide_False by exact Hbs. reflexivity.
Qed.

(** The invariant of the cursor-based engine: well-formed, on the subkeys of
    its cipher, and standing for the state that one [Write] of the
    accumulated message gives a new append-based engine. *)
Lemma reachableC_inv ci msg m :
  reachableC ci msg m ->
  wfC m /\ Cursor.c m = ci /\
  Cursor.k1 m = subkey_K1 ci /\ Cursor.k2 m = subkey_K2 ci /\
  take (Cursor.cursor m) (Cursor.buf m) = Append.buf (written (fresh ci) msg) /\
  Cursor.x m = Append.x (written (fresh ci) msg).
Proof.
  intros Hreach.
  induction Hreach as [m Hnew | msg m b m' r Hreach IH Hw | msg m b m' out Hreach IH Hs
                      | msg m m' Hreach IH Hr].
  - destruct (decide (BlockSize ci = 8 \/ BlockSize ci = 16)) as [Hbs | Hbs].
    + rewrite Cursor_NewWithCipher_ok in Hnew by exact Hbs. injection Hnew as <-.
      rewrite (written_fresh_nil ci Hbs).
      split; [apply wfC_freshC; exact Hbs |]. repeat split.
    + rewrite Cursor_NewWithCipher_invalid in Hnew by exact Hbs. discriminate.
  - destruct IH as (Hwf & Hc & Hk1 & Hk2 & Hb & Hx).
    pose proof Hwf as [Hbs _ _ _ _ _]. rewrite Hc in Hbs.
    destruct (Cursor_Write_spec m b (zero_block ci) Hwf)
      as (tr & m1 & t1 & Hw1 & Hwf1 & Ht1 & Habs).
    { rewrite Hc. apply length_zero_block. }
    rewrite Hw1 in Hw. injection Hw as <- _.
    pose proof (f_equal Append.c Habs) as Ec.
    pose proof (f_equal Append.k1 Habs) as E1.
    pose proof (f_equal Append.k2 Habs) as E2.
    pose proof (f_equal Append.buf Habs) as Eb.
    pose proof (f_equal Append.x Habs) as Ex.
    cbn [abstraction written Append.c Append.k1 Append.k2] in Ec, E1, E2.
    cbn [abstraction Append.buf Append.x] in Eb, Ex.
    destruct (written_same_stream
                {| Append.c := Cursor.c m; Append.k1 := Cursor.k1 m;
                   Append.k2 := Cursor.k2 m;
                   Append.buf := take (Cursor.cursor m) (Cursor.buf m);
                   Append.x := Cursor.x m; Append.tmp := zero_block ci |}
                (written (fresh ci) msg)
                (Append.buf (written (fresh ci) msg) ++ b)) as [Sb Sx];
      [exact Hc | exact Hx |].
    rewrite <- (written_written (fresh ci) msg b (wf_fresh ci Hbs)).
    rewrite Hb in Eb, Ex. unfold abstraction in Eb, Ex.
    split; [exact Hwf1 |].
    split; [congruence |]. split; [congruence |]. split; [congruence |].
    split; [rewrite Eb; exact Sb | rewrite Ex; exact Sx].
  - rewrite Cursor_Sum_spec in Hs by (apply IH). injection Hs as <- _. exact IH.
  - destruct IH as (Hwf & Hc & Hk1 & Hk2 & _ & _).
    pose proof Hwf as [Hbs _ _ Hx Hb _].
    rewrite Cursor_Reset_spec in Hr by assumption. injection Hr as <-.
    rewrite Hc in *. rewrite Hk1, Hk2.
    rewrite (written_fresh_nil ci Hbs).
    split; [apply (wfC_freshC ci Hbs) |]. repeat split.
Qed.

(** X9: from any state of the cursor-based engine reached by [Write], [Sum]
    and [Reset], [Reset] gives exactly the engine as [NewWithCipher] built
    it: zero buffer, zero chaining value, cursor at zero, same subkeys. *)
Theorem X9_cursor_Reset_restores_new_engine
  (ci : Block) (msg : list byte) (m : Cursor.cmac) :
  reachableC ci msg m ->
  exists m0,
    Cursor.NewWithCipher ci = (Ret (Some m0, None), [zero_block ci]) /\
    Cursor.Reset m = ret m0.
Proof.
  intros Hreach.
  destruct (reachableC_inv _ _ _ Hreach) as (Hwf & Hc & Hk1 & Hk2 & _ & _).
  pose proof Hwf as [Hbs _ _ Hx Hb _].
  exists (freshC ci). split.
  - apply Cursor_NewWithCipher_ok. rewrite <- Hc. exact Hbs.
  - rewrite Cursor_Reset_spec by assumption. rewrite Hc, Hk1, Hk2. reflexivity.
Qed.

Lemma reachableC_demo_fresh : reachableC (demo_cipher 8) [] (freshC (demo_cipher 8)).
Proof.
  apply reachC_new. rewrite Cursor_NewWithCipher_ok by (left; reflexivity). reflexivity.
Qed.

Lemma reachableC_demo_written :
  reachableC (demo_cipher 8) (bytes_of [1; 2; 3; 4; 5; 6; 7; 8; 9; 10]) demo_cursor_state.
Proof.
  apply (reachC_Write (demo_cipher 8) [] (freshC (demo_cipher 8))
           (bytes_of [1; 2; 3; 4; 5; 6; 7; 8; 9; 10]) demo_cursor_state (10, None)
           reachableC_demo_fresh).
  vm_compute. reflexivity.
Qed.

Lemma X9_witness :
  reachableC (demo_cipher 8) (bytes_of [1; 2; 3; 4; 5; 6; 7; 8; 9; 10]) demo_cursor_state /\
  exists m0,
    Cursor.NewWithCipher (demo_cipher 8)
    = (Ret (Some m0, None), [zero_block (demo_cipher 8)]) /\
    Cursor.Reset demo_cursor_state = ret m0.
Proof.
  split; [exact reachableC_demo_written |].
  exact (X9_cursor_Reset_restores_new_engine (demo_cipher 8) _ demo_cursor_state
           reachableC_demo_written).
Defined.

(** X10: in every state of the cursor-based engine reached by [Write],
    [Sum] and [Reset], the subkeys, the chaining value and the buffer are one
    block long and the cursor is at most the block size; the first [cursor]
    bytes of the buffer are the tail of the accumulated message after its
    blocks before the last; and the cursor is at the block size exactly when
    that message is non-empty and block-aligned. *)
Theorem X10_cursor_invariants (ci : Block) (msg : list byte) (m : Cursor.cmac) :
  reachableC ci msg m ->
  len (Cursor.k1 m) = BlockSize ci /\ len (Cursor.k2 m) = BlockSize ci /\
  len (Cursor.x m) = BlockSize ci /\ len (Cursor.buf m) = BlockSize ci /\
  0 <= Z.of_nat (Cursor.cursor m) <= BlockSize ci /\
  take (Cursor.cursor m) (Cursor.buf m)
  = drop (blocks_before_last (bsize ci) msg * bsize ci) msg /\
  (Z.of_nat (Cursor.cursor m) = BlockSize ci
   <-> msg <> [] /\ (length msg mod bsize ci = 0)%nat).
Proof.
  intros Hreach.
  destruct (reachableC_inv _ _ _ Hreach) as (Hwf & Hc & Hk1 & Hk2 & Hb & Hx).
  pose proof Hwf as [Hbs H1 H2 HX HB Hcur]. rewrite Hc in *.
  pose proof (reachable_written_fresh ci msg Hbs) as HW.
  destruct (reachable_closed_form _ _ _ HW) as [_ HWb].
  pose proof (inv_full _ _ _ (reachable_inv _ _ _ HW)) as Hfull.
  rewrite <- Hb in HWb, Hfull. rewrite length_take, Nat.min_l in Hfull by lia.
  unfold len, bsize in *.
  split; [lia |]. split; [lia |]. split; [lia |]. split; [lia |]. split; [lia |].
  split; [exact HWb |].
  split.
  - intros E. apply (proj1 Hfull). lia.
  - intros Hal. apply (proj2 Hfull) in Hal. lia.
Qed.

Lemma X10_witness :
  reachableC (demo_cipher 8) (bytes_of [1; 2; 3; 4; 5; 6; 7; 8; 9; 10]) demo_cursor_state /\
  take (Cursor.cursor demo_cursor_state) (Cursor.buf demo_cursor_state) = bytes_of [9; 10].
Proof.
  split; [exact reachableC_demo_written |].
  destruct (X10_cursor_invariants (demo_cipher 8) _ demo_cursor_state
              reachableC_demo_written) as (_ & _ & _ & _ & _ & H & _).
  rewrite H. reflexivity.
Defined.

(** X11: in every reachable state of the cursor-based engine [Sum] hands
    back the engine unchanged and appends to its argument the CMAC of the
    accumulated message, so a second [Sum] gives the same tag. *)
Theorem X11_cursor_Sum_is_cmac_of_message
  (ci : Block) (msg : list byte) (m : Cursor.cmac) (out out' : list byte) :
  reachableC ci msg m ->
  res (Cursor.Sum m out) = Ret (m, out ++ cmac_of ci msg) /\
  res (r <- Cursor.Sum m out ;; Cursor.Sum (fst r) out') = Ret (m, out' ++ cmac_of ci msg).
Proof.
  intros Hreach.
  destruct (reachableC_inv _ _ _ Hreach) as (Hwf & Hc & Hk1 & Hk2 & Hb & Hx).
  pose proof Hwf as [Hbs _ _ _ _ _]. rewrite Hc in Hbs.
  pose proof (reachable_written_fresh ci msg Hbs) as HW.
  destruct (reachable_closed_form _ _ _ HW) as [HWx HWb].
  assert (Htag : final_tag (Cursor.c m) (Cursor.k1 m) (Cursor.k2 m)
                   (take (Cursor.cursor m) (Cursor.buf m)) (Cursor.x m)
                 = cmac_of ci msg).
  { unfold cmac_of. rewrite Hc, Hk1, Hk2, Hb, Hx, HWx, HWb. reflexivity. }
  split.
  - rewrite Cursor_Sum_spec by exact Hwf. cbn [res fst]. rewrite Htag. reflexivity.
  - rewrite res_bind, Cursor_Sum_spec by exact Hwf. cbn [res fst].
    rewrite Cursor_Sum_spec by exact Hwf. cbn [res fst]. rewrite Htag. reflexivity.
Qed.

Lemma X11_witness :
  reachableC (demo_cipher 8) [] (freshC (demo_cipher 8)) /\
  res (Cursor.Sum (freshC (demo_cipher 8)) [])
  = Ret (freshC (demo_cipher 8), [] ++ cmac_of (demo_cipher 8) []).
Proof.
  split; [exact reachableC_demo_fresh |].
  exact (proj1 (X11_cursor_Sum_is_cmac_of_message (demo_cipher 8) []
                  (freshC (demo_cipher 8)) [] [] reachableC_demo_fresh)).
Defined.

(** ** The cipher calls of the cursor-based engine *)

Lemma Cursor_Write_loop_calls (ci : Block) :
  (0 < bsize ci)%nat ->
  forall fuel K1 K2 bufc X cur b g,
    length bufc = bsize ci -> length X = bsize ci -> (cur <= bsize ci)%nat ->
    (b <> [] -> cur = bsize ci) ->
    (length b <= fuel)%nat -> (length (take cur bufc ++ b) <= g)%nat ->
    calls (Cursor.Write_loop fuel
             {| Cursor.c := ci; Cursor.k1 := K1; Cursor.k2 := K2;
                Cursor.buf := bufc; Cursor.x := X; Cursor.cursor := cur |} b)
    = absorb_calls ci g X (take cur bufc ++ b).
Proof.
  intros Hpos.
  assert (Hstop : forall fuel K1 K2 bufc X cur g,
    (cur <= bsize ci)%nat ->
    calls (Cursor.Write_loop fuel
             {| Cursor.c := ci; Cursor.k1 := K1; Cursor.k2 := K2;
                Cursor.buf := bufc; Cursor.x := X; Cursor.cursor := cur |} [])
    = absorb_calls ci g X (take cur bufc ++ [])).
  { intros fuel K1 K2 bufc X cur g Hc.
    rewrite app_nil_r. rewrite (absorb_calls_stop ci Hpos) by (rewrite length_take; lia).
    destruct fuel; cbn [Cursor.Write_loop];
      rewrite decide_False by (unfold len; simpl; lia); reflexivity. }
  induction fuel as [| fuel IH]; intros K1 K2 bufc X cur b g Hb HX Hc Hfull Hfuel Hg.
  - destruct b; [| simpl in Hfuel; lia]. apply Hstop; assumption.
  - destruct b as [| b0 b']; [apply Hstop; assumption |].
    set (b := b0 :: b') in *.
    assert (Ecur : cur = bsize ci) by (apply Hfull; discriminate).
    subst cur. rewrite take_ge in * by lia.
    rewrite length_app in Hg.
    destruct g as [| g]; [lia |].
    rewrite (absorb_calls_step ci Hpos) by (rewrite length_app; subst b; simpl; lia).
    rewrite take_app_length', drop_app_length' by (symmetry; exact Hb).
    cbn [Cursor.Write_loop]. rewrite decide_True by (unfold len; subst b; simpl; lia).
    cbn [Cursor.buf Cursor.x Cursor.c Cursor.set_buf Cursor.set_x Cursor.set_cursor
         Cursor.cursor Cursor.k1 Cursor.k2].
    rewrite for_range_xor_inplace, bind_ret_l by lia.
    unfold Encrypt. erewrite bind_Ret by reflexivity.
    cbn [res calls fst snd].
    fold (encrypted ci X (xor_bytes bufc X)).
    set (r := copy (xor_bytes bufc X) b).
    assert (Hr1 : length (fst r) = bsize ci)
      by (subst r; rewrite copy_length, length_xor_bytes; lia).
    assert (Hr2 : (snd r <= bsize ci)%nat)
      by (subst r; unfold copy; cbn [snd]; rewrite length_xor_bytes; lia).
    assert (Hr3 : drop (snd r) b <> [] -> snd r = bsize ci).
    { intros Hne. subst r. unfold copy in *. cbn [snd] in *.
      rewrite length_xor_bytes in * by lia.
      destruct (decide (bsize ci <= length b)%nat); [lia |].
      exfalso. apply Hne. apply drop_ge. lia. }
    unfold chain. rewrite (xor_bytes_comm X bufc).
    unfold Cursor.set_cursor, Cursor.set_buf, Cursor.set_x.
    cbn [Cursor.buf Cursor.x Cursor.c Cursor.cursor Cursor.k1 Cursor.k2].
    fold r.
    rewrite (IH K1 K2 (fst r) (encrypted ci X (xor_bytes bufc X)) (snd r)
               (drop (snd r) b) g); try assumption.
    + subst r. rewrite copy_then_rest. reflexivity.
    + rewrite length_encrypted. exact HX.
    + rewrite length_drop. subst r. unfold copy. cbn [snd].
      rewrite length_xor_bytes by lia. subst b. cbn [length] in *. lia.
    + subst r. rewrite copy_then_rest. lia.
Qed.

Lemma Cursor_Write_calls (m : Cursor.cmac) (b : list byte) :
  wfC m ->
  calls (Cursor.Write m b)
  = absorb_calls (Cursor.c m) (length (take (Cursor.cursor m) (Cursor.buf m) ++ b))
      (Cursor.x m) (take (Cursor.cursor m) (Cursor.buf m) ++ b).
Proof.
  intros [Hbs H1 H2 Hx Hb Hc].
  destruct m as [ci K1 K2 bufc X cur].
  cbn [Cursor.c Cursor.k1 Cursor.k2 Cursor.buf Cursor.x Cursor.cursor] in *.
  assert (Hpos : (0 < bsize ci)%nat) by (unfold bsize; lia).
  unfold Cursor.Write, Cursor.copy_at.
  cbn [Cursor.c Cursor.k1 Cursor.k2 Cursor.buf Cursor.x Cursor.cursor].
  rewrite decide_True by lia. rewrite bind_ret_l. cbn [fst snd].
  unfold Cursor.set_cursor, Cursor.set_buf.
  cbn [Cursor.c Cursor.k1 Cursor.k2 Cursor.buf Cursor.x Cursor.cursor].
  set (r := copy (drop cur bufc) b).
  assert (Hr1 : length (fst r) = (bsize ci - cur)%nat)
    by (subst r; rewrite copy_length, length_drop; lia).
  assert (Hr2 : snd r = Nat.min (bsize ci - cur) (length b))
    by (subst r; unfold copy; cbn [snd]; rewrite length_drop; lia).
  assert (E : take (cur + snd r) (take cur bufc ++ fst r) ++ drop (snd r) b
              = take cur bufc ++ b).
  { rewrite take_app_ge by (rewrite length_take; lia).
    rewrite length_take, Nat.min_l by lia.
    replace (cur + snd r - cur)%nat with (snd r) by lia.
    rewrite <- app_assoc. subst r. rewrite copy_then_rest. reflexivity. }
  pose proof (Cursor_Write_loop_calls ci Hpos (length (drop (snd r) b)) K1 K2
                (take cur bufc ++ fst r) X (cur + snd r) (drop (snd r) b)
                (length (take cur bufc ++ b))) as Hcalls.
  rewrite E in Hcalls.
  destruct (Cursor.Write_loop (length (drop (snd r) b))
              {| Cursor.c := ci; Cursor.k1 := K1; Cursor.k2 := K2;
                 Cursor.buf := take cur bufc ++ fst r; Cursor.x := X;
                 Cursor.cursor := (cur + snd r)%nat |} (drop (snd r) b))
    as [[mr | msg |] tr] eqn:Eloop;
    cbn [calls snd bind ret] in *; rewrite ?app_nil_r; apply Hcalls;
    try (rewrite length_app, length_take; lia); try assumption; try lia;
    intros Hne; destruct (decide (bsize ci - cur <= length b)%nat); try lia;
    exfalso; apply Hne, drop_ge; lia.
Qed.

Lemma Cursor_writes_full chunks :
  forall (m : Cursor.cmac) (t : list byte),
    wfC m -> length t = bsize (Cursor.c m) ->
    exists m' t',
      writes m chunks
      = (Ret m',
         absorb_calls (Cursor.c m)
           (length (take (Cursor.cursor m) (Cursor.buf m) ++ concat chunks))
           (Cursor.x m) (take (Cursor.cursor m) (Cursor.buf m) ++ concat chunks)) /\
      wfC m' /\
      abstraction t' m'
      = written (abstraction t m) (Append.buf (abstraction t m) ++ concat chunks).
Proof.
  induction chunks as [| ch rest IH]; intros m t Hwf Ht.
  - pose proof Hwf as [Hbs _ _ _ Hb Hc].
    exists m, t. cbn [writes concat]. rewrite !app_nil_r.
    assert (Hpos : (0 < bsize (Cursor.c m))%nat) by (unfold bsize; lia).
    rewrite (absorb_calls_stop (Cursor.c m) Hpos) by (rewrite length_take; lia).
    split; [reflexivity | split; [exact Hwf |]].
    rewrite written_pending by (apply wf_abstraction; assumption). reflexivity.
  - destruct (Cursor_Write_spec m ch t Hwf Ht) as (tr1 & m1 & t1 & Hw & Hwf1 & Ht1 & Habs1).
    pose proof (Cursor_Write_calls m ch Hwf) as Hc1. rewrite Hw in Hc1. cbn [calls snd] in Hc1.
    destruct (IH m1 t1 Hwf1 Ht1) as (m2 & t2 & Hws & Hwf2 & Habs2).
    exists m2, t2.
    assert (Hpos : (0 < bsize (Cursor.c m))%nat)
      by (destruct Hwf as [Hbs _ _ _ _ _]; unfold bsize; lia).
    pose proof (f_equal Append.c Habs1) as Ec.
    pose proof (f_equal Append.buf Habs1) as Eb.
    pose proof (f_equal Append.x Habs1) as Ex.
    cbn [abstraction written Append.c] in Ec.
    unfold written, absorbed in Eb, Ex.
    cbn [abstraction Append.c Append.buf Append.x Append.tmp snd] in Eb, Ex.
    split; [| split; [exact Hwf2 |]].
    + cbn [writes hash_Write Cursor_Hash concat]. erewrite bind_Ret by exact Hw.
      cbn [fst]. rewrite Hws. cbn [res calls fst snd]. f_equal.
      rewrite Hc1, Ec, Eb, Ex.
      rewrite (app_assoc (take (Cursor.cursor m) (Cursor.buf m)) ch (concat rest)).
      symmetry. apply (absorb_calls_app (Cursor.c m) Hpos); lia.
    + rewrite Habs2, Habs1. cbn [concat].
      rewrite written_written by (apply wf_abstraction; assumption).
      rewrite <- app_assoc. reflexivity.
Qed.

Lemma mac_after_full (m : Append.cmac) chunks :
  wf m ->
  let m' := written m (Append.buf m ++ concat chunks) in
  mac_after m chunks
  = (Ret (final_tag (Append.c m') (Append.k1 m') (Append.k2 m') (Append.buf m') (Append.x m')),
     absorb_calls (Append.c m) (length (Append.buf m ++ concat chunks))
       (Append.x m) (Append.buf m ++ concat chunks)
     ++ [xor_bytes (final_block (bsize (Append.c m')) (Append.k1 m') (Append.k2 m')
                      (Append.buf m')) (Append.x m')]).
Proof.
  intros Hwf m'. unfold mac_after.
  erewrite bind_Ret by (apply writes_full; exact Hwf). fold m'.
  cbn [hash_Sum Append_Hash].
  rewrite Sum_spec by (apply wf_written, Hwf). reflexivity.
Qed.

Lemma Cursor_mac_after_full (m : Cursor.cmac) (t : list byte) chunks :
  wfC m -> length t = bsize (Cursor.c m) ->
  mac_after m chunks = mac_after (abstraction t m) chunks.
Proof.
  intros Hwf Ht.
  rewrite (mac_after_full (abstraction t m)) by (apply wf_abstraction; assumption).
  cbn zeta.
  destruct (Cursor_writes_full chunks m t Hwf Ht) as (m' & t' & Hws & Hwf' & Habs).
  unfold mac_after. erewrite bind_Ret by exact Hws.
  cbn [hash_Sum Cursor_Hash].
  rewrite Cursor_Sum_spec by exact Hwf'. rewrite <- Habs. reflexivity.
Qed.

(** X12: the two engines are the same to the cipher as well: for every
    cipher and every sequence of chunks, constructing an engine, writing the
    chunks and calling [Sum] gives in the cursor-based engine the outcome of
    the append-based engine and the same [Encrypt] calls, on the same blocks
    in the same order. *)
Theorem X12_engines_make_the_same_cipher_calls
  (ci : Block) (chunks : list (list byte)) :
  Cursor_digest ci chunks = Append_digest ci chunks.
Proof.
  destruct (decide (BlockSize ci = 8 \/ BlockSize ci = 16)) as [Hbs | Hbs].
  - unfold Cursor_digest, Append_digest.
    erewrite bind_Ret by (apply Cursor_NewWithCipher_ok; exact Hbs).
    erewrite (bind_Ret (Append.NewWithCipher ci)) by (apply NewWithCipher_ok; exact Hbs).
    rewrite (Cursor_mac_after_full (freshC ci) (zero_block ci) chunks
               (wfC_freshC ci Hbs) (length_zero_block ci)).
    rewrite abstraction_freshC. reflexivity.
  - unfold Cursor_digest, Append_digest, Cursor.NewWithCipher, Append.NewWithCipher.
    rewrite !decide_False by exact Hbs. reflexivity.
Qed.

(** * Beyond the claims: the revision that finalizes in the scratch block *)

(** On a well-formed state the [Sum] of that revision makes the cipher call
    of the [Sum] of [cmac.go], returns its bytes, and leaves the tag in the
    scratch block. *)
Lemma Scratch_Sum_spec (m : Append.cmac) (b : list byte) :
  wf m ->
  Scratch.Sum m b
  = (Ret (Append.set_tmp m
            (final_tag (Append.c m) (Append.k1 m) (Append.k2 m) (Append.buf m) (Append.x m)),
          b ++ final_tag (Append.c m) (Append.k1 m) (Append.k2 m) (Append.buf m) (Append.x m)),
     [xor_bytes (final_block (bsize (Append.c m)) (Append.k1 m) (Append.k2 m) (Append.buf m))
                (Append.x m)]).
Proof.
  intros [Hbs Hk1 Hk2 Hx Ht Hb]. unfold Scratch.Sum.
  set (n := bsize (Append.c m)) in *.
  unfold final_tag, final_block. fold n.
  set (k := length (Append.buf m)) in *.
  destruct (decide (k = n)) as [E | NE].
  - rewrite decide_True by (unfold len; fold k; subst n; unfold bsize in *; lia).
    rewrite for_range_xor_from, bind_ret_l by lia.
    rewrite for_range_xor_inplace, bind_ret_l by (rewrite length_xor_bytes; lia).
    reflexivity.
  - rewrite decide_False by (unfold len; fold k; subst n; unfold bsize in *; lia).
    unfold for_range at 1.
    rewrite for_loop_xor_prefix, bind_ret_l by lia.
    subst k. rewrite (take_ge (Append.buf m)) by lia.
    set (k := length (Append.buf m)) in *.
    destruct (lookup_lt_is_Some_2 (Append.k2 m) k) as [kc Hkc]; [lia |].
    destruct (lookup_lt_is_Some_2 (Append.tmp m) k) as [tc Htc]; [lia |].
    rewrite (index_Some _ _ _ Hkc), bind_ret_l.
    rewrite (drop_S _ _ _ Htc).
    assert (Hpre : length (xor_bytes (Append.buf m) (take k (Append.k2 m))) = k)
      by (rewrite length_xor_bytes by (rewrite length_take; lia); reflexivity).
    rewrite store_mid, bind_ret_l by exact Hpre.
    set (s2 := xor_bytes (Append.buf m) (take k (Append.k2 m))
               ++ bxor Byte.x80 kc :: drop (S k) (Append.tmp m)).
    assert (Hs2 : length s2 = n).
    { subst s2. rewrite length_app, Hpre. cbn [length]. rewrite length_drop. lia. }
    rewrite for_loop_fill, bind_ret_l by lia.
    assert (Hlast :
      take (k + 1) s2 ++ drop (k + 1) (Append.k2 m)
      = xor_bytes (pad n (Append.buf m)) (Append.k2 m)).
    { subst s2. unfold pad. fold k.
      rewrite <- (take_drop k (Append.k2 m)) at 3.
      rewrite (drop_S _ _ _ Hkc).
      replace (k + 1)%nat with (S k) by lia.
      rewrite take_app_ge by (rewrite Hpre; lia).
      rewrite Hpre. replace (S k - k)%nat with 1%nat by lia.
      cbn [take]. rewrite take_0.
      unfold xor_bytes. rewrite zip_with_app by (rewrite length_take; lia).
      cbn [zip_with]. fold (xor_bytes (replicate (n - k - 1) Byte.x00)
                              (drop (S k) (Append.k2 m))).
      rewrite xor_bytes_zeros_l by (rewrite length_drop; lia).
      rewrite <- app_assoc. reflexivity. }
    rewrite Hlast.
    rewrite for_range_xor_inplace, bind_ret_l
      by (rewrite length_xor_bytes; rewrite length_pad; lia).
    reflexivity.
Qed.

Lemma inv_set_tmp ci msg m t :
  inv ci msg m -> length t = bsize ci -> inv ci msg (Append.set_tmp m t).
Proof.
  intros [[Hbs H1 H2 Hx Ht Hb] Hc Hk1 Hk2 Hp He Hm] Hlen.
  split; [split |..];
    cbn [Append.set_tmp Append.c Append.k1 Append.k2 Append.x Append.tmp Append.buf];
    try assumption.
  rewrite Hc. exact Hlen.
Qed.

(** The states of the revision satisfy the invariant of [cmac.go], and have
    the chaining value and the pending bytes that one [Write] of the
    accumulated message gives a new engine. *)
Lemma reachableS_inv ci msg m :
  reachableS ci msg m ->
  inv ci msg m /\
  Append.buf m = Append.buf (written (fresh ci) msg) /\
  Append.x m = Append.x (written (fresh ci) msg).
Proof.
  intros Hreach.
  induction Hreach as [m Hnew | msg m b m' r Hreach IH Hw | msg m b m' out Hreach IH Hs
                      | msg m m' Hreach IH Hr].
  - destruct (decide (BlockSize ci = 8 \/ BlockSize ci = 16)) as [Hbs | Hbs].
    + rewrite NewWithCipher_ok in Hnew by exact Hbs. injection Hnew as <-.
      rewrite (written_fresh_nil ci Hbs).
      split; [apply inv_fresh, Hbs | auto].
    + rewrite NewWithCipher_invalid in Hnew by exact Hbs. discriminate.
  - destruct IH as (Hinv & IHb & IHx).
    pose proof Hinv as [Hwf Hc _ _ _ _ _].
    pose proof Hwf as [Hbs _ _ _ _ _]. rewrite Hc in Hbs.
    rewrite Write_full in Hw by exact Hwf. injection Hw as <- _.
    split; [apply inv_written, Hinv |].
    rewrite <- (written_written (fresh ci) msg b (wf_fresh ci Hbs)).
    rewrite IHb. apply written_same_stream; [exact Hc | exact IHx].
  - destruct IH as (Hinv & IHb & IHx).
    pose proof Hinv as [Hwf Hc _ _ _ _ _].
    rewrite Scratch_Sum_spec in Hs by exact Hwf. injection Hs as <- _.
    split; [| exact (conj IHb IHx)].
    apply inv_set_tmp; [exact Hinv |].
    destruct Hwf as [Hbs H1 H2 Hx Ht Hb]. rewrite <- Hc.
    apply length_final_tag; assumption.
  - destruct IH as (Hinv & _ & _).
    pose proof Hinv as [Hwf Hc Hk1 Hk2 _ _ _].
    pose proof Hwf as [Hbs H1 H2 Hx Ht Hb].
    rewrite Reset_spec in Hr by lia. injection Hr as <-.
    split.
    + split; cbn [Append.c Append.k1 Append.k2 Append.x Append.tmp Append.buf];
        try assumption; try reflexivity.
      * split; cbn [Append.c Append.k1 Append.k2 Append.x Append.tmp Append.buf];
          try assumption; [apply length_zero_block | simpl; lia].
      * exists []. reflexivity.
    + rewrite Hc in Hbs. rewrite (written_fresh_nil ci Hbs).
      cbn [Append.buf Append.x fresh]. rewrite Hc. auto.
Qed.

Lemma reachableS_closed_form ci msg m :
  reachableS ci msg m ->
  final_tag (Append.c m) (Append.k1 m) (Append.k2 m) (Append.buf m) (Append.x m)
  = cmac_of ci msg.
Proof.
  intros Hreach.
  destruct (reachableS_inv _ _ _ Hreach) as ([Hwf Hc Hk1 Hk2 _ _ _] & Hb & Hx).
  pose proof (wf_pos m Hwf) as Hpos. rewrite Hc in Hpos.
  destruct (absorb_closed_form ci Hpos (length msg) (zero_block ci) (zero_block ci) msg
              (length_zero_block ci) (Nat.le_refl _)) as (E1 & E2 & _).
  unfold cmac_of. rewrite Hc, Hk1, Hk2, Hb, Hx. unfold written, absorbed.
  cbn [Append.c Append.x Append.tmp Append.buf fresh snd].
  rewrite E1, E2. reflexivity.
Qed.

(** X13: in the revision that finalizes in the scratch block, whatever
    sequence of [Write], [Sum] and [Reset] calls led to a state, [Sum]
    appends the CMAC of the accumulated message to its argument and changes
    nothing of the engine but the scratch block, where it leaves the tag; on
    that state the [Sum] of [cmac.go] returns the same bytes after the same
    cipher call. *)
Theorem X13_scratch_Sum_is_cmac_of_message
  (ci : Block) (msg : list byte) (m : Append.cmac) (out : list byte) :
  reachableS ci msg m ->
  res (Scratch.Sum m out)
  = Ret (Append.set_tmp m (cmac_of ci msg), out ++ cmac_of ci msg) /\
  res (Append.Sum m out) = Ret (m, out ++ cmac_of ci msg) /\
  calls (Scratch.Sum m out) = calls (Append.Sum m out).
Proof.
  intros Hreach.
  pose proof (reachableS_closed_form _ _ _ Hreach) as Htag.
  destruct (reachableS_inv _ _ _ Hreach) as ([Hwf _ _ _ _ _ _] & _ & _).
  rewrite Scratch_Sum_spec, Sum_spec by exact Hwf.
  cbn [res calls fst snd]. rewrite Htag. auto.
Qed.

Lemma reachableS_demo_summed :
  reachableS (demo_cipher 8) (bytes_of [1; 2; 3])
    (Append.set_tmp (written (fresh (demo_cipher 8)) (bytes_of [1; 2; 3]))
       (cmac_of (demo_cipher 8) (bytes_of [1; 2; 3]))).
Proof.
  apply (reachS_Sum (demo_cipher 8) (bytes_of [1; 2; 3])
           (written (fresh (demo_cipher 8)) (bytes_of [1; 2; 3])) []
           _ ([] ++ cmac_of (demo_cipher 8) (bytes_of [1; 2; 3]))).
  - apply (reachS_Write (demo_cipher 8) [] (fresh (demo_cipher 8)) (bytes_of [1; 2; 3])
             _ (3, None)).
    + apply reachS_new. rewrite NewWithCipher_ok by (left; reflexivity). reflexivity.
    + rewrite Write_full by (apply wf_fresh; left; reflexivity). reflexivity.
  - rewrite Scratch_Sum_spec by (apply wf_written, wf_fresh; left; reflexivity).
    vm_compute. reflexivity.
Qed.

Lemma X13_witness :
  reachableS (demo_cipher 8) (bytes_of [1; 2; 3])
    (Append.set_tmp (written (fresh (demo_cipher 8)) (bytes_of [1; 2; 3]))
       (cmac_of (demo_cipher 8) (bytes_of [1; 2; 3]))) /\
  res (Scratch.Sum
         (Append.set_tmp (written (fresh (demo_cipher 8)) (bytes_of [1; 2; 3]))
            (cmac_of (demo_cipher 8) (bytes_of [1; 2; 3]))) [])
  = Ret (Append.set_tmp
           (Append.set_tmp (written (fresh (demo_cipher 8)) (bytes_of [1; 2; 3]))
              (cmac_of (demo_cipher 8) (bytes_of [1; 2; 3])))
           (cmac_of (demo_cipher 8) (bytes_of [1; 2; 3])),
         [] ++ cmac_of (demo_cipher 8) (bytes_of [1; 2; 3])).
Proof.
  split; [exact reachableS_demo_summed |].
  exact (proj1 (X13_scratch_Sum_is_cmac_of_message (demo_cipher 8) (bytes_of [1; 2; 3])
                  _ [] reachableS_demo_summed)).
Defined.

(** * Beyond the claims: the early revision *)

Lemma Early_block_spec (m : Early.cmac) (b : list byte) :
  0 <= BlockSize (Early.c m) ->
  length (Early.x m) = bsize (Early.c m) -> length b = bsize (Early.c m) ->
  Early.block m b
  = (Ret {| Early.c := Early.c m; Early.k1 := Early.k1 m; Early.k2 := Early.k2 m;
            Early.x := chain (Early.c m) (Early.x m) b; Early.buf := Early.buf m |},
     [xor_bytes (Early.x m) b]).
Proof.
  intros Hbs Hx Hb. unfold Early.block.
  rewrite make_nonneg, bind_ret_l by exact Hbs. fold (bsize (Early.c m)).
  rewrite for_range_xor_from, bind_ret_l by (rewrite length_replicate; lia).
  reflexivity.
Qed.

Lemma Early_Write_loop_full (ci : Block) :
  (0 < bsize ci)%nat ->
  forall fuel K1 K2 pending X t d,
    length X = bsize ci -> (length d <= fuel)%nat ->
    Early.Write_loop fuel
      {| Early.c := ci; Early.k1 := K1; Early.k2 := K2; Early.x := X;
         Early.buf := pending |} d
    = (Ret ({| Early.c := ci; Early.k1 := K1; Early.k2 := K2;
               Early.x := (absorb ci fuel (X, t, d)).1.1;
               Early.buf := pending |},
            (absorb ci fuel (X, t, d)).2),
       absorb_calls ci fuel X d).
Proof.
  intros Hpos.
  induction fuel as [| fuel IH]; intros K1 K2 pending X t d HX Hd.
  - destruct d; [| simpl in Hd; lia].
    cbn [Early.Write_loop absorb absorb_calls Early.c].
    rewrite decide_False by (unfold len, bsize in *; simpl; lia).
    rewrite !decide_False by (simpl; lia). reflexivity.
  - cbn [Early.Write_loop absorb absorb_calls Early.c].
    destruct (decide (bsize ci < length d)%nat) as [Hgt | Hle].
    + rewrite decide_True by (unfold len, bsize in *; lia).
      unfold slice_to, slice_from.
      rewrite !decide_True by (unfold len, bsize in *; lia).
      fold (bsize ci).
      rewrite bind_ret_l.
      rewrite Early_block_spec
        by (cbn [Early.x Early.c]; rewrite ?length_take; unfold bsize in *; lia).
      cbn [Early.c Early.k1 Early.k2 Early.buf Early.x].
      erewrite bind_Ret by reflexivity.
      rewrite bind_ret_l.
      rewrite (IH K1 K2 pending _ (xor_bytes X (take (bsize ci) d)));
        [reflexivity
        | rewrite length_chain; exact HX
        | rewrite length_drop; lia].
    + rewrite decide_False by (unfold len, bsize in *; lia). reflexivity.
Qed.

(** One [Write] of the early revision is one [Write] of [cmac.go] on the
    state it stands for, with the same cipher calls. *)
Lemma Early_Write_full (m : Early.cmac) (b t : list byte) :
  wf (lift t m) ->
  exists m',
    Early.Write m b
    = (Ret (m', (len b, None)),
       absorb_calls (Early.c m) (length (Early.buf m ++ b)) (Early.x m) (Early.buf m ++ b)) /\
    lift (Append.tmp (written (lift t m) (Early.buf m ++ b))) m'
    = written (lift t m) (Early.buf m ++ b).
Proof.
  intros [Hbs _ _ Hx _ _]. destruct m as [ci K1 K2 X pending].
  cbn [lift Append.c Append.x Early.c Early.x Early.buf Early.k1 Early.k2] in *.
  assert (Hpos : (0 < bsize ci)%nat) by (unfold bsize; lia).
  eexists. split.
  - unfold Early.Write. cbn [Early.buf].
    erewrite bind_Ret
      by (apply (Early_Write_loop_full ci Hpos (length (pending ++ b)) K1 K2 pending X t
                   (pending ++ b)); [assumption | lia]).
    cbn [res calls ret fst snd]. rewrite app_nil_r. reflexivity.
  - reflexivity.
Qed.

Lemma Early_writes_full chunks :
  forall (m : Early.cmac) (t : list byte),
    wf (lift t m) ->
    exists m' t',
      writes m chunks
      = (Ret m',
         absorb_calls (Early.c m) (length (Early.buf m ++ concat chunks))
           (Early.x m) (Early.buf m ++ concat chunks)) /\
      lift t' m' = written (lift t m) (Early.buf m ++ concat chunks).
Proof.
  induction chunks as [| ch rest IH]; intros m t Hwf.
  - exists m, t. cbn [writes concat]. rewrite !app_nil_r.
    pose proof (wf_pos _ Hwf) as Hpos. pose proof Hwf as [_ _ _ _ _ Hb].
    cbn [lift Append.c Append.buf] in Hpos, Hb.
    rewrite (absorb_calls_stop (Early.c m) Hpos) by exact Hb.
    split; [reflexivity |].
    symmetry. exact (written_pending (lift t m) Hwf).
  - destruct (Early_Write_full m ch t Hwf) as (m1 & Hw & Habs1).
    set (t1 := Append.tmp (written (lift t m) (Early.buf m ++ ch))) in *.
    assert (Hwf1 : wf (lift t1 m1)) by (rewrite Habs1; apply wf_written, Hwf).
    destruct (IH m1 t1 Hwf1) as (m2 & t2 & Hws & Habs2).
    exists m2, t2.
    pose proof (wf_pos _ Hwf) as Hpos. cbn [lift Append.c] in Hpos.
    pose proof (f_equal Append.c Habs1) as Ec.
    pose proof (f_equal Append.buf Habs1) as Eb.
    pose proof (f_equal Append.x Habs1) as Ex.
    cbn [lift written Append.c] in Ec.
    unfold written, absorbed in Eb, Ex.
    cbn [lift Append.c Append.buf Append.x Append.tmp snd] in Eb, Ex.
    split.
    + cbn [writes hash_Write Early_Hash concat]. erewrite bind_Ret by exact Hw.
      cbn [fst]. rewrite Hws. cbn [res calls fst snd]. f_equal.
      rewrite Ec, Eb, Ex.
      rewrite (app_assoc (Early.buf m) ch (concat rest)).
      symmetry. apply (absorb_calls_app (Early.c m) Hpos); lia.
    + rewrite Habs2, Habs1. cbn [concat].
      change (Early.buf m1) with (Append.buf (lift t1 m1)). rewrite Habs1.
      change (Early.buf m) with (Append.buf (lift t m)).
      rewrite written_written by exact Hwf.
      rewrite <- app_assoc. reflexivity.
Qed.

Lemma Early_Sum_spec (m : Early.cmac) (b t : list byte) :
  wf (lift t m) ->
  Early.Sum m b
  = (Ret (m, b ++ final_tag (Early.c m) (Early.k1 m) (Early.k2 m) (Early.buf m) (Early.x m)),
     [xor_bytes (final_block (bsize (Early.c m)) (Early.k1 m) (Early.k2 m) (Early.buf m))
                (Early.x m)]).
Proof.
  intros Hwf. pose proof Hwf as [Hbs Hk1 Hk2 Hx Ht Hb].
  pose proof (Sum_guard (lift t m) Hwf) as Hguard.
  cbn [lift Append.c Append.k1 Append.k2 Append.x Append.buf] in *.
  unfold Early.Sum. rewrite make_nonneg, bind_ret_l by lia.
  rewrite Hguard, bind_ret_l.
  fold (bsize (Early.c m)). set (n := bsize (Early.c m)) in *.
  assert (Hz : length (replicate n Byte.x00) = n) by apply length_replicate.
  unfold final_tag, final_block. fold n.
  destruct (decide (length (Early.buf m) = n)) as [E | NE].
  - rewrite bool_decide_eq_true_2 by exact E.
    rewrite for_range_xor_from, bind_ret_l by lia.
    rewrite for_range_xor_inplace, bind_ret_l by (rewrite length_xor_bytes; lia).
    reflexivity.
  - rewrite bool_decide_eq_false_2 by exact NE.
    rewrite copy_short by lia.
    rewrite drop_replicate.
    replace (n - length (Early.buf m))%nat with (S (n - length (Early.buf m) - 1)) by lia.
    cbn [replicate].
    rewrite store_mid, bind_ret_l by reflexivity.
    fold (pad n (Early.buf m)).
    rewrite for_range_xor_inplace, bind_ret_l by (rewrite length_pad; lia).
    rewrite for_range_xor_inplace, bind_ret_l
      by (rewrite length_xor_bytes; rewrite length_pad; lia).
    reflexivity.
Qed.

Lemma Early_mac_after_full (m : Early.cmac) (t : list byte) chunks :
  wf (lift t m) ->
  mac_after m chunks = mac_after (lift t m) chunks.
Proof.
  intros Hwf.
  rewrite (mac_after_full (lift t m)) by exact Hwf. cbn zeta.
  destruct (Early_writes_full chunks m t Hwf) as (m' & t' & Hws & Habs).
  unfold mac_after. erewrite bind_Ret by exact Hws.
  cbn [hash_Sum Early_Hash].
  assert (Hwf' : wf (lift t' m')) by (rewrite Habs; apply wf_written, Hwf).
  rewrite (Early_Sum_spec m' [] t' Hwf').
  change (Early.buf m) with (Append.buf (lift t m)) in Habs.
  rewrite <- Habs. reflexivity.
Qed.

Lemma Early_gensubkeys_spec (ci : Block) :
  0 < BlockSize ci ->
  Early.gensubkeys ci
  = (Ret (double Byte.x87 (subkey_L ci), double Byte.x87 (double Byte.x87 (subkey_L ci))),
     [zero_block ci]).
Proof.
  intros Hbs. unfold Early.gensubkeys.
  rewrite make_nonneg, bind_ret_l by lia.
  fold (zero_block ci).
  assert (Hpos : (0 < Z.to_nat (BlockSize ci))%nat) by lia.
  unfold Encrypt.
  change (fst (copy (zero_block ci) (cipher_fn ci (zero_block ci)))) with (subkey_L ci).
  erewrite bind_Ret by reflexivity.
  rewrite gensubkey_spec, bind_ret_l
    by (eapply nonempty_of_length; [apply length_subkey_L | exact Hpos]).
  rewrite gensubkey_spec, bind_ret_l
    by (eapply nonempty_of_length; [rewrite length_double; apply length_subkey_L | exact Hpos]).
  reflexivity.
Qed.

Lemma Early_NewWithCipher_pos (ci : Block) :
  0 < BlockSize ci -> Early.NewWithCipher ci = (Ret (freshE ci), [zero_block ci]).
Proof.
  intros Hbs. unfold Early.NewWithCipher, Early.newcmac.
  erewrite bind_Ret by (apply Early_gensubkeys_spec; exact Hbs).
  unfold Early.Reset. cbn [Early.set_buf Early.c fst snd].
  rewrite make_nonneg, bind_ret_l by lia. reflexivity.
Qed.

Lemma lift_freshE ci :
  BlockSize ci = 16 -> lift (zero_block ci) (freshE ci) = fresh ci.
Proof.
  intros E. unfold lift, freshE, fresh, subkey_K2, subkey_K1, Rb.
  cbn [Early.c Early.k1 Early.k2 Early.x Early.buf].
  rewrite decide_True by exact E. reflexivity.
Qed.

(** X14: on a cipher with 16-byte blocks the early revision is [cmac.go]:
    constructing an engine, writing any chunks and calling [Sum] returns the
    same tag after the same cipher calls on the same blocks in the same
    order. *)
Theorem X14_early_revision_on_16_byte_blocks
  (ci : Block) (chunks : list (list byte)) :
  BlockSize ci = 16 ->
  Append_digest ci chunks = (t <- Early_digest ci chunks ;; ret (Some t, None)).
Proof.
  intros E. unfold Append_digest, Early_digest.
  erewrite (bind_Ret (Append.NewWithCipher ci)) by (apply NewWithCipher_ok; right; exact E).
  erewrite (bind_Ret (Early.NewWithCipher ci)) by (apply Early_NewWithCipher_pos; lia).
  assert (Hwf : wf (lift (zero_block ci) (freshE ci)))
    by (rewrite lift_freshE by exact E; apply wf_fresh; right; exact E).
  rewrite (Early_mac_after_full (freshE ci) (zero_block ci) chunks Hwf).
  rewrite lift_freshE by exact E.
  destruct (mac_after (fresh ci) chunks) as [[tag | msg |] tr];
    cbn [bind ret res calls fst snd]; rewrite ?app_nil_r; reflexivity.
Qed.

Lemma X14_witness :
  Append_digest (demo_cipher 16) [bytes_of [1; 2; 3]; bytes_of [4]]
  = (t <- Early_digest (demo_cipher 16) [bytes_of [1; 2; 3]; bytes_of [4]] ;;
     ret (Some t, None)).
Proof.
  apply (X14_early_revision_on_16_byte_blocks (demo_cipher 16)). reflexivity.
Defined.

(** X15: [NewWithCipher] of the early revision has no check of the block
    size.  With a positive block size of any value it returns an engine
    whose subkeys are doubled with [0x87], after one cipher call on the zero
    block; with a block size of zero it panics with an index out of range in
    [gensubkey], after the cipher was called on an empty block; with a
    negative one [make] panics before any cipher call. *)
Theorem X15_early_NewWithCipher_takes_any_cipher (ci : Block) :
  Early.NewWithCipher ci
  = if decide (BlockSize ci < 0) then (Panic "makeslice: len out of range", [])
    else if decide (BlockSize ci = 0) then (Panic "index out of range", [[]])
    else (Ret (freshE ci), [zero_block ci]).
Proof.
  destruct (decide (BlockSize ci < 0)) as [Hneg | Hnn].
  - unfold Early.NewWithCipher, Early.newcmac, Early.gensubkeys, make.
    rewrite decide_True by exact Hneg. reflexivity.
  - destruct (decide (BlockSize ci = 0)) as [E0 | Hne].
    + unfold Early.NewWithCipher, Early.newcmac, Early.gensubkeys.
      rewrite make_nonneg, bind_ret_l by lia. rewrite E0.
      unfold Encrypt, copy. cbn [Z.to_nat replicate length take drop app fst].
      change (Z.to_nat 0) with 0%nat. cbn [replicate]. rewrite drop_nil.
      reflexivity.
    + apply Early_NewWithCipher_pos. lia.
Qed.




(** X17: [padded] of the early revision returns its argument followed by
    [0x80] and zeros up to sixteen bytes when the argument is shorter than
    sixteen bytes, and panics with an index out of range on sixteen bytes or
    more. *)
Theorem X17_padded_pads_or_panics (d : list byte) :
  Early.padded d
  = if decide (length d < 16)%nat then ret (pad 16 d) else panic "index out of range".
Proof.
  unfold Early.padded, Early.aes_BlockSize.
  rewrite make_nonneg, bind_ret_l by lia.
  change (Z.to_nat 16) with 16%nat.
  destruct (decide (length d < 16)%nat) as [Hlt | Hge].
  - rewrite copy_short by (rewrite length_replicate; lia).
    rewrite drop_replicate.
    replace (16 - length d)%nat with (S (16 - length d - 1)) by lia.
    cbn [replicate]. rewrite store_mid by reflexivity. reflexivity.
  - unfold store. rewrite decide_False; [reflexivity |].
    rewrite copy_length, length_replicate. lia.
Qed.

(** * Beyond the claims: the test with chunks of growing size *)

Lemma replicate_Z_add (n c : Z) :
  0 <= n -> 0 <= c ->
  replicate (Z.to_nat n) Byte.x00 ++ replicate (Z.to_nat c) Byte.x00
  = replicate (Z.to_nat (n + c)) Byte.x00.
Proof. intros Hn Hc. rewrite Z2Nat.inj_add by lia. symmetry. apply replicate_add. Qed.

Lemma chunked_loop_spec ci total :
  forall fuel (m : Append.cmac) n c,
    reachable ci (replicate (Z.to_nat n) Byte.x00) m ->
    0 <= n -> 0 <= c ->
    (Z.to_nat (total - n) + (if decide (c = 0%Z) then 1 else 0) <= fuel)%nat ->
    exists m',
      res (chunked_loop fuel total m n c) = Ret m' /\
      reachable ci (replicate (Z.to_nat (Z.max n total)) Byte.x00) m'.
Proof.
  induction fuel as [| fuel IH]; intros m n c Hreach Hn Hc Hfuel.
  - exists m. cbn [chunked_loop].
    rewrite decide_False by (destruct (decide (c = 0)); lia).
    split; [reflexivity |]. rewrite Z.max_l by (destruct (decide (c = 0)); lia).
    exact Hreach.
  - cbn [chunked_loop].
    destruct (decide (n < total)) as [Hlt | Hge].
    + set (c' := if decide (n + c > total) then total - n else c).
      assert (Hc' : 0 <= c' /\ n + c' <= total /\ (c = 0 \/ 1 <= c'))
        by (subst c'; destruct (decide (n + c > total)); lia).
      destruct Hc' as (Hc0 & Hle & Hpos).
      rewrite make_nonneg, bind_ret_l by exact Hc0.
      pose proof (reachable_inv _ _ _ Hreach) as [Hwf _ _ _ _ _ _].
      cbn [hash_Write Append_Hash].
      pose proof (Write_full m (replicate (Z.to_nat c') Byte.x00) Hwf) as Hw.
      erewrite bind_Ret by exact Hw. cbn [fst].
      assert (Hlen : len (replicate (Z.to_nat c') Byte.x00) = c')
        by (unfold len; rewrite length_replicate; lia).
      rewrite Hlen.
      destruct (IH (written m (Append.buf m ++ replicate (Z.to_nat c') Byte.x00))
                  (n + c') (c' + 1)) as (m' & Hres & Hr'); try lia.
      * rewrite <- replicate_Z_add by lia.
        apply (reach_Write ci _ m _ _ (c', None) Hreach). rewrite Hw, Hlen. reflexivity.
      * rewrite decide_False by lia.
        destruct (decide (c = 0)) as [E0 | NE0]; lia.
      * exists m'. cbn [res fst calls]. split; [exact Hres |].
        rewrite Z.max_r in * by lia. exact Hr'.
    + exists m. split; [reflexivity |]. rewrite Z.max_l by lia. exact Hreach.
Qed.

(** X18: the loop of [TestChunkedWrites] ends for every [total], and the tag
    it gets from [Sum] after chunks of 0, 1, 2, ... zero bytes is the CMAC
    of [total] zero bytes (of the empty message for a [total] that is not
    positive). *)
Theorem X18_chunks_of_growing_size
  (ci : Block) (m : Append.cmac) (total : Z) :
  reachable ci [] m ->
  res (chunked_writes m total) = Ret (cmac_of ci (replicate (Z.to_nat total) Byte.x00)).
Proof.
  intros Hreach. unfold chunked_writes.
  destruct (chunked_loop_spec ci total (Z.to_nat total + 1) m 0 0) as (m' & Hloop & Hr');
    try lia.
  - exact Hreach.
  - rewrite decide_True by reflexivity. lia.
  - replace (Z.to_nat (Z.max 0 total)) with (Z.to_nat total) in Hr' by lia.
    rewrite res_bind, Hloop. cbn [hash_Sum Append_Hash].
    rewrite res_bind, (Sum_cmac_of ci _ m' [] Hr'). reflexivity.
Qed.

Lemma X18_witness :
  res (chunked_writes (fresh (demo_cipher 8)) 40)
  = Ret (cmac_of (demo_cipher 8) (replicate (Z.to_nat 40) Byte.x00)).
Proof.
  apply (X18_chunks_of_growing_size (demo_cipher 8) (fresh (demo_cipher 8)) 40).
  exact reachable_demo_fresh.
Defined.
